(** * Listing scraper: the HTML shim, the helpers and the title generator

    A shallow embedding of [bs4/__init__.py], [src/helpers.py],
    [src/kpi1_extract.py] and [src/kpi3_title_generate.py], followed by the
    properties proved about them.

    Conventions of the embedding.
    - A Python [str] is a list of Unicode code points ([N]).
    - A Python [dict] with string keys keeps its insertion order and is an
      association list with distinct keys.
    - The node objects of the tree live in an arena ([list Node]); a node
      reference is its index, [parent] and the entries of [children] are
      indices, and [is] on nodes is equality of indices.
    - Code that may raise or loop returns an [outcome]; the limits of the
      interpreter (memory, recursion depth) are not part of the model.
    - What the code only calls in the standard library ([str.lower], the
      character class [\w], [html.entities], [int], [chr], [re.search],
      the tokenizer of [html.parser]) is a parameter or an input: a
      markup string is the list of handler calls the tokenizer makes. *)

From Stdlib Require Import NArith ZArith String Ascii.
From stdpp Require Import base option list numbers gmap.

Open Scope list_scope.

(** ** Python strings *)

Abbreviation char := N (only parsing).
Abbreviation str := (list N) (only parsing).

(** An ASCII literal as a Python string. *)
Definition py (s : string) : str :=
  map N_of_ascii (list_ascii_of_string s).

Definition str_eqb (a b : str) : bool := bool_decide (a = b).

(** Truthiness of a string: [bool(s)]. *)
Definition truthy (s : str) : bool :=
  match s with [] => false | _ => true end.

(** Truthiness of an [Optional[str]]. *)
Definition truthy_opt (o : option str) : bool :=
  match o with Some s => truthy s | None => false end.

(** [str.isspace] on one character (the whitespace set of CPython). *)
Definition is_space (c : char) : bool :=
  (((9 <=? c) && (c <=? 13)) || ((28 <=? c) && (c <=? 32))
   || (c =? 133) || (c =? 160) || (c =? 5760)
   || ((8192 <=? c) && (c <=? 8202))
   || (c =? 8232) || (c =? 8233) || (c =? 8239) || (c =? 8287)
   || (c =? 12288))%N.

(** [s.lstrip(chars)], [s.rstrip(chars)] and [s.strip(chars)], the set of
    characters given as a predicate. *)
Fixpoint lstrip_by (p : char -> bool) (s : str) : str :=
  match s with
  | [] => []
  | c :: r => if p c then lstrip_by p r else s
  end.

Definition rstrip_by (p : char -> bool) (s : str) : str :=
  rev (lstrip_by p (rev s)).

Definition strip_by (p : char -> bool) (s : str) : str :=
  rstrip_by p (lstrip_by p s).

(** [s.strip()] *)
Definition strip (s : str) : str := strip_by is_space s.

(** [s.split()]: the maximal runs of non-whitespace characters. [tok] is
    the run being read. *)
Fixpoint split_from (tok : str) (s : str) : list str :=
  match s with
  | [] => match tok with [] => [] | _ => [tok] end
  | c :: r =>
      if is_space c
      then match tok with [] => split_from [] r | _ => tok :: split_from [] r end
      else split_from (tok ++ [c]) r
  end.

Definition split (s : str) : list str := split_from [] s.

(** [sep.join(parts)] *)
Fixpoint join (sep : str) (parts : list str) : str :=
  match parts with
  | [] => []
  | [x] => x
  | x :: r => x ++ sep ++ join sep r
  end.

(** [s.startswith(p)] *)
Fixpoint startswith (s p : str) {struct p} : bool :=
  match p, s with
  | [], _ => true
  | _ :: _, [] => false
  | a :: p', b :: s' => N.eqb a b && startswith s' p'
  end.

(** [sub in s] *)
Fixpoint contains (s sub : str) : bool :=
  startswith s sub ||
  match s with
  | [] => false
  | _ :: r => contains r sub
  end.

(** ** Dictionaries with string keys *)

Abbreviation dict := (list (list N * list N)) (only parsing).

(** [d.get(key)] *)
Fixpoint dict_get (d : dict) (key : str) : option str :=
  match d with
  | [] => None
  | (k, v) :: r => if str_eqb k key then Some v else dict_get r key
  end.

(** [d[key] = value]: an existing key keeps its position. *)
Fixpoint dict_set (d : dict) (key value : str) : dict :=
  match d with
  | [] => [(key, value)]
  | (k, v) :: r =>
      if str_eqb k key then (k, value) :: r else (k, v) :: dict_set r key value
  end.

(** [key in d] *)
Definition dict_has (d : dict) (key : str) : bool :=
  match dict_get d key with Some _ => true | None => false end.

(** ** helpers.py *)

(** The placeholder [不明]. *)
Definition UNKNOWN : str := [19981%N; 26126%N].

Definition or_unknown (s : str) : str :=
  if truthy s then s else UNKNOWN.

(** [clean_text] *)
Definition clean_text (value : option str) : str :=
  if negb (truthy_opt value) then UNKNOWN
  else match value with
       | Some v => or_unknown (join (py " ") (split (strip v)))
       | None => UNKNOWN
       end.

(** What [re.search] hands back: [match.group(0)] and [match.groups()]
    (a group that took no part in the match is [None]). *)
Record Match := mkMatch {
  group0 : str;
  groups : list (option str)
}.

Inductive re_flag := IGNORECASE.

Section Regexes.

(** [re.search(pattern, text, flag)] of the standard library. *)
Variable re_search : str -> str -> re_flag -> option Match.

(** [[g for g in match.groups() if g]] *)
Definition nonempty_groups (m : Match) : list str :=
  omap (fun g => if truthy_opt g then g else None) (groups m).

(** [run_regexes] *)
Fixpoint run_regexes (text : str) (patterns : list str) : str :=
  match patterns with
  | [] => UNKNOWN
  | pattern :: rest =>
      match re_search pattern text IGNORECASE with
      | Some m =>
          match nonempty_groups m with
          | g :: _ => clean_text (Some g)
          | [] => clean_text (Some (group0 m))
          end
      | None => run_regexes text rest
      end
  end.

End Regexes.

(** The value of [re.search("brand:(.+)", "brand:AB  CD", re.IGNORECASE)],
    and no match elsewhere. *)
Definition sample_search (pattern text : str) (_ : re_flag) : option Match :=
  if bool_decide (pattern = py "brand:(.+)" /\ text = py "brand:AB  CD")
  then Some (mkMatch (py "brand:AB  CD") [Some (py "AB  CD")])
  else None.

(** ** kpi3_title_generate.py *)

(** The argument of [generate_title]: a dict, or any other object. *)
Inductive specs_arg :=
| SpecsDict (d : dict)
| SpecsOther.

(** [specs.get(key) if isinstance(specs, dict) else None] *)
Definition specs_get (specs : specs_arg) (key : str) : option str :=
  match specs with
  | SpecsDict d => dict_get d key
  | SpecsOther => None
  end.

Definition is_unknown (s : str) : bool := str_eqb s UNKNOWN.

(** [if value != "不明": title_parts.append(part)] *)
Definition append_known (parts : list str) (value part : str) : list str :=
  if negb (is_unknown value) then parts ++ [part] else parts.

(** [generate_title] *)
Definition generate_title (specs : specs_arg) : dict :=
  let brand := clean_text (specs_get specs (py "brand")) in
  let model := clean_text (specs_get specs (py "model")) in
  let inch := clean_text (specs_get specs (py "inch")) in
  let width := clean_text (specs_get specs (py "width")) in
  let holes := clean_text (specs_get specs (py "holes")) in
  let pcd := clean_text (specs_get specs (py "pcd")) in
  let offset := clean_text (specs_get specs (py "offset")) in
  let title_parts := [brand; model] in
  let title_parts := append_known title_parts inch inch in
  let title_parts := append_known title_parts width width in
  let title_parts := append_known title_parts holes (holes ++ py "H") in
  let title_parts := append_known title_parts pcd (py "PCD" ++ pcd) in
  let title_parts := append_known title_parts offset (py "OFFSET" ++ offset) in
  let structured_title :=
    join (py " ")
      (filter (fun part => truthy part && negb (is_unknown part) = true) title_parts) in
  let structured_title := or_unknown structured_title in
  [(py "title", structured_title)].

(** ** Outcomes of code that may raise or loop *)

(** The exceptions the code tells apart: [ValueError], and every other
    instance of [Exception]. *)
Inductive exn :=
| ValueError
| OtherException (cls : string).

(** [Diverge]: the loop or the recursion does not come back. *)
Inductive outcome (A : Type) :=
| Ok (a : A)
| Raise (e : exn)
| Diverge.
Arguments Ok {A} a.
Arguments Raise {A} e.
Arguments Diverge {A}.

#[global] Instance outcome_ret : MRet outcome := fun A a => Ok a.
#[global] Instance outcome_bind : MBind outcome := fun A B f m =>
  match m with
  | Ok a => f a
  | Raise e => Raise e
  | Diverge => Diverge
  end.

(** [try: body except Exception: handler] *)
Definition try_except {A} (body : outcome A) (handler : outcome A) : outcome A :=
  match body with
  | Raise _ => handler
  | r => r
  end.

(** [try: body except ValueError: handler] *)
Definition try_except_ValueError {A} (body : outcome A) (handler : outcome A)
  : outcome A :=
  match body with
  | Raise ValueError => handler
  | r => r
  end.

(** What the standard library supplies and the code only calls. *)
Class Runtime := {
  (** [str.lower] *)
  lower : str -> str;
  (** the class [\w] of [re] *)
  is_word : char -> bool;
  (** [html.entities.name2codepoint.get] *)
  name2codepoint : str -> option N;
  (** [int(s, base)]; [None] is its [ValueError] *)
  py_int : str -> N -> option Z;
  (** [chr] *)
  py_chr : Z -> outcome char
}.

(** ** bs4: the nodes *)

Abbreviation node_id := nat (only parsing).

Inductive child :=
| ChildNode (n : node_id)
| ChildText (s : str).

Record Node := mkNode {
  name : str;
  attrs : dict;
  children : list child;
  parent : option node_id
}.

#[global] Instance Node_inhabited : Inhabited Node :=
  populate (mkNode [] [] [] None).

(** The store of node objects. *)
Abbreviation arena := (list Node) (only parsing).

Definition VOID_ELEMENTS : list str :=
  map py ["area"; "base"; "br"; "col"; "embed"; "hr"; "img"; "input";
          "link"; "meta"; "param"; "source"; "track"; "wbr"]%string.

Definition is_void (tag : str) : bool := bool_decide (tag ∈ VOID_ELEMENTS).

Definition ROOT_NAME : str := py "__root__".

(** [value or ""] *)
Definition or_empty (value : option str) : str :=
  match value with Some v => v | None => [] end.

(** [{key: value or "" for key, value in attrs}] *)
Definition attrs_dict (attrs : list (str * option str)) : dict :=
  foldl (fun d kv => dict_set d (fst kv) (or_empty (snd kv))) [] attrs.

(** [_Node.__init__] *)
Definition new_node (nm : str) (ats : list (str * option str))
    (par : option node_id) : Node :=
  mkNode nm (attrs_dict ats) [] par.

(** [node.append(child)] on the node object [n] of the arena. *)
Definition append_child (a : arena) (n : node_id) (c : child) : arena :=
  alter (fun nd => mkNode (name nd) (attrs nd) (children nd ++ [c]) (parent nd)) n a.

(** ** bs4: the tree builder *)

(** [self.root] is the first object of the arena. *)
Definition ROOT : node_id := 0%nat.

Record Builder := mkBuilder {
  nodes : arena;
  current : node_id
}.

(** [_HTMLTreeBuilder.__init__] *)
Definition init_builder : Builder :=
  mkBuilder [new_node ROOT_NAME [] None] ROOT.

(** [node.parent or self.root] *)
Definition parent_or_root (a : arena) (n : node_id) : node_id :=
  match parent (a !!! n) with
  | Some p => p
  | None => ROOT
  end.

Section TreeBuilder.

Context `{Runtime}.

(** [handle_starttag] *)
Definition handle_starttag (b : Builder) (tag : str)
    (ats : list (str * option str)) : Builder :=
  let node := length (nodes b) in
  let a := nodes b ++ [new_node tag ats (Some (current b))] in
  let a := append_child a (current b) (ChildNode node) in
  if negb (is_void (lower tag)) then mkBuilder a node
  else mkBuilder a (current b).

(** [handle_startendtag] *)
Definition handle_startendtag (b : Builder) (tag : str)
    (ats : list (str * option str)) : Builder :=
  let node := length (nodes b) in
  let a := nodes b ++ [new_node tag ats (Some (current b))] in
  mkBuilder (append_child a (current b) (ChildNode node)) (current b).

(** The [while] loop of [handle_endtag]; one unit of fuel per turn. *)
Fixpoint endtag_loop (fuel : nat) (a : arena) (cur : node_id) (tag : str)
  : outcome node_id :=
  match fuel with
  | O => Diverge
  | S fuel' =>
      if negb (bool_decide (cur = ROOT))
         && negb (str_eqb (lower (name (a !!! cur))) tag)
      then endtag_loop fuel' a (parent_or_root a cur) tag
      else Ok cur
  end.

(** [handle_endtag] *)
Definition handle_endtag (b : Builder) (tag : str) : outcome Builder :=
  let tag := lower tag in
  cur ← endtag_loop (S (length (nodes b))) (nodes b) (current b) tag;
  if negb (bool_decide (cur = ROOT))
  then Ok (mkBuilder (nodes b) (parent_or_root (nodes b) cur))
  else Ok (mkBuilder (nodes b) cur).

(** [handle_data] *)
Definition handle_data (b : Builder) (data : str) : Builder :=
  if truthy data
  then mkBuilder (append_child (nodes b) (current b) (ChildText data)) (current b)
  else b.

(** [handle_entityref]; [63] is [ord("?")]. *)
Definition handle_entityref (b : Builder) (nm : str) : Builder :=
  let c := default 63%N (name2codepoint nm) in
  handle_data b [c].

(** [handle_charref] *)
Definition handle_charref (b : Builder) (nm : str) : outcome Builder :=
  let base := if startswith (lower nm) (py "x") then 16%N else 10%N in
  c ← try_except_ValueError
        (match py_int (lstrip_by (fun c => bool_decide (c ∈ py "xX")) nm) base with
         | Some z => py_chr z
         | None => Raise ValueError
         end)
        (Ok 63%N);
  Ok (handle_data b [c]).

(** [handle_comment] *)
Definition handle_comment (b : Builder) (data : str) : Builder :=
  mkBuilder
    (append_child (nodes b) (current b) (ChildText (py "<!--" ++ data ++ py "-->")))
    (current b).

(** The calls [HTMLParser.feed] makes on the builder. *)
Inductive event :=
| Starttag (tag : str) (ats : list (str * option str))
| Startendtag (tag : str) (ats : list (str * option str))
| Endtag (tag : str)
| Data (data : str)
| Entityref (nm : str)
| Charref (nm : str)
| Comment (data : str).

Definition handle (b : Builder) (e : event) : outcome Builder :=
  match e with
  | Starttag tag ats => Ok (handle_starttag b tag ats)
  | Startendtag tag ats => Ok (handle_startendtag b tag ats)
  | Endtag tag => handle_endtag b tag
  | Data data => Ok (handle_data b data)
  | Entityref nm => Ok (handle_entityref b nm)
  | Charref nm => handle_charref b nm
  | Comment data => Ok (handle_comment b data)
  end.

(** The builder after the events of a markup string, in order. *)
Fixpoint feed (b : Builder) (es : list event) : outcome Builder :=
  match es with
  | [] => Ok b
  | e :: rest => b' ← handle b e; feed b' rest
  end.

(** [BeautifulSoup.__init__]: the document is the arena, its root [ROOT]. *)
Definition build (es : list event) : outcome arena :=
  b ← feed init_builder es; Ok (nodes b).

End TreeBuilder.

(** ** bs4: selectors *)

Record _Selector := mkSelector {
  sel_tag : option str;
  sel_id : option str;
  sel_classes : option (list str);
  sel_attr_name : option str;
  sel_attr_value : option str;
  sel_attr_op : option str
}.

(** Truthiness of an [Optional[List[str]]]. *)
Definition truthy_list (o : option (list str)) : bool :=
  match o with Some (_ :: _) => true | _ => false end.

(** [s.split(sep)] for a one-character separator. *)
Fixpoint split_on (sep : char) (s : str) : list str :=
  match s with
  | [] => [[]]
  | c :: r =>
      if N.eqb c sep then [] :: split_on sep r
      else match split_on sep r with
           | tok :: toks => (c :: tok) :: toks
           | [] => [[c]]
           end
  end.

(** The longest prefix of characters in a class, and what follows it. *)
Fixpoint span (p : char -> bool) (s : str) : str * str :=
  match s with
  | [] => ([], [])
  | c :: r => if p c then (c :: fst (span p r), snd (span p r)) else ([], s)
  end.

Definition one_of (cs : str) (c : char) : bool := bool_decide (c ∈ cs).
Definition none_of (cs : str) (c : char) : bool := negb (one_of cs c).

(** The first candidate on which [f] succeeds: the order in which a
    backtracking matcher tries its choices. *)
Fixpoint first_success {A B} (f : A -> option B) (l : list A) : option B :=
  match l with
  | [] => None
  | x :: r => match f x with Some y => Some y | None => first_success f r end
  end.

(** The lengths a greedy repetition over [n] characters tries, longest
    first, down to [least]. *)
Definition greedy (least n : nat) : list nat :=
  rev (seq least (S n - least)).

(** What a successful [_selector_attr_re.match] gives: the groups [name],
    [op] and [value], and the text after [match.end()]. *)
Record attr_match := mkAttrMatch {
  am_name : str;
  am_op : option str;
  am_value : option str;
  am_rest : str
}.

(** [[a-zA-Z0-9_:-]] *)
Definition is_tag_char (c : char) : bool :=
  (((97 <=? c) && (c <=? 122)) || ((65 <=? c) && (c <=? 90))
   || ((48 <=? c) && (c <=? 57)) || (c =? 95) || (c =? 58) || (c =? 45))%N.

Section Selectors.

Context `{Runtime}.

(** [_Selector.matches] *)
Definition matches (self : _Selector) (node : Node) : bool :=
  if str_eqb (name node) ROOT_NAME then false
  else if truthy_opt (sel_tag self)
          && negb (str_eqb (lower (name node)) (lower (or_empty (sel_tag self))))
  then false
  else if truthy_opt (sel_id self)
          && negb (bool_decide (dict_get (attrs node) (py "id") = sel_id self))
  then false
  else if truthy_list (sel_classes self)
          && negb (forallb
                     (fun cls => bool_decide
                        (cls ∈ split (default [] (dict_get (attrs node) (py "class")))))
                     (default [] (sel_classes self)))
  then false
  else if truthy_opt (sel_attr_name self)
  then match dict_get (attrs node) (or_empty (sel_attr_name self)) with
       | None => false
       | Some attr_val =>
           if bool_decide (sel_attr_op self = Some (py "="))
           then str_eqb attr_val (or_empty (sel_attr_value self))
           else if bool_decide (sel_attr_op self = Some (py "*="))
                   && truthy_opt (sel_attr_value self)
           then contains attr_val (or_empty (sel_attr_value self))
           else true
       end
  else true.

(** [[\w-]] *)
Definition is_ident_char (c : char) : bool := is_word c || one_of (py "-") c.

(** [re.match(r"#([\w-]+)", cursor)] and [re.match(r"\.([\w-]+)", cursor)]
    on a cursor that starts with the mark: group 1 and the text after
    the match. *)
Definition match_ident (cursor : str) : option (str * str) :=
  match cursor with
  | [] => None
  | _ :: r =>
      match span is_ident_char r with
      | ([], _) => None
      | (g, rest) => Some (g, rest)
      end
  end.

(** The alternatives of the group [value] at [s], each followed by the
    closing bracket: a double-quoted run, a single-quoted run, or a run
    up to the bracket. *)
Definition quoted_value (q : str) (s : str) : option (str * str) :=
  match s with
  | c :: t =>
      if one_of q c then
        match span (none_of q) t with
        | (body, c' :: c'' :: after) =>
            if one_of q c' && one_of (py "]") c''
            then Some (c :: body ++ [c'], after) else None
        | _ => None
        end
      else None
  | [] => None
  end.

Definition bare_value (s : str) : option (str * str) :=
  match span (none_of (py "]")) s with
  | (c :: v, _ :: after) => Some (c :: v, after)
  | _ => None
  end.

Definition value_then_bracket (s : str) : option (str * str) :=
  first_success (fun alt : str -> option (str * str) => alt s)
    [quoted_value [34%N]; quoted_value (py "'"); bare_value].

(** After the operator [op]: [\s*] (greedy), then [value] and the
    closing bracket. *)
Definition spaces_value_bracket (op : str) (s : str) : option (str * str * str) :=
  first_success
    (fun k => match value_then_bracket (drop k s) with
              | Some (v, after) => Some (op, v, after)
              | None => None
              end)
    (greedy 0 (length (fst (span is_space s)))).

(** The optional group: [op], one of its two alternatives in their
    order, and what follows it. *)
Definition op_value_bracket (s : str) : option (str * str * str) :=
  first_success
    (fun op =>
       if startswith s op then spaces_value_bracket op (drop (length op) s)
       else None)
    [py "*="; py "="].

(** [_selector_attr_re.match(cursor)] on a cursor that starts with the
    opening bracket: the name is tried longest first; for each name the
    optional group is tried before its absence. *)
Definition match_attr (cursor : str) : option attr_match :=
  match cursor with
  | [] => None
  | _ :: r =>
      first_success
        (fun k =>
           let nm := take k r in
           let s := drop k r in
           match op_value_bracket s with
           | Some (op, v, after) => Some (mkAttrMatch nm (Some op) (Some v) after)
           | None =>
               match s with
               | c :: after =>
                   if one_of (py "]") c
                   then Some (mkAttrMatch nm None None after) else None
               | [] => None
               end
           end)
        (greedy 1 (length (fst (span (none_of (py "=]")) r))))
  end.

(** [re.match(r"[a-zA-Z0-9_:-]+", cursor)] *)
Definition match_tag (cursor : str) : option (str * str) :=
  match span is_tag_char cursor with
  | ([], _) => None
  | (g, rest) => Some (g, rest)
  end.

(** The local variables of [_parse_selector]. *)
Record parse_state := mkParse {
  ps_tag : option str;
  ps_sel_id : option str;
  ps_classes : list str;
  ps_attr_name : option str;
  ps_attr_value : option str;
  ps_attr_op : option str
}.

(** The [while cursor] loop; one unit of fuel per turn. *)
Fixpoint parse_loop (fuel : nat) (cursor : str) (st : parse_state)
  : outcome parse_state :=
  if negb (truthy cursor) then Ok st else
  match fuel with
  | O => Diverge
  | S fuel' =>
      if startswith cursor (py "#") then
        match match_ident cursor with
        | None => Ok st
        | Some (g, rest) =>
            parse_loop fuel' rest
              (mkParse (ps_tag st) (Some g) (ps_classes st)
                 (ps_attr_name st) (ps_attr_value st) (ps_attr_op st))
        end
      else if startswith cursor (py ".") then
        match match_ident cursor with
        | None => Ok st
        | Some (g, rest) =>
            parse_loop fuel' rest
              (mkParse (ps_tag st) (ps_sel_id st) (ps_classes st ++ [g])
                 (ps_attr_name st) (ps_attr_value st) (ps_attr_op st))
        end
      else if startswith cursor (py "[") then
        match match_attr cursor with
        | None => Ok st
        | Some m =>
            let value :=
              match am_value m with
              | Some v => if truthy v
                          then Some (strip_by (one_of (34%N :: py "'")) v)
                          else Some v
              | None => None
              end in
            parse_loop fuel' (am_rest m)
              (mkParse (ps_tag st) (ps_sel_id st) (ps_classes st)
                 (Some (strip (am_name m))) value (am_op m))
        end
      else
        match match_tag cursor with
        | Some (g, rest) =>
            parse_loop fuel' rest
              (mkParse (Some g) (ps_sel_id st) (ps_classes st)
                 (ps_attr_name st) (ps_attr_value st) (ps_attr_op st))
        | None => Ok st
        end
  end.

(** [_parse_selector] *)
Definition _parse_selector (selector : str) : outcome _Selector :=
  let selector := strip selector in
  st ← parse_loop (length selector) selector
         (mkParse None None [] None None None);
  Ok (mkSelector (ps_tag st) (ps_sel_id st)
        (match ps_classes st with [] => None | cs => Some cs end)
        (ps_attr_name st) (ps_attr_value st) (ps_attr_op st)).

End Selectors.

(** ** bs4: traversal and serialization *)

(** [html.escape(value, quote=True)] *)
Definition escape_char (c : char) : str :=
  if N.eqb c 38 then py "&amp;"
  else if N.eqb c 60 then py "&lt;"
  else if N.eqb c 62 then py "&gt;"
  else if N.eqb c 34 then py "&quot;"
  else if N.eqb c 39 then py "&#x27;"
  else [c].

Definition html_escape (value : str) : str := concat (map escape_char value).

(** The attribute part of [_Node.render]. *)
Definition render_attrs (d : dict) : str :=
  concat (map (fun kv => py " " ++ fst kv ++ py "=" ++ [34%N]
                           ++ html_escape (snd kv) ++ [34%N]) d).

(** The body of [_Node.render], given what [self.render_contents()] does. *)
Definition render_with (contents : node_id -> outcome str) (a : arena)
    (node : node_id) : outcome str :=
  let nd := a !!! node in
  let ats := render_attrs (attrs nd) in
  if is_void (name nd) then Ok (py "<" ++ name nd ++ ats ++ py ">")
  else
    inner ← contents node;
    Ok (py "<" ++ name nd ++ ats ++ py ">" ++ inner ++ py "</" ++ name nd ++ py ">").

(** The loop [for child in self.children] that joins the string of every
    child: [on_node] for a node, the text itself for a text. *)
Fixpoint join_children (on_node : node_id -> outcome str) (cs : list child)
  : outcome str :=
  match cs with
  | [] => Ok []
  | ChildNode c :: r =>
      s ← on_node c; t ← join_children on_node r; Ok (s ++ t)
  | ChildText s :: r => t ← join_children on_node r; Ok (s ++ t)
  end.

(** [_Node.render_contents]; one unit of fuel per level of the tree. *)
Fixpoint render_contents_fuel (fuel : nat) (a : arena) (node : node_id)
  : outcome str :=
  match fuel with
  | O => Diverge
  | S fuel' =>
      join_children (render_with (render_contents_fuel fuel' a) a)
        (children (a !!! node))
  end.

Definition render_contents (a : arena) (node : node_id) : outcome str :=
  render_contents_fuel (length a) a node.

(** [_Node.render] *)
Definition render (a : arena) (node : node_id) : outcome str :=
  render_with (render_contents a) a node.

(** [_Node.text_content] *)
Fixpoint text_content_fuel (fuel : nat) (a : arena) (node : node_id)
  : outcome str :=
  match fuel with
  | O => Diverge
  | S fuel' =>
      join_children (text_content_fuel fuel' a) (children (a !!! node))
  end.

Definition text_content (a : arena) (node : node_id) : outcome str :=
  text_content_fuel (length a) a node.

(** The loop [for child in node.children] of [_iter_nodes]: what
    [_iter_nodes(child, include_self=True)] yields for every node child,
    in order. *)
Fixpoint iter_children (on_node : node_id -> outcome (list node_id))
    (cs : list child) : outcome (list node_id) :=
  match cs with
  | [] => Ok []
  | ChildNode c :: r =>
      l ← on_node c; m ← iter_children on_node r; Ok (l ++ m)
  | ChildText _ :: r => iter_children on_node r
  end.

(** [list(_iter_nodes(node, include_self))] *)
Fixpoint _iter_nodes_fuel (fuel : nat) (a : arena) (node : node_id)
    (include_self : bool) : outcome (list node_id) :=
  match fuel with
  | O => Diverge
  | S fuel' =>
      below ← iter_children (fun c => _iter_nodes_fuel fuel' a c true)
                (children (a !!! node));
      Ok ((if include_self && negb (str_eqb (name (a !!! node)) ROOT_NAME)
           then [node] else []) ++ below)
  end.

Definition _iter_nodes (a : arena) (node : node_id) (include_self : bool)
  : outcome (list node_id) :=
  _iter_nodes_fuel (length a) a node include_self.

(** ** bs4: the query API *)

(** The two facades; a [Tag] in a result list is given by its node. *)
Inductive _SoupMixin :=
| BeautifulSoup (node : node_id)
| Tag (node : node_id).

Definition _node (self : _SoupMixin) : node_id :=
  match self with BeautifulSoup n => n | Tag n => n end.

Definition is_BeautifulSoup (self : _SoupMixin) : bool :=
  match self with BeautifulSoup _ => true | Tag _ => false end.

(** [NameArg]: absent, a tag name, or a callable on a [Tag]; the callable
    gives the truth value of what it returns, or raises. *)
Inductive NameArg :=
| NameNone
| NameStr (s : str)
| NameCallable (f : node_id -> outcome bool).

(** A value of the [attrs] mapping: a literal ([None] or a string), or a
    callable on the attribute value. *)
Inductive AttrExpected :=
| ExpectedValue (v : option str)
| ExpectedCallable (f : option str -> outcome bool).

Abbreviation AttrsArg := (option (list (list N * AttrExpected))) (only parsing).

Section Queries.

Context `{Runtime}.

(** [_match_name] *)
Definition _match_name (a : arena) (node : node_id) (nm : NameArg)
  : outcome bool :=
  match nm with
  | NameNone => Ok true
  | NameCallable f => try_except (f node) (Ok false)
  | NameStr s => Ok (str_eqb (lower (name (a !!! node))) (lower s))
  end.

(** The [for key, expected in attrs.items()] loop of [_match_attrs]. *)
Fixpoint match_attrs_items (d : dict) (items : list (str * AttrExpected))
  : outcome bool :=
  match items with
  | [] => Ok true
  | (key, expected) :: rest =>
      let value := dict_get d key in
      match expected with
      | ExpectedCallable f =>
          passed ← try_except (f value) (Ok false);
          if negb passed then Ok false else match_attrs_items d rest
      | ExpectedValue v =>
          if negb (bool_decide (value = v)) then Ok false
          else match_attrs_items d rest
      end
  end.

(** [_match_attrs] *)
Definition _match_attrs (a : arena) (node : node_id) (ats : AttrsArg)
  : outcome bool :=
  match ats with
  | None | Some [] => Ok true
  | Some items => match_attrs_items (attrs (a !!! node)) items
  end.

(** The loop of [find_all] over the iterator. *)
Fixpoint find_all_loop (a : arena) (it : list node_id) (nm : NameArg)
    (ats : AttrsArg) : outcome (list node_id) :=
  match it with
  | [] => Ok []
  | node :: rest =>
      m1 ← _match_name a node nm;
      m2 ← (if m1 : bool then _match_attrs a node ats else Ok false);
      found ← find_all_loop a rest nm ats;
      Ok (if m2 : bool then node :: found else found)
  end.

(** [find_all], of [_SoupMixin] and of [BeautifulSoup]. *)
Definition find_all (a : arena) (self : _SoupMixin) (nm : NameArg)
    (ats : AttrsArg) : outcome (list node_id) :=
  it ← _iter_nodes a (_node self) false;
  find_all_loop a it nm ats.

(** [find] *)
Definition find (a : arena) (self : _SoupMixin) (nm : NameArg)
    (ats : AttrsArg) : outcome (option node_id) :=
  found ← find_all a self nm ats;
  Ok (head found).

(** The inner loop of [select]: one selector over the iterator;
    [seen] holds the identities already in [results]. *)
Fixpoint select_nodes (a : arena) (parsed : _Selector) (it : list node_id)
    (seen : gset node_id) (results : list node_id)
  : gset node_id * list node_id :=
  match it with
  | [] => (seen, results)
  | node :: rest =>
      if bool_decide (node ∈ seen) then select_nodes a parsed rest seen results
      else if matches parsed (a !!! node)
      then select_nodes a parsed rest ({[node]} ∪ seen) (results ++ [node])
      else select_nodes a parsed rest seen results
  end.

(** The outer loop of [select]. *)
Fixpoint select_loop (a : arena) (selectors : list str) (it : list node_id)
    (seen : gset node_id) (results : list node_id) : outcome (list node_id) :=
  match selectors with
  | [] => Ok results
  | selector_item :: rest =>
      parsed ← _parse_selector selector_item;
      let '(seen, results) := select_nodes a parsed it seen results in
      select_loop a rest it seen results
  end.

(** [[part.strip() for part in selector.split(",") if part.strip()]] *)
Definition selector_parts (selector : str) : list str :=
  omap (fun part => if truthy (strip part) then Some (strip part) else None)
    (split_on 44%N selector).

(** [select] *)
Definition select (a : arena) (self : _SoupMixin) (selector : str)
  : outcome (list node_id) :=
  let selectors := selector_parts selector in
  it ← _iter_nodes a (_node self) (is_BeautifulSoup self);
  select_loop a selectors it ∅ [].

(** [select_one] *)
Definition select_one (a : arena) (self : _SoupMixin) (selector : str)
  : outcome (option node_id) :=
  found ← select a self selector; Ok (head found).

(** [get_text] *)
Definition get_text (a : arena) (self : _SoupMixin) (strip_it : bool)
  : outcome str :=
  text ← text_content a (_node self);
  Ok (if strip_it then strip text else text).

(** [decode_contents] *)
Definition decode_contents (a : arena) (self : _SoupMixin) : outcome str :=
  render_contents a (_node self).

End Queries.

(** ** bs4: the Tag facade *)

(** A reference to a dict object: the one a node holds in its [attrs]
    slot, or one made later by a caller. *)
Inductive dict_ref :=
| NodeAttrs (node : node_id)
| Allocated (k : nat).

(** The objects of a program that uses a document: the nodes, and the
    dicts made since. *)
Record Heap := mkHeap {
  tree : arena;
  dicts : list dict
}.

(** The dict an reference points to. *)
Definition deref (h : Heap) (r : dict_ref) : dict :=
  match r with
  | NodeAttrs n => attrs (tree h !!! n)
  | Allocated k => default [] (dicts h !! k)
  end.

(** [dict(d)]: a new dict object with the items of [d]. *)
Definition dict_copy (h : Heap) (d : dict) : dict_ref * Heap :=
  (Allocated (length (dicts h)), mkHeap (tree h) (dicts h ++ [d])).

(** An in-place change of the dict object behind [r] ([r[k] = v],
    [del r[k]], [r.clear()], [r.update(...)], ...). *)
Definition mutate (h : Heap) (r : dict_ref) (change : dict -> dict) : Heap :=
  match r with
  | NodeAttrs n =>
      mkHeap
        (alter (fun nd => mkNode (name nd) (change (attrs nd)) (children nd) (parent nd))
           n (tree h))
        (dicts h)
  | Allocated k => mkHeap (tree h) (alter change k (dicts h))
  end.

(** [Tag.attrs] *)
Definition Tag_attrs (h : Heap) (self : node_id) : dict_ref * Heap :=
  dict_copy h (deref h (NodeAttrs self)).

(** [Tag.name] *)
Definition Tag_name (a : arena) (self : node_id) : str := name (a !!! self).

(** [Tag.has_attr] *)
Definition has_attr (a : arena) (self : node_id) (key : str) : bool :=
  dict_has (attrs (a !!! self)) key.

(** [Tag.__getitem__]; a missing key raises [KeyError]. *)
Definition Tag_getitem (a : arena) (self : node_id) (key : str) : outcome str :=
  match dict_get (attrs (a !!! self)) key with
  | Some v => Ok v
  | None => Raise (OtherException "KeyError")
  end.

(** [Tag.get] with the default [None]. *)
Definition Tag_get (a : arena) (self : node_id) (key : str) : option str :=
  dict_get (attrs (a !!! self)) key.

(** What [next_sibling] returns when it is not [None]. *)
Inductive sibling :=
| SiblingTag (node : node_id)
| SiblingText (s : str).

(** [siblings.index(self._node)] *)
Fixpoint index_of (siblings : list child) (node : node_id) : option nat :=
  match siblings with
  | [] => None
  | ChildNode c :: r =>
      if bool_decide (c = node) then Some O else S <$> index_of r node
  | ChildText _ :: r => S <$> index_of r node
  end.

(** The [for sibling in siblings[index + 1:]] loop. *)
Fixpoint first_sibling (siblings : list child) : option sibling :=
  match siblings with
  | [] => None
  | ChildNode c :: _ => Some (SiblingTag c)
  | ChildText s :: r =>
      if truthy (strip s) then Some (SiblingText s) else first_sibling r
  end.

(** [Tag.next_sibling] *)
Definition next_sibling (a : arena) (self : node_id) : option sibling :=
  match parent (a !!! self) with
  | None => None
  | Some p =>
      let siblings := children (a !!! p) in
      match index_of siblings self with
      | None => None
      | Some index => first_sibling (drop (index + 1) siblings)
      end
  end.

(** ** kpi1_extract.py *)

(** [s.endswith(p)] *)
Definition endswith (s p : str) : bool := startswith (rev s) (rev p).

(** [x or y] on [Optional[str]] *)
Definition or_else (x y : option str) : option str :=
  if truthy_opt x then x else y.

(** The labels [送料] and [Shipping]. *)
Definition shipping_labels : list str :=
  [[36865%N; 26009%N]; py "Shipping"].

(** What [fetch_html] does for a URL: a parsed document, or [FetchError]. *)
Inductive fetched :=
| Fetched (soup : arena)
| FetchError.

Record Listing := mkListing {
  title : str;
  price : str;
  shipping : str;
  photos : list str;
  description_html : str
}.

Section Extract.

Context `{Runtime}.

(** [_extract_title] *)
Definition _extract_title (a : arena) (soup : _SoupMixin) : outcome str :=
  t ← find a soup (NameStr (py "h1")) None;
  t ← match t with
      | Some _ => Ok t
      | None => find a soup (NameStr (py "title")) None
      end;
  match t with
  | Some n => text ← get_text a (Tag n) false; Ok (clean_text (Some text))
  | None => Ok (clean_text None)
  end.

(** [lambda c: c and "Price" in c] *)
Definition has_Price (c : option str) : outcome bool :=
  Ok (match c with
      | Some s => truthy s && contains s (py "Price")
      | None => false
      end).

(** The [candidates] of [_extract_price]. *)
Definition price_candidates : list (NameArg * AttrsArg) :=
  [ (NameStr (py "span"), Some [(py "itemprop", ExpectedValue (Some (py "price")))]);
    (NameStr (py "span"), Some [(py "class", ExpectedCallable has_Price)]);
    (NameStr (py "div"), Some [(py "class", ExpectedCallable has_Price)]) ].

(** [_extract_price] *)
Fixpoint extract_price_loop (a : arena) (soup : _SoupMixin)
    (candidates : list (NameArg * AttrsArg)) : outcome str :=
  match candidates with
  | [] => Ok UNKNOWN
  | (nm, ats) :: rest =>
      node ← find a soup nm ats;
      match node with
      | Some n => text ← get_text a (Tag n) false; Ok (clean_text (Some text))
      | None => extract_price_loop a soup rest
      end
  end.

Definition _extract_price (a : arena) (soup : _SoupMixin) : outcome str :=
  extract_price_loop a soup price_candidates.

(** [lambda tag: isinstance(tag, Tag) and tag.get_text(strip=True) == label] *)
Definition text_is (a : arena) (label : str) (tag : node_id) : outcome bool :=
  text ← get_text a (Tag tag) true; Ok (str_eqb text label).

(** The [for label in labels] loop of [_extract_shipping]; [None] when it
    ends without a [return]. *)
Fixpoint shipping_by_label (a : arena) (soup : _SoupMixin) (labels : list str)
  : outcome (option str) :=
  match labels with
  | [] => Ok None
  | label :: rest =>
      cell ← find a soup (NameCallable (text_is a label)) None;
      match cell with
      | Some c =>
          match next_sibling a c with
          | Some (SiblingTag n) =>
              text ← get_text a (Tag n) false; Ok (Some (clean_text (Some text)))
          | Some (SiblingText s) => Ok (Some (clean_text (Some s)))
          | None => shipping_by_label a soup rest
          end
      | None => shipping_by_label a soup rest
      end
  end.

(** The [for node in candidates] loop of [_extract_shipping]. *)
Fixpoint shipping_by_selector (a : arena) (candidates : list node_id)
  : outcome str :=
  match candidates with
  | [] => Ok UNKNOWN
  | node :: rest =>
      t ← get_text a (Tag node) false;
      let text := clean_text (Some t) in
      if negb (is_unknown text) then Ok text else shipping_by_selector a rest
  end.

(** [_extract_shipping] *)
Definition _extract_shipping (a : arena) (soup : _SoupMixin) : outcome str :=
  r ← shipping_by_label a soup shipping_labels;
  match r with
  | Some text => Ok text
  | None =>
      candidates ← select a soup (py ".ProductDetail__shipping, .Shipping__value");
      shipping_by_selector a candidates
  end.

(** [_extract_description] *)
Fixpoint extract_description_loop (a : arena) (soup : _SoupMixin)
    (candidates : list str) : outcome str :=
  match candidates with
  | [] => Ok UNKNOWN
  | selector :: rest =>
      node ← select_one a soup selector;
      match node with
      | Some n => decode_contents a (Tag n)
      | None => extract_description_loop a soup rest
      end
  end.

Definition _extract_description (a : arena) (soup : _SoupMixin) : outcome str :=
  extract_description_loop a soup
    [py "#ProductExplanation"; py "#ProductDescription"; py ".ProductExplanation";
     py "section[itemprop='description']"; py "div[class*='Description']"].

(** [_ensure_absolute_url] *)
Definition _ensure_absolute_url (a : arena) (src : str) (soup : _SoupMixin)
  : outcome str :=
  if startswith src (py "http") then Ok src else
  base_tag ← find a soup (NameStr (py "base")) None;
  base_url ← match base_tag with
             | Some b => if has_attr a b (py "href")
                         then Tag_getitem a b (py "href") else Ok []
             | None => Ok []
             end;
  let base_url :=
    if truthy base_url && negb (endswith base_url (py "/"))
    then base_url ++ py "/" else base_url in
  Ok (if truthy base_url then base_url ++ lstrip_by (one_of (py "./")) src
      else src).

(** The [for img in container.find_all("img")] loop of [_extract_photos]. *)
Fixpoint gallery_photos (a : arena) (soup : _SoupMixin) (imgs : list node_id)
    (photos : list str) : outcome (list str) :=
  match imgs with
  | [] => Ok photos
  | img :: rest =>
      let src := or_else (or_else (Tag_get a img (py "src"))
                            (Tag_get a img (py "data-src")))
                   (Tag_get a img (py "data-lazy")) in
      if negb (truthy_opt src) then gallery_photos a soup rest photos
      else
        url ← _ensure_absolute_url a (or_empty src) soup;
        gallery_photos a soup rest (photos ++ [url])
  end.

(** The [for selector in gallery_selectors] loop. *)
Fixpoint gallery_loop (a : arena) (soup : _SoupMixin) (selectors : list str)
    (photos : list str) : outcome (list str) :=
  match selectors with
  | [] => Ok photos
  | selector :: rest =>
      container ← select_one a soup selector;
      match container with
      | None => gallery_loop a soup rest photos
      | Some c =>
          imgs ← find_all a (Tag c) (NameStr (py "img")) None;
          photos ← gallery_photos a soup imgs photos;
          match photos with
          | _ :: _ => Ok photos
          | [] => gallery_loop a soup rest photos
          end
      end
  end.

(** The fallback loop over [soup.find_all("img")]. *)
Fixpoint fallback_photos (a : arena) (soup : _SoupMixin) (imgs : list node_id)
    (photos : list str) : outcome (list str) :=
  match imgs with
  | [] => Ok photos
  | img :: rest =>
      let src := Tag_get a img (py "src") in
      photos ← (if truthy_opt src
                then url ← _ensure_absolute_url a (or_empty src) soup;
                     Ok (photos ++ [url])
                else Ok photos);
      if bool_decide (3 <= length photos)%nat then Ok photos
      else fallback_photos a soup rest photos
  end.

(** [_extract_photos] *)
Definition _extract_photos (a : arena) (soup : _SoupMixin)
  : outcome (list str) :=
  photos ← gallery_loop a soup
             [py "#ProductPhoto"; py "#ProductImage"; py ".ProductImage";
              py "div[class*='Image']"] [];
  match photos with
  | _ :: _ => Ok photos
  | [] =>
      imgs ← find_all a soup (NameStr (py "img")) None;
      fallback_photos a soup imgs photos
  end.

(** [extract_listing]; [fetch_html] is the fetch collaborator. *)
Definition extract_listing (fetch_html : str -> fetched) (url : str)
  : outcome Listing :=
  match fetch_html url with
  | FetchError => Ok (mkListing UNKNOWN UNKNOWN UNKNOWN [] UNKNOWN)
  | Fetched a =>
      let soup := BeautifulSoup ROOT in
      t ← _extract_title a soup;
      p ← _extract_price a soup;
      s ← _extract_shipping a soup;
      ph ← _extract_photos a soup;
      d ← _extract_description a soup;
      Ok (mkListing t p s ph d)
  end.

End Extract.

(** ** A runtime for the examples

    The standard library on ASCII text: the case map of the ASCII
    letters, the ASCII word characters, four entries of
    [name2codepoint], [int] on plain digit strings, and [chr] on the
    code points. *)

Definition ascii_lower_char (c : char) : char :=
  if ((65 <=? c) && (c <=? 90))%N then (c + 32)%N else c.

Definition ascii_lower (s : str) : str := map ascii_lower_char s.

Definition ascii_is_word (c : char) : bool :=
  (((97 <=? c) && (c <=? 122)) || ((65 <=? c) && (c <=? 90))
   || ((48 <=? c) && (c <=? 57)) || (c =? 95))%N.

Definition core_entities (nm : str) : option N :=
  if str_eqb nm (py "lt") then Some 60%N
  else if str_eqb nm (py "gt") then Some 62%N
  else if str_eqb nm (py "amp") then Some 38%N
  else if str_eqb nm (py "quot") then Some 34%N
  else None.

Definition digit_value (c : char) : option N :=
  if ((48 <=? c) && (c <=? 57))%N then Some (c - 48)%N
  else if ((97 <=? c) && (c <=? 102))%N then Some (c - 87)%N
  else if ((65 <=? c) && (c <=? 70))%N then Some (c - 55)%N
  else None.

Fixpoint digits_value (base acc : N) (s : str) : option N :=
  match s with
  | [] => Some acc
  | c :: r =>
      match digit_value c with
      | Some d => if (d <? base)%N then digits_value base (acc * base + d)%N r else None
      | None => None
      end
  end.

Definition ascii_int (s : str) (base : N) : option Z :=
  match s with
  | [] => None
  | _ => Z.of_N <$> digits_value base 0%N s
  end.

Definition ascii_chr (z : Z) : outcome char :=
  if ((0 <=? z) && (z <=? 1114111))%Z then Ok (Z.to_N z) else Raise ValueError.

Definition ascii_runtime : Runtime :=
  Build_Runtime ascii_lower ascii_is_word core_entities ascii_int ascii_chr.

(** ** Sample documents *)

(** The events of [<div><p class="a">x</p><span>y</span></div>]. *)
Definition sample_events : list event :=
  [Starttag (py "div") [];
   Starttag (py "p") [(py "class", Some (py "a"))]; Data (py "x"); Endtag (py "p");
   Starttag (py "span") []; Data (py "y"); Endtag (py "span");
   Endtag (py "div")].

(** The document they build. *)
Definition sample_arena : arena :=
  Eval vm_compute in
    match build (H := ascii_runtime) sample_events with Ok a => a | _ => [] end.

(** A fetch that gives the sample document for every URL. *)
Definition sample_fetch (url : str) : fetched := Fetched sample_arena.

(** A predicate that raises on every tag. *)
Definition raising_predicate (tag : node_id) : outcome bool :=
  Raise (OtherException "ZeroDivisionError").

(** The events of [<p>&lt;b&gt;x</p>], and of [<b>x], the contents of its
    [p] as [decode_contents] gives them. *)
Definition escaped_events : list event :=
  [Starttag (py "p") []; Entityref (py "lt"); Data (py "b"); Entityref (py "gt");
   Data (py "x"); Endtag (py "p")].

Definition reparsed_events : list event :=
  [Starttag (py "b") []; Data (py "x")].

Definition escaped_arena : arena :=
  Eval vm_compute in
    match build (H := ascii_runtime) escaped_events with Ok a => a | _ => [] end.

Definition reparsed_arena : arena :=
  Eval vm_compute in
    match build (H := ascii_runtime) reparsed_events with Ok a => a | _ => [] end.

(** * The vocabulary of the properties *)

(** ** Cleaned texts *)

Definition nonspace (c : char) : Prop := is_space c = false.

(** A token of [split]: not empty, no whitespace in it. *)
Definition token (t : str) : Prop := t <> [] /\ Forall nonspace t.

(** Tokens joined by single spaces. *)
Inductive spaced : str -> Prop :=
| spaced_one t : token t -> spaced t
| spaced_more t r : token t -> spaced r -> spaced (t ++ py " " ++ r).

(** The shape of a cleaned text, character by character: it is not empty,
    it neither starts nor ends with whitespace, and each whitespace
    character in it is one U+0020 followed by a character that is not
    whitespace. *)
Definition normalized (r : str) : Prop :=
  r <> [] /\
  (forall c, head r = Some c -> nonspace c) /\
  (forall c, last r = Some c -> nonspace c) /\
  (forall (i : nat) c, r !! i = Some c -> is_space c = true ->
     c = 32%N /\ exists d, r !! S i = Some d /\ nonspace d).

(** ** Titles *)

(** The seven fields [generate_title] reads. *)
Definition spec_fields : list str :=
  map py ["brand"; "model"; "inch"; "width"; "holes"; "pcd"; "offset"]%string.

(** A field that carries nothing: missing, empty, or the placeholder. *)
Definition carries_nothing (v : option str) : Prop :=
  v = None \/ v = Some [] \/ v = Some UNKNOWN.

(** The components of a title in the order of the specification, each
    kept when its (cleaned) field is not the placeholder; [width_suffix]
    is what follows the width. *)
Definition title_components (specs : specs_arg) (width_suffix : str) : list str :=
  let field key := clean_text (specs_get specs key) in
  omap (fun vp : str * str => if is_unknown (fst vp) then None else Some (snd vp))
    [ (field (py "brand"), field (py "brand"));
      (field (py "model"), field (py "model"));
      (field (py "inch"), field (py "inch"));
      (field (py "width"), field (py "width") ++ width_suffix);
      (field (py "holes"), field (py "holes") ++ py "H");
      (field (py "pcd"), py "PCD" ++ field (py "pcd"));
      (field (py "offset"), py "OFFSET" ++ field (py "offset")) ].

(** ** Pattern extraction *)

(** [groups[0]] when a group is not empty, else [match.group(0)]. *)
Definition first_group_or_match (m : Match) : str :=
  default (group0 m) (head (nonempty_groups m)).

(** ** Selectors *)

(** [w] occurs in [v]. *)
Definition substring (w v : str) : Prop :=
  exists pre post, v = pre ++ w ++ post.

Section SelectorClauses.

Context `{Runtime}.

Variable self : _Selector.
Variable node : Node.

(** A clause is present when its field holds a non-empty value. *)
Definition tag_clause : Prop :=
  forall t, sel_tag self = Some t -> t <> [] ->
    lower (name node) = lower t.

Definition id_clause : Prop :=
  forall i, sel_id self = Some i -> i <> [] ->
    dict_get (attrs node) (py "id") = Some i.

Definition class_clause : Prop :=
  forall cs c, sel_classes self = Some cs -> c ∈ cs ->
    c ∈ split (default [] (dict_get (attrs node) (py "class"))).

Definition attr_clause : Prop :=
  forall n, sel_attr_name self = Some n -> n <> [] ->
    exists v, dict_get (attrs node) n = Some v
      /\ (sel_attr_op self = Some (py "=") -> v = or_empty (sel_attr_value self))
      /\ (sel_attr_op self = Some (py "*=") ->
          forall w, sel_attr_value self = Some w -> substring w v).

(** The node is not the synthetic root and satisfies every present
    clause. *)
Definition satisfies : Prop :=
  name node <> ROOT_NAME
  /\ tag_clause /\ id_clause /\ class_clause /\ attr_clause.

End SelectorClauses.

(** The selector without constraints. *)
Definition no_constraint : _Selector := mkSelector None None None None None None.

(** ** Attribute copies *)

(** A caller changing, through the reference [r], the dict it got. *)
Definition mutate_all (h : Heap) (r : dict_ref) (changes : list (dict -> dict))
  : Heap :=
  foldl (fun h change => mutate h r change) h changes.

(** ** Trees *)

(** The element children among the children of a node. *)
Definition child_ids (cs : list child) : list node_id :=
  omap (fun c => match c with ChildNode n => Some n | ChildText _ => None end) cs.

(** The arena is a tree rooted at [ROOT]: the root has no parent; every
    other node has a parent made before it; a node listed among the
    children of [i] was made after [i], has [i] as its parent, and is
    listed once. *)
Definition tree_ok (a : arena) : Prop :=
  (0 < length a)%nat
  /\ parent (a !!! ROOT) = None
  /\ (forall i : nat, (0 < i < length a)%nat ->
        exists p : nat, parent (a !!! i) = Some p /\ (p < i)%nat)
  /\ (forall i c : nat, (i < length a)%nat ->
        c ∈ child_ids (children (a !!! i)) ->
        (i < c < length a)%nat /\ parent (a !!! c) = Some i)
  /\ (forall i : nat, (i < length a)%nat -> NoDup (child_ids (children (a !!! i)))).

(** The builder keeps a tree and a cursor in it. *)
Definition builder_ok (b : Builder) : Prop :=
  tree_ok (nodes b) /\ (current b < length (nodes b))%nat.

(** The open elements at a cursor: the cursor and its ancestors, nearest
    first, up to the root and without it. *)
Inductive open_elements (a : arena) : node_id -> list node_id -> Prop :=
| open_root : open_elements a ROOT []
| open_step n p l :
    n <> ROOT -> parent (a !!! n) = Some p -> open_elements a p l ->
    open_elements a n (n :: l).

(** [x] is [n] or a descendant of [n]: the parents of [x] lead to [n]. *)
Inductive reach (a : arena) : node_id -> node_id -> Prop :=
| reach_here x : reach a x x
| reach_up x p n : parent (a !!! x) = Some p -> reach a p n -> reach a x n.

(** ** Selector lists *)

Section SelectorLists.

Context `{Runtime}.

(** The compound selectors of a selector list, parsed in order. *)
Definition compound_selectors (selector : str) (sels : list _Selector) : Prop :=
  Forall2 (fun part sel => _parse_selector part = Ok sel)
    (selector_parts selector) sels.

(** The nodes of [it], in the order of [it], that [sel] matches and that
    no selector of [earlier] matches. *)
Definition matched_first_by (a : arena) (earlier : list _Selector)
    (sel : _Selector) (it : list node_id) : list node_id :=
  filter (fun n => matches sel (a !!! n) = true
                   /\ Forall (fun s => matches s (a !!! n) = false) earlier) it.

(** The union group by group: what the first selector matches, then
    what each later selector is the first to match. *)
Fixpoint union_in_order (a : arena) (earlier sels : list _Selector)
    (it : list node_id) : list node_id :=
  match sels with
  | [] => []
  | sel :: rest =>
      matched_first_by a earlier sel it
      ++ union_in_order a (earlier ++ [sel]) rest it
  end.

End SelectorLists.

(** ** Filters *)

(** What a filter makes of a callback: the truth value it returned, and
    no match when it raised. *)
Definition passes (o : outcome bool) : bool :=
  match o with Ok b => b | _ => false end.

(** The callbacks of a filter come back: they return or they raise. *)
Definition callbacks_come_back (nm : NameArg) (ats : AttrsArg) : Prop :=
  (forall f, nm = NameCallable f -> forall n, f n <> Diverge)
  /\ (forall items key f, ats = Some items ->
        (key, ExpectedCallable f) ∈ items -> forall v, f v <> Diverge).

Section Filters.

Context `{Runtime}.

(** The node passes the [name] filter. *)
Definition name_passes (a : arena) (nm : NameArg) (node : node_id) : bool :=
  match nm with
  | NameNone => true
  | NameStr s => str_eqb (lower (name (a !!! node))) (lower s)
  | NameCallable f => passes (f node)
  end.

(** The node passes every clause of the [attrs] filter. *)
Definition attrs_pass (a : arena) (ats : AttrsArg) (node : node_id) : bool :=
  match ats with
  | None => true
  | Some items =>
      forallb
        (fun item : str * AttrExpected =>
           let value := dict_get (attrs (a !!! node)) (fst item) in
           match snd item with
           | ExpectedValue v => bool_decide (value = v)
           | ExpectedCallable f => passes (f value)
           end)
        items
  end.

End Filters.

(** ** Listings *)

(** A text field of a listing: the placeholder, or a normalized text. *)
Definition cleaned (r : str) : Prop := r = UNKNOWN \/ normalized r.

(** * More of the code *)

(** ** kpi2_parse_specs.py *)

(** The words of the patterns that are not ASCII: [メーカー], [モデル],
    [インチ], [穴], [オフセット], and the full-width colon. *)
Definition MAKER_JA : str := [12513%N; 12540%N; 12459%N; 12540%N].
Definition MODEL_JA : str := [12514%N; 12487%N; 12523%N].
Definition INCH_JA : str := [12452%N; 12531%N; 12481%N].
Definition HOLE_JA : str := [31348%N].
Definition OFFSET_JA : str := [12458%N; 12501%N; 12475%N; 12483%N; 12488%N].
Definition WIDE_COLON : str := [65306%N].

Definition BRAND_PATTERNS : list str :=
  [ py "(?:" ++ MAKER_JA ++ py "|brand)[:" ++ WIDE_COLON ++ py "\s]*([A-Za-z0-9\- ]{2,})";
    py "\b(ENKEI|BBS|RAYS|WORK|WEDS)\b" ].

Definition MODEL_PATTERNS : list str :=
  [ py "(?:" ++ MODEL_JA ++ py "|model)[:" ++ WIDE_COLON ++ py "\s]*([A-Za-z0-9\- ]{2,})";
    py "\b(TE37|CE28|G25|LM|VS-?XX)\b" ].

Definition INCH_PATTERNS : list str :=
  [ py "(1[4-9]|2[0-4])\s?" ++ INCH_JA;
    py "(1[4-9]|2[0-4])\s?inch";
    py "(1[4-9]|2[0-4])\s?" ++ [92%N; 34%N] ].

Definition WIDTH_PATTERNS : list str :=
  [ py "(\d{1,2}\.\d)J"; py "(\d{1,2})J" ].

Definition HOLE_PATTERNS : list str :=
  [ py "(\d{1,2})H"; py "(\d{1,2})" ++ HOLE_JA ].

Definition PCD_PATTERNS : list str :=
  [ py "PCD[:" ++ WIDE_COLON ++ py "\s]*(\d{2,3}\.\d)";
    py "PCD[:" ++ WIDE_COLON ++ py "\s]*(\d{2,3})";
    py "(\d{3}\.\d)\s?PCD" ].

Definition OFFSET_PATTERNS : list str :=
  [ py "ET[:" ++ WIDE_COLON ++ py "\s]*([+-]?\d{1,2})";
    OFFSET_JA ++ py "[:" ++ WIDE_COLON ++ py "\s]*([+-]?\d{1,2})";
    py "(?:OFFSET|" ++ OFFSET_JA ++ py ")[^\d]*([+-]?\d{1,2})" ].

(** [_combine_text] *)
Definition _combine_text (title description_html : str) : str :=
  let parts := [title; description_html] in
  join [10%N] (filter (fun part => truthy part = true) parts).

(** The argument of [parse_specs]: a dict with string values, or any
    other object. *)
Inductive data_arg :=
| DataDict (d : dict)
| DataOther.

Section ParseSpecs.

Variable re_search : str -> str -> re_flag -> option Match.

(** The text [parse_specs] searches. *)
Definition text_blob (data : data_arg) : str :=
  let title :=
    clean_text (match data with
                | DataDict d => dict_get d (py "title")
                | DataOther => None
                end) in
  let description :=
    clean_text (match data with
                | DataDict d => Some (default [] (dict_get d (py "description_html")))
                | DataOther => None
                end) in
  _combine_text title description.

(** [parse_specs] *)
Definition parse_specs (data : data_arg) : dict :=
  let text_blob := text_blob data in
  let brand := run_regexes re_search text_blob BRAND_PATTERNS in
  let model := run_regexes re_search text_blob MODEL_PATTERNS in
  let inch := run_regexes re_search text_blob INCH_PATTERNS in
  let width := run_regexes re_search text_blob WIDTH_PATTERNS in
  let holes := run_regexes re_search text_blob HOLE_PATTERNS in
  let pcd := run_regexes re_search text_blob PCD_PATTERNS in
  let offset := run_regexes re_search text_blob OFFSET_PATTERNS in
  [ (py "brand", brand); (py "model", model); (py "inch", inch);
    (py "width", width); (py "holes", holes); (py "pcd", pcd);
    (py "offset", offset) ].

End ParseSpecs.

(** ** bs4: what a document holds *)

(** An element or a text run met on a walk of the tree. *)
Inductive item :=
| ItemNode (n : node_id)
| ItemText (s : str).

(** The walk of the children of a node, in order: each element, what
    [on_node] gives below it, and each text run. *)
Fixpoint items_children (on_node : node_id -> outcome (list item))
    (cs : list child) : outcome (list item) :=
  match cs with
  | [] => Ok []
  | ChildNode c :: r =>
      l ← on_node c; m ← items_children on_node r; Ok (ItemNode c :: l ++ m)
  | ChildText s :: r => m ← items_children on_node r; Ok (ItemText s :: m)
  end.

(** The elements and the text runs below a node, depth first, a parent
    before its children, the children from left to right. *)
Fixpoint items_fuel (fuel : nat) (a : arena) (node : node_id)
  : outcome (list item) :=
  match fuel with
  | O => Diverge
  | S fuel' => items_children (items_fuel fuel' a) (children (a !!! node))
  end.

Definition item_nodes (l : list item) : list node_id :=
  omap (fun i => match i with ItemNode n => Some n | ItemText _ => None end) l.

Definition item_texts (l : list item) : list str :=
  omap (fun i => match i with ItemText s => Some s | ItemNode _ => None end) l.

(** The cursor is on the right edge of the tree: it and each of its
    ancestors is the last child of its parent. *)
Definition spine (a : arena) (cur : node_id) : Prop :=
  forall n p, reach a cur n -> parent (a !!! n) = Some p ->
    last (children (a !!! p)) = Some (ChildNode n).

(** Every node but the root is among the children of its parent. *)
Definition listed (a : arena) : Prop :=
  forall n : nat, (0 < n < length a)%nat ->
    exists p, parent (a !!! n) = Some p /\ n ∈ child_ids (children (a !!! p)).

(** [a'] is [a] with [c] appended to the children of [cur]; nodes made
    since are beyond [a]. *)
Definition grows (a a' : arena) (cur : node_id) (c : child) : Prop :=
  forall j, (j < length a)%nat ->
    children (a' !!! j)
    = if decide (j = cur) then children (a !!! j) ++ [c] else children (a !!! j).

(** A text child that [next_sibling] passes over. *)
Definition blank_text (c : child) : Prop :=
  exists s, c = ChildText s /\ strip s = [].

Section History.

Context `{Runtime}.

(** A node but the root whose tag, in lower case, is a void element. *)
Definition void_node (a : arena) (n : node_id) : Prop :=
  n <> ROOT /\ is_void (lower (name (a !!! n))) = true.

(** The tag and the attributes of the node an event makes. *)
Definition event_node (e : event) : option (str * dict) :=
  match e with
  | Starttag tag ats | Startendtag tag ats => Some (tag, attrs_dict ats)
  | _ => None
  end.

(** The nodes the events make, in order. *)
Definition created (es : list event) : list (str * dict) :=
  omap event_node es.

(** The character of a character reference, as [handle_charref] reads
    it. *)
Definition charref_char (nm : str) : outcome char :=
  let base := if startswith (lower nm) (py "x") then 16%N else 10%N in
  try_except_ValueError
    (match py_int (lstrip_by (fun c => bool_decide (c ∈ py "xX")) nm) base with
     | Some z => py_chr z
     | None => Raise ValueError
     end)
    (Ok 63%N).

(** The text an event adds to the document; none for a tag. *)
Definition event_text (e : event) : str :=
  match e with
  | Data data => data
  | Entityref nm => [default 63%N (name2codepoint nm)]
  | Charref nm => match charref_char nm with Ok c => [c] | _ => [] end
  | Comment data => py "<!--" ++ data ++ py "-->"
  | Starttag _ _ | Startendtag _ _ | Endtag _ => []
  end.

(** What the events add to a document that has [next] nodes: a node for
    each start tag, numbered in order, and the text runs that are not
    empty. *)
Fixpoint history (next : nat) (es : list event) : list item :=
  match es with
  | [] => []
  | e :: rest =>
      match event_node e with
      | Some _ => ItemNode next :: history (S next) rest
      | None =>
          (if truthy (event_text e) then [ItemText (event_text e)] else [])
          ++ history next rest
      end
  end.

(** An event that adds text: a text run, a reference that has a
    character, or a comment. *)
Definition text_event (e : event) : Prop :=
  match e with
  | Data _ | Entityref _ | Comment _ => True
  | Charref nm => exists c, charref_char nm = Ok c
  | Starttag _ _ | Startendtag _ _ | Endtag _ => False
  end.

(** Well-nested markup: text, void and self-closed tags, and elements
    whose end tag closes them after well-nested contents. A void tag
    has no end tag. *)
Inductive balanced : list event -> Prop :=
| balanced_nil : balanced []
| balanced_text e es : text_event e -> balanced es -> balanced (e :: es)
| balanced_void tag ats es :
    is_void (lower tag) = true -> balanced es ->
    balanced (Starttag tag ats :: es)
| balanced_selfclosed tag ats es :
    balanced es -> balanced (Startendtag tag ats :: es)
| balanced_element tag ats inner tag' es :
    is_void (lower tag) = false -> lower tag' = lower tag ->
    balanced inner -> balanced es ->
    balanced (Starttag tag ats :: inner ++ Endtag tag' :: es).

(** The class test of the property on [select("tag.class")]: the token
    is among the words of the attribute. *)
Definition has_class (cls : str) (value : option str) : outcome bool :=
  Ok (bool_decide (cls ∈ split (default [] value))).

End History.

Section Tokens.

Context `{Runtime}.

(** A class token of a selector: characters of [[\w-]], none of them
    whitespace or a comma. *)
Definition class_token (cls : str) : Prop :=
  cls <> []
  /\ Forall (fun c => is_ident_char c = true /\ is_space c = false /\ c <> 44%N) cls.

(** A type selector: characters of [[a-zA-Z0-9_:-]]. *)
Definition tag_token (tag : str) : Prop :=
  tag <> [] /\ Forall (fun c => is_tag_char c = true) tag.

(** [self] is a document or one of its tags. *)
Definition facade_of (a : arena) (self : _SoupMixin) : Prop :=
  match self with
  | BeautifulSoup n => n = ROOT
  | Tag n => (n < length a)%nat
  end.

End Tokens.

(** ** More sample documents *)

(** The events of [<br>x]. *)
Definition void_events : list event :=
  [Starttag (py "br") []; Data (py "x")].

Definition void_arena : arena :=
  Eval vm_compute in
    match build (H := ascii_runtime) void_events with Ok a => a | _ => [] end.

(** The events of [<img src="a.jpg"><img><img src="http://x/b.jpg">]. *)
Definition photo_events : list event :=
  [Starttag (py "img") [(py "src", Some (py "a.jpg"))];
   Starttag (py "img") [];
   Starttag (py "img") [(py "src", Some (py "http://x/b.jpg"))]].

Definition photo_arena : arena :=
  Eval vm_compute in
    match build (H := ascii_runtime) photo_events with Ok a => a | _ => [] end.

(** The builder after the events of [<div>]. *)
Definition div_builder : Builder :=
  Eval vm_compute in
    match feed (H := ascii_runtime) init_builder [Starttag (py "div") []] with
    | Ok b => b
    | _ => init_builder
    end.

(** * Properties *)

(** ** Strings *)


Lemma split_from_tokens s : forall tok,
  Forall nonspace tok -> Forall token (split_from tok s).
Proof.
  induction s as [|c r IH]; intros tok Htok; simpl.
  - destruct tok; constructor; [split; [discriminate | assumption] | constructor].
  - destruct (is_space c) eqn:Hc.
    + destruct tok.
      * apply IH. constructor.
      * constructor; [split; [discriminate | assumption] |].
        apply IH. constructor.
    + apply IH. apply Forall_app. split; [assumption |].
      constructor; [exact Hc | constructor].
Qed.

Lemma split_tokens s : Forall token (split s).
Proof. apply split_from_tokens. constructor. Qed.

Lemma join_spaced toks :
  toks <> [] -> Forall token toks -> spaced (join (py " ") toks).
Proof.
  induction toks as [|t r IH]; intros Hne Hall; [congruence |].
  inversion Hall as [|? ? Ht Hr]; subst.
  destruct r as [|t' r'].
  - simpl. apply spaced_one. exact Ht.
  - change (join (py " ") (t :: t' :: r'))
      with (t ++ py " " ++ join (py " ") (t' :: r')).
    apply spaced_more; [exact Ht |]. apply IH; [discriminate | exact Hr].
Qed.

Lemma join_nil_inv sep toks :
  Forall (fun t => t <> []) toks -> join sep toks = [] -> toks = [].
Proof.
  destruct toks as [|t r]; [reflexivity |].
  intros Hall Hj. inversion Hall as [|? ? Ht Hr]; subst.
  destruct r; simpl in Hj.
  - congruence.
  - destruct t; [congruence | discriminate].
Qed.

(** [clean_text] gives the placeholder or tokens joined by single spaces. *)
Lemma clean_text_cases v : clean_text v = UNKNOWN \/ spaced (clean_text v).
Proof.
  unfold clean_text. destruct v as [s|]; [| left; reflexivity].
  destruct (negb (truthy_opt (Some s))); [left; reflexivity |].
  unfold or_unknown.
  destruct (truthy (join (py " ") (split (strip s)))) eqn:Hj; [| left; reflexivity].
  right. apply join_spaced; [| apply split_tokens].
  intros Hnil. rewrite Hnil in Hj. discriminate.
Qed.

Lemma token_normalized t : token t -> normalized t.
Proof.
  intros [Hne Hall]. rewrite Forall_forall in Hall.
  assert (forall (i : nat) c, t !! i = Some c -> nonspace c) as Hix.
  { intros i c Hc. apply Hall. eapply list_elem_of_lookup_2. eassumption. }
  split; [exact Hne |]. split; [| split].
  - intros c Hc. destruct t; simpl in Hc; [discriminate |].
    injection Hc as ->. apply (Hix 0%nat). reflexivity.
  - intros c Hc. apply Hall.
    apply last_Some in Hc as [l' ->]. apply elem_of_app. right. apply list_elem_of_singleton. reflexivity.
  - intros i c Hc Hsp. apply Hix in Hc. unfold nonspace in Hc. congruence.
Qed.

Lemma spaced_normalized r : spaced r -> normalized r.
Proof.
  induction 1 as [t Ht | t r Ht Hr IH]; [apply token_normalized; exact Ht |].
  destruct (token_normalized t Ht) as (Htne & Hth & _ & _).
  destruct Ht as [_ Htall]. rewrite Forall_forall in Htall.
  destruct IH as (Hrne & Hrh & Hrl & Hri).
  split; [| split; [| split]].
  - destruct t; [congruence | discriminate].
  - intros c Hc. apply Hth. destruct t; [congruence | exact Hc].
  - intros c Hc. apply Hrl.
    change (t ++ py " " ++ r) with (t ++ [32%N] ++ r) in Hc.
    rewrite app_assoc in Hc. rewrite last_app in Hc.
    destruct (last r) eqn:Hlast; [exact Hc |].
    apply last_None in Hlast. congruence.
  - intros i c Hc Hsp.
    change (t ++ py " " ++ r) with (t ++ 32%N :: r) in *.
    destruct (decide (i < length t)%nat) as [Hlt | Hge].
    + rewrite lookup_app_l in Hc by exact Hlt.
      assert (nonspace c) as Hn by (apply Htall; eapply list_elem_of_lookup_2; eassumption).
      unfold nonspace in Hn. congruence.
    + rewrite lookup_app_r in Hc by lia.
      destruct (i - length t)%nat as [|j] eqn:Hj.
      * simpl in Hc. injection Hc as <-. split; [reflexivity |].
        destruct r as [|d r']; [congruence |].
        exists d. split.
        -- rewrite lookup_app_r by lia.
           replace (S i - length t)%nat with 1%nat by lia. reflexivity.
        -- apply Hrh. reflexivity.
      * simpl in Hc. destruct (Hri j c Hc Hsp) as [-> (d & Hd & Hnd)].
        split; [reflexivity |]. exists d. split; [| exact Hnd].
        rewrite lookup_app_r by lia.
        replace (S i - length t)%nat with (S (S j)) by lia. exact Hd.
Qed.

(** Every value of [clean_text] is the placeholder or a normalized text. *)
Lemma clean_text_normalized v : clean_text v = UNKNOWN \/ normalized (clean_text v).
Proof.
  destruct (clean_text_cases v) as [Hu | Hs]; [left; exact Hu |].
  right. apply spaced_normalized. exact Hs.
Qed.

(** ** helpers.py and kpi3_title_generate.py *)

Lemma clean_text_nonempty v : clean_text v <> [].
Proof.
  destruct (clean_text_cases v) as [-> | Hs]; [discriminate |].
  apply spaced_normalized in Hs. apply Hs.
Qed.

Lemma carries_nothing_clean v : carries_nothing v -> clean_text v = UNKNOWN.
Proof. intros [-> | [-> | ->]]; reflexivity. Qed.

Lemma is_unknown_true s : is_unknown s = true <-> s = UNKNOWN.
Proof. unfold is_unknown, str_eqb. apply bool_decide_eq_true. Qed.

Lemma is_unknown_false s : is_unknown s = false <-> s <> UNKNOWN.
Proof. unfold is_unknown, str_eqb. apply bool_decide_eq_false. Qed.

Lemma truthy_true s : truthy s = true <-> s <> [].
Proof. destruct s; simpl; split; congruence. Qed.

(** The part a field contributes, as the code computes it and as the
    specification lists it. *)
Lemma kept_part (parts : list str) (value part : str) :
  part <> [] -> (value <> UNKNOWN -> part <> UNKNOWN) ->
  filter (fun p => truthy p && negb (is_unknown p) = true)
    (append_known parts value part)
  = filter (fun p => truthy p && negb (is_unknown p) = true) parts
    ++ omap (fun vp : str * str => if is_unknown (fst vp) then None else Some (snd vp))
         [(value, part)].
Proof.
  intros Hne Hun. unfold append_known. simpl.
  destruct (is_unknown value) eqn:Hv; simpl.
  - rewrite app_nil_r. reflexivity.
  - rewrite filter_app. f_equal.
    rewrite filter_cons, filter_nil.
    apply is_unknown_false in Hv. specialize (Hun Hv).
    apply truthy_true in Hne. apply is_unknown_false in Hun.
    rewrite decide_True; [reflexivity |]. rewrite Hne, Hun. reflexivity.
Qed.

Lemma kept_field (value : str) :
  value <> [] ->
  filter (fun p => truthy p && negb (is_unknown p) = true) [value]
  = omap (fun vp : str * str => if is_unknown (fst vp) then None else Some (snd vp))
      [(value, value)].
Proof.
  intros Hne. rewrite filter_cons, filter_nil. simpl.
  apply truthy_true in Hne. rewrite Hne. simpl.
  destruct (is_unknown value); reflexivity.
Qed.

Lemma or_unknown_join (parts : list str) :
  Forall (fun t => t <> []) parts ->
  or_unknown (join (py " ") parts)
  = match parts with [] => UNKNOWN | p :: r => join (py " ") (p :: r) end.
Proof.
  intros Hall. unfold or_unknown.
  destruct (truthy (join (py " ") parts)) eqn:Hj.
  - destruct parts; [discriminate | reflexivity].
  - assert (join (py " ") parts = []) as Hnil by (destruct (join _ _); [reflexivity | discriminate]).
    apply join_nil_inv in Hnil; [| exact Hall]. subst. reflexivity.
Qed.

Lemma suffix_not_unknown (s : str) : s <> [] -> s ++ py "H" <> UNKNOWN.
Proof.
  intros Hne Heq. destruct s as [|a [|b [|c s]]]; try discriminate; congruence.
Qed.

Lemma title_components_nonempty specs :
  Forall (fun t => t <> []) (title_components specs []).
Proof.
  unfold title_components. simpl.
  repeat match goal with
         | |- context [is_unknown ?x] => destruct (is_unknown x)
         end;
  simpl; repeat constructor;
  try apply clean_text_nonempty;
  try (rewrite app_nil_r; apply clean_text_nonempty);
  try (intros Habs; apply app_eq_nil in Habs as [Habs _]; revert Habs; apply clean_text_nonempty);
  try discriminate.
Qed.

Lemma generate_title_components specs :
  generate_title specs
  = [(py "title",
      match title_components specs [] with
      | [] => UNKNOWN
      | parts => join (py " ") parts
      end)].
Proof.
  unfold generate_title. cbv zeta. f_equal. f_equal.
  rewrite <- or_unknown_join by apply title_components_nonempty. f_equal. f_equal.
  pose proof (clean_text_nonempty (specs_get specs (py "brand"))) as Hb.
  pose proof (clean_text_nonempty (specs_get specs (py "model"))) as Hm.
  pose proof (clean_text_nonempty (specs_get specs (py "inch"))) as Hi.
  pose proof (clean_text_nonempty (specs_get specs (py "width"))) as Hw.
  pose proof (clean_text_nonempty (specs_get specs (py "holes"))) as Hh.
  pose proof (clean_text_nonempty (specs_get specs (py "pcd"))) as Hp.
  pose proof (clean_text_nonempty (specs_get specs (py "offset"))) as Ho.
  rewrite !kept_part.
  - change [clean_text (specs_get specs (py "brand")); clean_text (specs_get specs (py "model"))]
      with ([clean_text (specs_get specs (py "brand"))] ++ [clean_text (specs_get specs (py "model"))]).
    rewrite filter_app, !kept_field by assumption.
    unfold title_components. cbv zeta. rewrite app_nil_r.
    rewrite <- !omap_app. reflexivity.
  - exact Hi.
  - tauto.
  - exact Hw.
  - tauto.
  - intros Habs. apply app_eq_nil in Habs as [Habs _]. contradiction.
  - intros _. apply suffix_not_unknown. exact Hh.
  - discriminate.
  - discriminate.
  - discriminate.
  - discriminate.
Qed.

(** C2, as the code has it. The title is the space-joined sequence of the
    components whose field is not the placeholder, in the order brand,
    model, diameter, a component that starts with the width, holes
    followed by [H], [PCD] followed by the pcd value, [OFFSET] followed by
    the offset value; when no component is left the title is the
    placeholder and not the empty join. *)
Theorem generate_title_joins_known_components (specs : specs_arg) :
  exists width_suffix : str,
    generate_title specs
    = [(py "title",
        match title_components specs width_suffix with
        | [] => UNKNOWN
        | parts => join (py " ") parts
        end)].
Proof. exists []. apply generate_title_components. Qed.

(** C2 as it is written fails where no component is known: the join of no
    component is the empty string, the title is the placeholder. *)
Lemma generate_title_not_plain_join :
  title_components (SpecsDict []) (py "J") = [] /\
  generate_title (SpecsDict [])
  <> [(py "title", join (py " ") (title_components (SpecsDict []) (py "J")))].
Proof. split; [reflexivity | discriminate]. Qed.

(** The width goes into the title as it is, where the holes get their
    [H]. *)
Lemma generate_title_width_example :
  generate_title
    (SpecsDict [(py "brand", py "RAYS"); (py "width", py "7"); (py "holes", py "5")])
  = [(py "title", py "RAYS 7 5H")].
Proof. reflexivity. Qed.

(** C9. When each of the seven fields is missing, empty or the
    placeholder (a non-dict argument has them all missing), the title is
    the placeholder, never the empty string. *)
Theorem generate_title_all_unknown (specs : specs_arg) :
  (forall key, key ∈ spec_fields -> carries_nothing (specs_get specs key)) ->
  generate_title specs = [(py "title", UNKNOWN)].
Proof.
  intros Hall.
  assert (forall key, key ∈ spec_fields -> clean_text (specs_get specs key) = UNKNOWN) as Hc.
  { intros key Hk. apply carries_nothing_clean, Hall, Hk. }
  unfold generate_title.
  rewrite !Hc by (unfold spec_fields; simpl; set_solver).
  reflexivity.
Qed.

Lemma generate_title_all_unknown_witness :
  generate_title
    (SpecsDict [(py "brand", []); (py "model", UNKNOWN); (py "note", py "x")])
  = [(py "title", UNKNOWN)]
  /\ generate_title SpecsOther = [(py "title", UNKNOWN)].
Proof.
  split.
  - apply generate_title_all_unknown.
    intros key Hk. unfold spec_fields in Hk. simpl in Hk.
    unfold carries_nothing.
    repeat (apply elem_of_cons in Hk as [-> | Hk]; [vm_compute; tauto |]).
    apply elem_of_nil in Hk. contradiction.
  - apply generate_title_all_unknown. intros key _. left. reflexivity.
Defined.

Section RegexProperties.

Variable re_search : str -> str -> re_flag -> option Match.

(** C7, as the code has it. The result is [clean_text] of the first
    non-empty capture group of the first pattern that matches, or of
    the whole match when that match has no non-empty group; it is the
    placeholder when no pattern matches. *)
Theorem run_regexes_first_match (text : str) (patterns : list str) :
  run_regexes re_search text patterns
  = match list_find (fun p => is_Some (re_search p text IGNORECASE)) patterns with
    | Some (_, p) =>
        match re_search p text IGNORECASE with
        | Some m => clean_text (Some (first_group_or_match m))
        | None => UNKNOWN
        end
    | None => UNKNOWN
    end.
Proof.
  induction patterns as [|p rest IH]; [reflexivity |].
  simpl. destruct (re_search p text IGNORECASE) as [m|] eqn:Hm.
  - rewrite decide_True by eauto. simpl. rewrite Hm.
    unfold first_group_or_match. destruct (nonempty_groups m); reflexivity.
  - rewrite decide_False by (intros [? ?]; discriminate).
    rewrite IH. destruct (list_find _ rest) as [[i q]|]; reflexivity.
Qed.

End RegexProperties.

(** C7 as it is written fails on a group with a run of spaces: the value
    is the cleaned group, not the group. *)
Lemma run_regexes_cleans_the_group :
  exists m,
    sample_search (py "brand:(.+)") (py "brand:AB  CD") IGNORECASE = Some m
    /\ head (nonempty_groups m) = Some (py "AB  CD")
    /\ run_regexes sample_search (py "brand:AB  CD") [py "brand:(.+)"] = py "AB CD"
    /\ run_regexes sample_search (py "brand:AB  CD") [py "brand:(.+)"] <> py "AB  CD".
Proof.
  eexists. split; [reflexivity |]. split; [reflexivity |].
  split; [reflexivity | discriminate].
Qed.

(** ** bs4: selectors *)

Lemma startswith_prefix (s p : str) :
  startswith s p = true <-> exists post, s = p ++ post.
Proof.
  revert s. induction p as [|a p IH]; intros s; simpl.
  - split; [intros _; exists s; reflexivity | reflexivity].
  - destruct s as [|b s].
    + split; [discriminate | intros [post Hp]; discriminate].
    + rewrite andb_true_iff, N.eqb_eq, IH. split.
      * intros [-> [post ->]]. exists post. reflexivity.
      * intros [post Hp]. injection Hp as -> ->. split; [reflexivity | eauto].
Qed.

Lemma contains_substring (s sub : str) :
  contains s sub = true <-> substring sub s.
Proof.
  unfold substring. induction s as [|c s IH]; simpl.
  - rewrite orb_false_r, startswith_prefix. split.
    + intros [post Hp]. exists [], post. exact Hp.
    + intros (pre & post & Hp). destruct pre; [eauto | discriminate].
  - rewrite orb_true_iff, startswith_prefix, IH. split.
    + intros [[post Hp] | (pre & post & ->)].
      * exists [], post. exact Hp.
      * exists (c :: pre), post. reflexivity.
    + intros (pre & post & Hp). destruct pre as [|c' pre].
      * left. exists post. exact Hp.
      * right. injection Hp as -> ->. eauto.
Qed.

Section SelectorProperties.

Context `{Runtime}.

Lemma tag_clause_decided self node :
  (truthy_opt (sel_tag self)
   && negb (str_eqb (lower (name node)) (lower (or_empty (sel_tag self))))) = false
  <-> tag_clause self node.
Proof.
  unfold tag_clause, str_eqb. destruct (sel_tag self) as [[|c t]|]; simpl.
  - split; [intros _ t' [= <-] Hne; congruence | reflexivity].
  - rewrite negb_false_iff, bool_decide_eq_true. split.
    + intros Heq t' [= <-] _. exact Heq.
    + intros Hc. apply Hc; [reflexivity | discriminate].
  - split; [intros _ t' Habs; discriminate | reflexivity].
Qed.

Lemma id_clause_decided self node :
  (truthy_opt (sel_id self)
   && negb (bool_decide (dict_get (attrs node) (py "id") = sel_id self))) = false
  <-> id_clause self node.
Proof.
  unfold id_clause. destruct (sel_id self) as [[|c t]|]; simpl.
  - split; [intros _ t' [= <-] Hne; congruence | reflexivity].
  - rewrite negb_false_iff, bool_decide_eq_true. split.
    + intros Heq t' [= <-] _. exact Heq.
    + intros Hc. apply Hc; [reflexivity | discriminate].
  - split; [intros _ t' Habs; discriminate | reflexivity].
Qed.

Lemma class_clause_decided self node :
  (truthy_list (sel_classes self)
   && negb (forallb
              (fun cls => bool_decide
                 (cls ∈ split (default [] (dict_get (attrs node) (py "class")))))
              (default [] (sel_classes self)))) = false
  <-> class_clause self node.
Proof.
  unfold class_clause. destruct (sel_classes self) as [[|c cs]|]; simpl.
  - split; [| reflexivity]. intros _ cs' c' [= <-] Hin.
    apply elem_of_nil in Hin. contradiction.
  - rewrite negb_false_iff, andb_true_iff, bool_decide_eq_true, forallb_forall.
    split.
    + intros [Hc Hcs] cs' c' [= <-] Hin.
      apply elem_of_cons in Hin as [-> | Hin]; [exact Hc |].
      apply list_elem_of_In in Hin. apply Hcs in Hin.
      apply bool_decide_eq_true in Hin. exact Hin.
    + intros Hall. split.
      * eapply Hall; [reflexivity | apply list_elem_of_here].
      * intros x Hx. apply bool_decide_eq_true.
        eapply Hall; [reflexivity |]. apply list_elem_of_further, list_elem_of_In, Hx.
  - split; [intros _ cs' c' Habs; discriminate | reflexivity].
Qed.

Lemma attr_clause_decided self node :
  (if truthy_opt (sel_attr_name self)
   then match dict_get (attrs node) (or_empty (sel_attr_name self)) with
        | None => false
        | Some attr_val =>
            if bool_decide (sel_attr_op self = Some (py "="))
            then str_eqb attr_val (or_empty (sel_attr_value self))
            else if bool_decide (sel_attr_op self = Some (py "*="))
                    && truthy_opt (sel_attr_value self)
            then contains attr_val (or_empty (sel_attr_value self))
            else true
        end
   else true) = true
  <-> attr_clause self node.
Proof.
  unfold attr_clause, str_eqb.
  destruct (sel_attr_name self) as [[|c n]|]; simpl.
  - split; [intros _ n' [= <-] Hne; congruence | reflexivity].
  - destruct (dict_get (attrs node) (c :: n)) as [v|] eqn:Hget.
    + destruct (bool_decide (sel_attr_op self = Some (py "="))) eqn:Hop.
      * apply bool_decide_eq_true in Hop. rewrite bool_decide_eq_true. split.
        -- intros -> n' [= <-] _. eexists. split; [exact Hget |].
           split; [reflexivity |]. rewrite Hop. discriminate.
        -- intros Hc. destruct (Hc _ eq_refl) as (v' & Hv' & Heq & _); [discriminate |].
           rewrite Hget in Hv'. injection Hv' as <-. apply Heq, Hop.
      * apply bool_decide_eq_false in Hop.
        destruct (bool_decide (sel_attr_op self = Some (py "*="))) eqn:Hop2; simpl.
        -- apply bool_decide_eq_true in Hop2.
           destruct (sel_attr_value self) as [[|d w]|]; simpl.
           ++ split; [| reflexivity]. intros _ n' [= <-] _.
              eexists. split; [exact Hget |]. split; [contradiction |].
              intros _ w' [= <-]. exists [], v. reflexivity.
           ++ rewrite contains_substring. split.
              ** intros Hs n' [= <-] _. eexists. split; [exact Hget |].
                 split; [contradiction |]. intros _ w' [= <-]. exact Hs.
              ** intros Hc. destruct (Hc _ eq_refl) as (v' & Hv' & _ & Hs); [discriminate |].
                 rewrite Hget in Hv'. injection Hv' as <-.
                 apply Hs; [exact Hop2 | reflexivity].
           ++ split; [| reflexivity]. intros _ n' [= <-] _.
              eexists. split; [exact Hget |]. split; [contradiction |].
              intros _ w' Habs. discriminate.
        -- apply bool_decide_eq_false in Hop2. split; [| reflexivity].
           intros _ n' [= <-] _. eexists. split; [exact Hget |].
           split; [contradiction |]. contradiction.
    + split; [discriminate |].
      intros Hc. destruct (Hc _ eq_refl) as (v' & Habs & _); [discriminate |].
      rewrite Hget in Habs. discriminate.
  - split; [intros _ n' Habs; discriminate | reflexivity].
Qed.

Lemma matches_satisfies self node :
  matches self node = true <-> satisfies self node.
Proof.
  unfold satisfies.
  rewrite <- tag_clause_decided, <- id_clause_decided,
    <- class_clause_decided, <- attr_clause_decided.
  unfold matches, str_eqb.
  destruct (bool_decide (name node = ROOT_NAME)) eqn:Hroot.
  { apply bool_decide_eq_true in Hroot. split; [discriminate | tauto]. }
  apply bool_decide_eq_false in Hroot.
  match goal with |- context [if ?b then false else _] =>
    destruct b; [split; [discriminate | intros (_ & Habs & _); discriminate] |] end.
  match goal with |- context [if ?b then false else _] =>
    destruct b; [split; [discriminate | intros (_ & _ & Habs & _); discriminate] |] end.
  match goal with |- context [if ?b then false else _] =>
    destruct b; [split; [discriminate | intros (_ & _ & _ & Habs & _); discriminate] |] end.
  tauto.
Qed.

(** C6. The synthetic root never matches; a node matches exactly when
    it is not the root and satisfies every present clause (tag up to
    case, id, class tokens and attribute equality as exact strings,
    [*=] as substring containment); a selector without constraints
    matches every node but the root. *)
Theorem matches_every_present_clause :
  (forall self ats cs p, matches self (mkNode ROOT_NAME ats cs p) = false)
  /\ (forall self node, matches self node = true <-> satisfies self node)
  /\ (forall node,
        matches no_constraint node = negb (str_eqb (name node) ROOT_NAME)).
Proof.
  split; [| split].
  - intros self ats cs p. reflexivity.
  - apply matches_satisfies.
  - intros node. unfold matches, no_constraint. simpl.
    destruct (str_eqb (name node) ROOT_NAME); reflexivity.
Qed.

End SelectorProperties.

(** ** bs4: the attrs accessor *)

Lemma mutate_allocated_tree h k change :
  tree (mutate h (Allocated k) change) = tree h.
Proof. reflexivity. Qed.

Lemma mutate_all_allocated_tree changes : forall h k,
  tree (mutate_all h (Allocated k) changes) = tree h.
Proof.
  induction changes as [|c cs IH]; intros h k; [reflexivity |].
  change (mutate_all h (Allocated k) (c :: cs))
    with (mutate_all (mutate h (Allocated k) c) (Allocated k) cs).
  rewrite IH. reflexivity.
Qed.

Lemma Tag_attrs_returns h self :
  deref (snd (Tag_attrs h self)) (fst (Tag_attrs h self)) = attrs (tree h !!! self).
Proof.
  unfold Tag_attrs, dict_copy, deref. simpl.
  rewrite lookup_app_r by lia. rewrite Nat.sub_diag. reflexivity.
Qed.

(** C8. [attrs] returns a copy: the dict it gives holds the items of the
    node's mapping, and however the caller changes that dict afterwards,
    the tree is as it was and a later read of [attrs] gives the original
    items. *)
Theorem Tag_attrs_is_a_copy (h : Heap) (self : node_id)
    (changes : list (dict -> dict)) :
  let r := fst (Tag_attrs h self) in
  let h1 := snd (Tag_attrs h self) in
  let h2 := mutate_all h1 r changes in
  deref h1 r = attrs (tree h !!! self)
  /\ tree h2 = tree h
  /\ deref h2 (NodeAttrs self) = deref h (NodeAttrs self)
  /\ deref (snd (Tag_attrs h2 self)) (fst (Tag_attrs h2 self))
     = attrs (tree h !!! self).
Proof.
  intros r h1 h2.
  assert (tree h2 = tree h) as Htree.
  { unfold h2, r, h1, Tag_attrs, dict_copy. simpl.
    rewrite mutate_all_allocated_tree. reflexivity. }
  split; [apply Tag_attrs_returns |].
  split; [exact Htree |].
  split.
  - unfold deref. rewrite Htree. reflexivity.
  - rewrite Tag_attrs_returns, Htree. reflexivity.
Qed.

(** The same change through the node's own dict does reach the tree. *)
Lemma mutate_node_attrs_example :
  let h := mkHeap [mkNode ROOT_NAME [] [] None;
                   mkNode (py "a") [(py "href", py "x")] [] (Some 0%nat)] [] in
  deref (mutate h (NodeAttrs 1) (fun d => dict_set d (py "href") (py "y")))
    (NodeAttrs 1)
  = [(py "href", py "y")]
  /\ deref (mutate_all (snd (Tag_attrs h 1)) (fst (Tag_attrs h 1))
              [fun d => dict_set d (py "href") (py "y")])
       (NodeAttrs 1)
     = [(py "href", py "x")].
Proof. split; reflexivity. Qed.

(** ** bs4: the tree the builder keeps *)

Lemma append_child_length (a : arena) n c :
  length (append_child a n c) = length a.
Proof. unfold append_child. apply length_alter. Qed.

Lemma append_child_parent (a : arena) n c j :
  parent (append_child a n c !!! j) = parent (a !!! j).
Proof.
  unfold append_child. rewrite list_lookup_total_alter.
  case_decide as Hd; [| reflexivity]. destruct Hd as [-> _]. reflexivity.
Qed.

Lemma append_child_name (a : arena) n c j :
  name (append_child a n c !!! j) = name (a !!! j).
Proof.
  unfold append_child. rewrite list_lookup_total_alter.
  case_decide as Hd; [| reflexivity]. destruct Hd as [-> _]. reflexivity.
Qed.

Lemma append_child_attrs (a : arena) n c j :
  attrs (append_child a n c !!! j) = attrs (a !!! j).
Proof.
  unfold append_child. rewrite list_lookup_total_alter.
  case_decide as Hd; [| reflexivity]. destruct Hd as [-> _]. reflexivity.
Qed.

Lemma append_child_children (a : arena) n c j :
  children (append_child a n c !!! j)
  = if decide (n = j /\ (n < length a)%nat) then children (a !!! n) ++ [c]
    else children (a !!! j).
Proof.
  unfold append_child. rewrite list_lookup_total_alter.
  case_decide; reflexivity.
Qed.

Lemma child_ids_app cs ds : child_ids (cs ++ ds) = child_ids cs ++ child_ids ds.
Proof. unfold child_ids. apply omap_app. Qed.

Lemma append_text_child_ids (a : arena) n s j :
  child_ids (children (append_child a n (ChildText s) !!! j))
  = child_ids (children (a !!! j)).
Proof.
  rewrite append_child_children. case_decide as Hd; [| reflexivity].
  destruct Hd as [-> _]. rewrite child_ids_app. simpl. apply app_nil_r.
Qed.

Lemma tree_ok_init : tree_ok (nodes init_builder).
Proof.
  unfold tree_ok. simpl. split; [lia |]. split; [reflexivity |].
  split; [intros i Hi; lia |]. split.
  - intros i c Hi Hc. replace i with 0%nat in Hc by lia.
    simpl in Hc. apply elem_of_nil in Hc. contradiction.
  - intros i Hi. replace i with 0%nat by lia. simpl. constructor.
Qed.

Lemma tree_ok_text (a : arena) n s :
  tree_ok a -> tree_ok (append_child a n (ChildText s)).
Proof.
  intros (Hlen & Hroot & Hpar & Hch & Hnd).
  unfold tree_ok. rewrite append_child_length.
  split; [exact Hlen |]. split; [rewrite append_child_parent; exact Hroot |].
  split; [| split].
  - intros i Hi. rewrite append_child_parent. apply Hpar, Hi.
  - intros i c Hi Hc. rewrite append_text_child_ids in Hc.
    rewrite append_child_parent. apply Hch; assumption.
  - intros i Hi. rewrite append_text_child_ids. apply Hnd, Hi.
Qed.

Lemma tree_ok_node (a : arena) cur nm ats :
  tree_ok a -> (cur < length a)%nat ->
  tree_ok (append_child (a ++ [new_node nm ats (Some cur)]) cur
             (ChildNode (length a))).
Proof.
  intros (Hlen & Hroot & Hpar & Hch & Hnd) Hcur.
  set (nd := new_node nm ats (Some cur)).
  assert (forall j, (j < length a)%nat -> (a ++ [nd]) !!! j = a !!! j) as Hold.
  { intros j Hj. apply lookup_total_app_l, Hj. }
  assert ((a ++ [nd]) !!! length a = nd) as Hnew.
  { rewrite lookup_total_app_r by lia. rewrite Nat.sub_diag. reflexivity. }
  assert (length (a ++ [nd]) = S (length a)) as Hlen'.
  { rewrite length_app. simpl. lia. }
  assert (forall j, (j <= length a)%nat ->
            parent (append_child (a ++ [nd]) cur (ChildNode (length a)) !!! j)
            = if decide (j = length a) then Some cur else parent (a !!! j)) as Hp.
  { intros j Hj. rewrite append_child_parent. case_decide as Hd.
    - subst j. rewrite Hnew. reflexivity.
    - rewrite Hold by lia. reflexivity. }
  assert (forall j, (j <= length a)%nat ->
            child_ids (children (append_child (a ++ [nd]) cur (ChildNode (length a)) !!! j))
            = if decide (j = cur) then child_ids (children (a !!! cur)) ++ [length a]
              else if decide (j = length a) then []
              else child_ids (children (a !!! j))) as Hc.
  { intros j Hj. rewrite append_child_children.
    destruct (decide (j = cur)) as [-> | Hne].
    - rewrite decide_True by (split; [reflexivity | lia]).
      rewrite child_ids_app, Hold by lia. reflexivity.
    - rewrite decide_False by (intros [? _]; congruence).
      case_decide as Hd.
      + subst j. rewrite Hnew. reflexivity.
      + rewrite Hold by lia. reflexivity. }
  unfold tree_ok. rewrite append_child_length, Hlen'.
  split; [lia |]. split; [| split; [| split]].
  - unfold ROOT. rewrite Hp by lia. rewrite decide_False by lia. exact Hroot.
  - intros i Hi. rewrite Hp by lia. case_decide as Hd.
    + exists cur. split; [reflexivity | lia].
    + apply Hpar. lia.
  - intros i c Hi Hin. rewrite Hc in Hin by lia.
    destruct (decide (i = cur)) as [-> | Hne].
    + apply elem_of_app in Hin as [Hin | Hin].
      * destruct (Hch cur c Hcur Hin) as [Hrange Hparent].
        split; [lia |]. rewrite Hp by lia. rewrite decide_False by lia. exact Hparent.
      * apply list_elem_of_singleton in Hin. subst c.
        split; [lia |]. rewrite Hp by lia. rewrite decide_True by reflexivity. reflexivity.
    + case_decide as Hd; [apply elem_of_nil in Hin; contradiction |].
      assert (i < length a)%nat as Hi' by lia.
      destruct (Hch i c Hi' Hin) as [Hrange Hparent].
      split; [lia |]. rewrite Hp by lia. rewrite decide_False by lia. exact Hparent.
  - intros i Hi. rewrite Hc by lia.
    destruct (decide (i = cur)) as [-> | Hne].
    + apply NoDup_app. split; [apply Hnd, Hcur |]. split; [| apply NoDup_singleton].
      intros c Hin Hin'. apply list_elem_of_singleton in Hin'. subst c.
      destruct (Hch cur _ Hcur Hin) as [Hrange _]. lia.
    + case_decide as Hd; [constructor |]. apply Hnd. lia.
Qed.

(** The open elements of a cursor exist, and are fewer than the nodes. *)
Lemma open_elements_exist (a : arena) :
  tree_ok a -> forall n, (n < length a)%nat ->
  exists l, open_elements a n l /\ (length l <= n)%nat.
Proof.
  intros (Hlen & Hroot & Hpar & _) n.
  induction n as [n IH] using lt_wf_ind. intros Hn.
  destruct (decide (n = ROOT)) as [-> | Hne].
  - exists []. split; [constructor | simpl; lia].
  - destruct (Hpar n) as (p & Hp & Hlt); [unfold ROOT in Hne; lia |].
    destruct (IH p Hlt) as (l & Hl & Hlen'); [lia |].
    exists (n :: l). split; [econstructor; eassumption | simpl; lia].
Qed.

Lemma open_elements_unique (a : arena) n l l' :
  open_elements a n l -> open_elements a n l' -> l = l'.
Proof.
  intros Hl. revert l'. induction Hl as [| n p l Hne Hp Hl IH]; intros l' Hl'.
  - inversion Hl'; [reflexivity | congruence].
  - inversion Hl' as [| n' p' l'' Hne' Hp' Hl'']; subst; [congruence |].
    f_equal. apply IH. congruence.
Qed.

Lemma open_elements_range (a : arena) n l :
  tree_ok a -> (n < length a)%nat -> open_elements a n l ->
  Forall (fun m => m <> ROOT /\ (m < length a)%nat) l.
Proof.
  intros (Hlen & Hroot & Hpar & _) Hn Hl.
  induction Hl as [| n p l Hne Hp Hl IH]; constructor.
  - split; [exact Hne | exact Hn].
  - apply IH. destruct (Hpar n) as (p' & Hp' & Hlt); [unfold ROOT in Hne; lia |].
    assert (p' = p) by congruence. subst. lia.
Qed.

Section BuilderProperties.

Context `{Runtime}.

(** The [while] loop stops at the nearest open element with the name,
    or at the root; it needs one turn per open element. *)
Lemma endtag_loop_stops (a : arena) (tag : str) n l :
  open_elements a n l -> forall fuel, (length l < fuel)%nat ->
  endtag_loop fuel a n tag
  = Ok (match list_find (fun m => lower (name (a !!! m)) = tag) l with
        | Some (_, m) => m
        | None => ROOT
        end).
Proof.
  induction 1 as [| n p l Hne Hp Hl IH]; intros fuel Hfuel.
  - destruct fuel as [|fuel]; [simpl in Hfuel; lia |]. reflexivity.
  - destruct fuel as [|fuel]; [simpl in Hfuel; lia |].
    cbn [endtag_loop list_find]. cbn [length] in Hfuel.
    rewrite (bool_decide_eq_false_2 (n = ROOT)) by exact Hne.
    unfold str_eqb. case_decide as Hname.
    + rewrite bool_decide_eq_true_2 by exact Hname. reflexivity.
    + rewrite bool_decide_eq_false_2 by exact Hname. cbn [negb andb].
      unfold parent_or_root. rewrite Hp. rewrite IH by lia.
      destruct (list_find _ l) as [[i m]|]; reflexivity.
Qed.

(** What [handle_endtag] does at a cursor whose open elements are [l]. *)
Lemma handle_endtag_closes (b : Builder) (tag : str) l :
  builder_ok b -> open_elements (nodes b) (current b) l ->
  exists b',
    handle_endtag b tag = Ok b'
    /\ nodes b' = nodes b
    /\ (current b' < length (nodes b))%nat
    /\ match list_find (fun m => lower (name (nodes b !!! m)) = lower tag) l with
       | Some (_, m) => parent (nodes b !!! m) = Some (current b')
       | None => current b' = ROOT
       end.
Proof.
  intros [Hok Hcur] Hl.
  destruct (open_elements_exist _ Hok _ Hcur) as (l' & Hl' & Hlen).
  assert (l' = l) by (eapply open_elements_unique; eassumption). subst l'.
  pose proof (open_elements_range _ _ _ Hok Hcur Hl) as Hrange.
  unfold handle_endtag.
  rewrite (endtag_loop_stops _ _ _ _ Hl) by lia.
  destruct (list_find _ l) as [[i m]|] eqn:Hfind; simpl.
  - apply list_find_Some in Hfind as (Hi & _ & _).
    rewrite Forall_forall in Hrange.
    destruct (Hrange m) as [Hm Hmlt]; [eapply list_elem_of_lookup_2; eassumption |].
    rewrite bool_decide_eq_false_2 by exact Hm. simpl.
    destruct Hok as (_ & _ & Hpar & _).
    destruct (Hpar m) as (p & Hp & Hlt); [unfold ROOT in Hm; lia |].
    eexists. split; [reflexivity |]. simpl.
    unfold parent_or_root. rewrite Hp. split; [reflexivity |].
    split; [lia | reflexivity].
  - eexists. split; [reflexivity |]. simpl. split; [reflexivity |].
    split; [| reflexivity]. destruct Hok as (Hlen0 & _). unfold ROOT. lia.
Qed.

Lemma handle_data_ok b data : builder_ok b -> builder_ok (handle_data b data).
Proof.
  intros [Hok Hcur]. unfold handle_data. destruct (truthy data); [| split; assumption].
  split; simpl; [apply tree_ok_text, Hok | rewrite append_child_length; exact Hcur].
Qed.

Lemma handle_ok b e b' :
  builder_ok b -> handle b e = Ok b' -> builder_ok b'.
Proof.
  intros Hb He. pose proof Hb as [Hok Hcur].
  destruct e as [tag ats | tag ats | tag | data | nm | nm | data]; simpl in He.
  - injection He as <-. unfold handle_starttag.
    destruct (negb (is_void (lower tag))); split; simpl;
      try (apply tree_ok_node; assumption);
      rewrite append_child_length, length_app; simpl; lia.
  - injection He as <-. unfold handle_startendtag. split; simpl.
    + apply tree_ok_node; assumption.
    + rewrite append_child_length, length_app. simpl. lia.
  - destruct (open_elements_exist _ Hok _ Hcur) as (l & Hl & _).
    destruct (handle_endtag_closes b tag l Hb Hl) as (b'' & Hb'' & Hn & Hc & _).
    rewrite Hb'' in He. injection He as <-.
    split; rewrite Hn; assumption.
  - injection He as <-. apply handle_data_ok, Hb.
  - injection He as <-. apply handle_data_ok, Hb.
  - unfold handle_charref in He.
    destruct (try_except_ValueError _ _) as [c | e |]; simpl in He; try discriminate.
    injection He as <-. apply handle_data_ok, Hb.
  - injection He as <-. unfold handle_comment. split; simpl.
    + apply tree_ok_text, Hok.
    + rewrite append_child_length. exact Hcur.
Qed.

Lemma feed_ok es : forall b b',
  builder_ok b -> feed b es = Ok b' -> builder_ok b'.
Proof.
  induction es as [|e es IH]; intros b b' Hb Hf; simpl in Hf.
  - injection Hf as <-. exact Hb.
  - destruct (handle b e) as [b1 | |] eqn:He; simpl in Hf; try discriminate.
    eapply IH; [| exact Hf]. eapply handle_ok; eassumption.
Qed.

Lemma init_builder_ok : builder_ok init_builder.
Proof. split; [apply tree_ok_init | cbv; lia]. Qed.

(** A built document is a tree. *)
Lemma build_tree_ok es a : build es = Ok a -> tree_ok a.
Proof.
  unfold build. intros Hb.
  destruct (feed init_builder es) as [b | |] eqn:Hf; simpl in Hb; try discriminate.
  injection Hb as <-. pose proof (feed_ok es init_builder b init_builder_ok Hf) as Hok.
  destruct Hok as [Hok _]. exact Hok.
Qed.

(** C1, as the code has it. At an end tag the builder does not raise
    and leaves the nodes as they are. When an open element at or above
    the cursor has the tag name, up to case, the cursor moves to the
    parent of the nearest one. When none has, the cursor moves to the
    root: every open element is closed. *)
Theorem handle_endtag_cursor (es : list event) (b : Builder) (tag : str) :
  feed init_builder es = Ok b ->
  exists (opened : list node_id) (b' : Builder),
    open_elements (nodes b) (current b) opened
    /\ handle_endtag b tag = Ok b'
    /\ nodes b' = nodes b
    /\ match list_find (fun m => lower (name (nodes b !!! m)) = lower tag) opened with
       | Some (_, m) => parent (nodes b !!! m) = Some (current b')
       | None => current b' = ROOT
       end.
Proof.
  intros Hf.
  assert (builder_ok b) as Hb by (eapply feed_ok; [apply init_builder_ok | exact Hf]).
  destruct Hb as [Hok Hcur].
  destruct (open_elements_exist _ Hok _ Hcur) as (l & Hl & _).
  destruct (handle_endtag_closes b tag l (conj Hok Hcur) Hl) as (b' & Hb' & Hn & _ & Hm).
  exists l, b'. auto.
Qed.

End BuilderProperties.

Section BuilderExamples.

Local Existing Instance ascii_runtime.

Lemma handle_endtag_cursor_witness :
  exists b,
    feed init_builder
      [Starttag (py "div") []; Starttag (py "p") []; Data (py "text")] = Ok b
    /\ exists (opened : list node_id) (b' : Builder),
         open_elements (nodes b) (current b) opened
         /\ handle_endtag b (py "DIV") = Ok b'
         /\ nodes b' = nodes b
         /\ match list_find (fun m => lower (name (nodes b !!! m)) = lower (py "DIV"))
                    opened with
            | Some (_, m) => parent (nodes b !!! m) = Some (current b')
            | None => current b' = ROOT
            end.
Proof.
  eexists. split; [reflexivity |].
  apply (handle_endtag_cursor
           [Starttag (py "div") []; Starttag (py "p") []; Data (py "text")]).
  reflexivity.
Defined.

(** C1 as it is written fails at [<div></span>]: no open element is a
    [span], and the cursor leaves the [div] for the root. *)
Lemma endtag_without_match_moves_cursor :
  exists b b',
    feed init_builder [Starttag (py "div") []] = Ok b
    /\ open_elements (nodes b) (current b) [1%nat]
    /\ list_find (fun m => lower (name (nodes b !!! m)) = lower (py "span")) [1%nat]
       = None
    /\ handle_endtag b (py "span") = Ok b'
    /\ current b = 1%nat
    /\ current b' = ROOT
    /\ current b' <> current b.
Proof.
  eexists. eexists. split; [reflexivity |]. split.
  - eapply open_step; [discriminate | reflexivity | apply open_root].
  - split; [reflexivity |]. split; [reflexivity |].
    split; [reflexivity |]. split; [reflexivity | discriminate].
Qed.

End BuilderExamples.

(** ** bs4: walking a tree *)

Lemma parent_lt (a : arena) x p :
  tree_ok a -> parent (a !!! x) = Some p -> (p < x < length a)%nat.
Proof.
  intros (Hlen & Hroot & Hpar & _) Hp.
  destruct (decide (x < length a)%nat) as [Hx | Hx].
  - destruct (decide (x = 0%nat)) as [-> | Hne].
    + unfold ROOT in Hroot. congruence.
    + destruct (Hpar x) as (p' & Hp' & Hlt); [lia |].
      assert (p' = p) by congruence. subst. lia.
  - rewrite list_lookup_total_alt, lookup_ge_None_2 in Hp by lia.
    discriminate.
Qed.

Lemma child_in_range (a : arena) i c :
  tree_ok a -> (i < length a)%nat -> c ∈ child_ids (children (a !!! i)) ->
  (i < c < length a)%nat /\ parent (a !!! c) = Some i.
Proof. intros (_ & _ & _ & Hch & _). apply Hch. Qed.

Lemma child_ids_cons_node c cs : child_ids (ChildNode c :: cs) = c :: child_ids cs.
Proof. reflexivity. Qed.

Lemma child_ids_cons_text s cs : child_ids (ChildText s :: cs) = child_ids cs.
Proof. reflexivity. Qed.

Lemma iter_children_total (on_node : node_id -> outcome (list node_id)) cs :
  (forall c, c ∈ child_ids cs -> exists l, on_node c = Ok l) ->
  exists m, iter_children on_node cs = Ok m.
Proof.
  induction cs as [|[c | s] cs IH]; intros Hall; simpl.
  - eauto.
  - destruct (Hall c) as [l Hl]; [rewrite child_ids_cons_node; apply list_elem_of_here |].
    destruct IH as [m Hm].
    { intros c' Hc'. apply Hall. rewrite child_ids_cons_node.
      apply list_elem_of_further, Hc'. }
    rewrite Hl. simpl. rewrite Hm. simpl. eauto.
  - apply IH. intros c' Hc'. apply Hall. exact Hc'.
Qed.

Lemma join_children_total (on_node : node_id -> outcome str) cs :
  (forall c, c ∈ child_ids cs -> exists l, on_node c = Ok l) ->
  exists m, join_children on_node cs = Ok m.
Proof.
  induction cs as [|[c | s] cs IH]; intros Hall; simpl.
  - eauto.
  - destruct (Hall c) as [l Hl]; [rewrite child_ids_cons_node; apply list_elem_of_here |].
    destruct IH as [m Hm].
    { intros c' Hc'. apply Hall. rewrite child_ids_cons_node.
      apply list_elem_of_further, Hc'. }
    rewrite Hl. simpl. rewrite Hm. simpl. eauto.
  - destruct IH as [m Hm]; [intros c' Hc'; apply Hall; exact Hc' |].
    rewrite Hm. simpl. eauto.
Qed.

Lemma iter_children_elem (on_node : node_id -> outcome (list node_id)) cs m x :
  iter_children on_node cs = Ok m -> x ∈ m ->
  exists c l, c ∈ child_ids cs /\ on_node c = Ok l /\ x ∈ l.
Proof.
  revert m. induction cs as [|[c | s] cs IH]; intros m Hm Hx; simpl in Hm.
  - injection Hm as <-. apply elem_of_nil in Hx. contradiction.
  - destruct (on_node c) as [l | |] eqn:Hl; simpl in Hm; try discriminate.
    destruct (iter_children on_node cs) as [m' | |] eqn:Hm'; simpl in Hm; try discriminate.
    injection Hm as <-. apply elem_of_app in Hx as [Hx | Hx].
    + exists c, l. split; [apply list_elem_of_here | auto].
    + destruct (IH m' eq_refl Hx) as (c' & l' & Hc' & Hl' & Hx').
      exists c', l'. split; [apply list_elem_of_further, Hc' | auto].
  - apply (IH m Hm Hx).
Qed.

(** Every walk from a node of a tree comes back, with fuel for the
    levels below the node. *)
Lemma _iter_nodes_fuel_total (a : arena) :
  tree_ok a -> forall fuel n incl,
  (n < length a)%nat -> (length a - n <= fuel)%nat ->
  exists l, _iter_nodes_fuel fuel a n incl = Ok l.
Proof.
  intros Hok. induction fuel as [|fuel IH]; intros n incl Hn Hfuel; [lia |].
  simpl.
  destruct (iter_children_total (fun c => _iter_nodes_fuel fuel a c true)
              (children (a !!! n))) as [m Hm].
  { intros c Hc. destruct (child_in_range a n c Hok Hn Hc) as [Hr _].
    apply IH; lia. }
  rewrite Hm. simpl. eauto.
Qed.

Lemma text_content_fuel_total (a : arena) :
  tree_ok a -> forall fuel n,
  (n < length a)%nat -> (length a - n <= fuel)%nat ->
  exists s, text_content_fuel fuel a n = Ok s.
Proof.
  intros Hok. induction fuel as [|fuel IH]; intros n Hn Hfuel; [lia |].
  simpl. apply join_children_total.
  intros c Hc. destruct (child_in_range a n c Hok Hn Hc) as [Hr _].
  apply IH; lia.
Qed.

Lemma render_contents_fuel_total (a : arena) :
  tree_ok a -> forall fuel n,
  (n < length a)%nat -> (length a - n <= fuel)%nat ->
  exists s, render_contents_fuel fuel a n = Ok s.
Proof.
  intros Hok. induction fuel as [|fuel IH]; intros n Hn Hfuel; [lia |].
  simpl. apply join_children_total.
  intros c Hc. destruct (child_in_range a n c Hok Hn Hc) as [Hr _].
  unfold render_with. destruct (is_void (name (a !!! c))); [eauto |].
  destruct (IH c) as [s Hs]; [lia | lia |]. rewrite Hs. simpl. eauto.
Qed.

Lemma _iter_nodes_total (a : arena) n incl :
  tree_ok a -> (n < length a)%nat -> exists l, _iter_nodes a n incl = Ok l.
Proof. intros Hok Hn. apply _iter_nodes_fuel_total; [assumption | assumption | lia]. Qed.

Lemma text_content_total (a : arena) n :
  tree_ok a -> (n < length a)%nat -> exists s, text_content a n = Ok s.
Proof. intros Hok Hn. apply text_content_fuel_total; [assumption | assumption | lia]. Qed.

Lemma render_contents_total (a : arena) n :
  tree_ok a -> (n < length a)%nat -> exists s, render_contents a n = Ok s.
Proof. intros Hok Hn. apply render_contents_fuel_total; [assumption | assumption | lia]. Qed.

(** *** What a walk yields *)

Lemma reach_trans (a : arena) x y z : reach a x y -> reach a y z -> reach a x z.
Proof.
  induction 1 as [x | x p n Hp Hr IH]; intros Hz; [exact Hz |].
  eapply reach_up; [exact Hp | apply IH, Hz].
Qed.

Lemma reach_le (a : arena) x n : tree_ok a -> reach a x n -> (n <= x)%nat.
Proof.
  intros Hok. induction 1 as [x | x p n Hp Hr IH]; [lia |].
  apply (parent_lt a x p Hok) in Hp. lia.
Qed.

(** Two children of one node have no descendant in common. *)
Lemma reach_one_child (a : arena) x c1 c2 i :
  tree_ok a -> reach a x c1 -> reach a x c2 ->
  parent (a !!! c1) = Some i -> parent (a !!! c2) = Some i -> c1 = c2.
Proof.
  intros Hok H1. revert c2.
  induction H1 as [x | x p n Hp Hr IH]; intros c2 H2 Hp1 Hp2.
  - inversion H2 as [| ? p' ? Hp' Hr']; subst; [reflexivity |].
    assert (p' = i) by congruence. subst.
    apply (reach_le a _ _ Hok) in Hr'. apply (parent_lt a _ _ Hok) in Hp2. lia.
  - inversion H2 as [| ? p' ? Hp' Hr']; subst.
    + assert (p = i) by congruence. subst.
      apply (reach_le a _ _ Hok) in Hr. apply (parent_lt a _ _ Hok) in Hp1. lia.
    + assert (p' = p) by congruence. subst. apply IH; assumption.
Qed.

Lemma _iter_nodes_fuel_reach (a : arena) :
  tree_ok a -> forall fuel n incl l x,
  (n < length a)%nat -> _iter_nodes_fuel fuel a n incl = Ok l -> x ∈ l ->
  reach a x n /\ (x < length a)%nat /\ (x = n -> incl = true).
Proof.
  intros Hok. induction fuel as [|fuel IH]; intros n incl l x Hn Hl Hx; [discriminate |].
  simpl in Hl.
  destruct (iter_children _ _) as [m | |] eqn:Hm; simpl in Hl; try discriminate.
  injection Hl as <-. apply elem_of_app in Hx as [Hx | Hx].
  - destruct (incl && _)%bool eqn:Hincl; [| apply elem_of_nil in Hx; contradiction].
    apply list_elem_of_singleton in Hx. subst x.
    split; [constructor |]. split; [exact Hn |].
    intros _. apply andb_true_iff in Hincl. apply Hincl.
  - destruct (iter_children_elem _ _ _ _ Hm Hx) as (c & l & Hc & Hl & Hxl).
    destruct (child_in_range a n c Hok Hn Hc) as [Hr Hp].
    destruct (IH c true l x) as (Hreach & Hlt & _); [lia | exact Hl | exact Hxl |].
    split; [| split; [exact Hlt |]].
    + eapply reach_trans; [exact Hreach |]. eapply reach_up; [exact Hp | constructor].
    + intros ->. apply (reach_le a _ _ Hok) in Hreach. lia.
Qed.

Lemma iter_children_NoDup (a : arena) (on_node : node_id -> outcome (list node_id))
    i cs m :
  tree_ok a ->
  (forall c, c ∈ child_ids cs -> parent (a !!! c) = Some i) ->
  NoDup (child_ids cs) ->
  (forall c l, c ∈ child_ids cs -> on_node c = Ok l ->
     NoDup l /\ forall x, x ∈ l -> reach a x c) ->
  iter_children on_node cs = Ok m -> NoDup m.
Proof.
  intros Hok. revert m.
  induction cs as [|[c | s] cs IH]; intros m Hpar Hnd Hon Hm; simpl in Hm.
  - injection Hm as <-. constructor.
  - destruct (on_node c) as [l | |] eqn:Hl; simpl in Hm; try discriminate.
    destruct (iter_children on_node cs) as [m' | |] eqn:Hm'; simpl in Hm; try discriminate.
    injection Hm as <-. rewrite child_ids_cons_node in *.
    apply NoDup_cons in Hnd as [Hnotin Hnd].
    destruct (Hon c l) as [Hndl Hreach]; [apply list_elem_of_here | exact Hl |].
    apply NoDup_app. split; [exact Hndl |]. split.
    + intros x Hx Hx'.
      destruct (iter_children_elem _ _ _ _ Hm' Hx') as (c' & l' & Hc' & Hl' & Hxl').
      destruct (Hon c' l') as [_ Hreach']; [apply list_elem_of_further, Hc' | exact Hl' |].
      assert (c = c') as <-.
      { eapply (reach_one_child a x c c' i Hok); [apply Hreach, Hx | apply Hreach', Hxl' | |].
        - apply Hpar. apply list_elem_of_here.
        - apply Hpar. apply list_elem_of_further, Hc'. }
      contradiction.
    + apply IH; [| exact Hnd | | reflexivity].
      * intros c' Hc'. apply Hpar. apply list_elem_of_further, Hc'.
      * intros c' l' Hc' Hl'. apply Hon; [apply list_elem_of_further, Hc' | exact Hl'].
  - apply IH; assumption.
Qed.

(** A walk yields no node twice. *)
Lemma _iter_nodes_fuel_NoDup (a : arena) :
  tree_ok a -> forall fuel n incl l,
  (n < length a)%nat -> _iter_nodes_fuel fuel a n incl = Ok l -> NoDup l.
Proof.
  intros Hok. induction fuel as [|fuel IH]; intros n incl l Hn Hl; [discriminate |].
  simpl in Hl.
  destruct (iter_children _ _) as [m | |] eqn:Hm; simpl in Hl; try discriminate.
  injection Hl as <-.
  assert (NoDup m) as Hndm.
  { eapply (iter_children_NoDup a _ n); [exact Hok | | | | exact Hm].
    - intros c Hc. apply (child_in_range a n c Hok Hn Hc).
    - destruct Hok as (_ & _ & _ & _ & Hnd). apply Hnd, Hn.
    - intros c l Hc Hl.
      destruct (child_in_range a n c Hok Hn Hc) as [Hr _].
      split; [eapply IH; [| exact Hl]; lia |].
      intros x Hx. eapply _iter_nodes_fuel_reach; [exact Hok | | exact Hl | exact Hx]. lia. }
  apply NoDup_app. split; [| split; [| exact Hndm]].
  - destruct (incl && _)%bool; [apply NoDup_singleton | constructor].
  - intros x Hx Hx'.
    destruct (incl && _)%bool; [| apply elem_of_nil in Hx; contradiction].
    apply list_elem_of_singleton in Hx. subst x.
    destruct (iter_children_elem _ _ _ _ Hm Hx') as (c & l & Hc & Hl & Hxl).
    destruct (child_in_range a n c Hok Hn Hc) as [Hr _].
    destruct (_iter_nodes_fuel_reach a Hok fuel c true l n) as (Hreach & _); [lia | exact Hl | exact Hxl |].
    apply (reach_le a _ _ Hok) in Hreach. lia.
Qed.

Lemma _iter_nodes_NoDup (a : arena) n incl l :
  tree_ok a -> (n < length a)%nat -> _iter_nodes a n incl = Ok l -> NoDup l.
Proof. intros Hok Hn. apply _iter_nodes_fuel_NoDup; assumption. Qed.

Lemma _iter_nodes_range (a : arena) n incl l x :
  tree_ok a -> (n < length a)%nat -> _iter_nodes a n incl = Ok l -> x ∈ l ->
  (x < length a)%nat.
Proof.
  intros Hok Hn Hl Hx.
  eapply _iter_nodes_fuel_reach; [exact Hok | exact Hn | exact Hl | exact Hx].
Qed.

(** ** bs4: parsing a selector comes to an end *)

Lemma span_app (p : char -> bool) (s : str) : fst (span p s) ++ snd (span p s) = s.
Proof.
  induction s as [|c s IH]; [reflexivity |]. simpl.
  destruct (p c); simpl; [f_equal; exact IH | reflexivity].
Qed.

Lemma span_rest_length (p : char -> bool) (s : str) :
  (length (snd (span p s)) <= length s)%nat.
Proof.
  rewrite <- (span_app p s) at 2. rewrite length_app. lia.
Qed.

Lemma first_success_Some {A B} (f : A -> option B) (l : list A) y :
  first_success f l = Some y -> exists x, x ∈ l /\ f x = Some y.
Proof.
  induction l as [|x l IH]; simpl; [discriminate |].
  destruct (f x) as [y' |] eqn:Hx.
  - intros [= <-]. exists x. split; [apply list_elem_of_here | exact Hx].
  - intros Hy. destruct (IH Hy) as (x' & Hin & Hx').
    exists x'. split; [apply list_elem_of_further, Hin | exact Hx'].
Qed.

Section ParserProperties.

Context `{Runtime}.

Lemma match_ident_shorter cursor g rest :
  match_ident cursor = Some (g, rest) -> (length rest < length cursor)%nat.
Proof.
  unfold match_ident. destruct cursor as [|c r]; [discriminate |].
  pose proof (span_rest_length is_ident_char r) as Hlen.
  destruct (span is_ident_char r) as [[|g0 g'] rest'] eqn:Hs; [discriminate |].
  intros [= <- <-]. simpl in *. lia.
Qed.

Lemma match_tag_shorter cursor g rest :
  match_tag cursor = Some (g, rest) -> (length rest < length cursor)%nat.
Proof.
  unfold match_tag.
  pose proof (span_app is_tag_char cursor) as Happ.
  destruct (span is_tag_char cursor) as [[|g0 g'] rest'] eqn:Hs; [discriminate |].
  intros [= <- <-]. simpl in Happ. rewrite <- Happ. simpl.
  rewrite length_app. lia.
Qed.

Lemma quoted_value_rest q s v after :
  quoted_value q s = Some (v, after) -> (length after <= length s)%nat.
Proof.
  unfold quoted_value. destruct s as [|c t]; [discriminate |].
  destruct (one_of q c); [| discriminate].
  pose proof (span_rest_length (none_of q) t) as Hlen.
  destruct (span (none_of q) t) as [body [|c' [|c'' rest]]]; try discriminate.
  destruct (one_of q c' && one_of (py "]") c''); [| discriminate].
  intros [= <- <-]. simpl in *. lia.
Qed.

Lemma bare_value_rest s v after :
  bare_value s = Some (v, after) -> (length after <= length s)%nat.
Proof.
  unfold bare_value.
  pose proof (span_rest_length (none_of (py "]")) s) as Hlen.
  destruct (span (none_of (py "]")) s) as [[|c v'] [|c' rest]]; try discriminate.
  intros [= <- <-]. simpl in *. lia.
Qed.

Lemma value_then_bracket_rest s v after :
  value_then_bracket s = Some (v, after) -> (length after <= length s)%nat.
Proof.
  unfold value_then_bracket. intros Hv.
  apply first_success_Some in Hv as (alt & Hin & Halt).
  repeat (apply elem_of_cons in Hin as [-> | Hin];
          [eauto using quoted_value_rest, bare_value_rest |]).
  apply elem_of_nil in Hin. contradiction.
Qed.

Lemma spaces_value_bracket_rest op s op' v after :
  spaces_value_bracket op s = Some (op', v, after) ->
  op' = op /\ (length after <= length s)%nat.
Proof.
  unfold spaces_value_bracket. intros Hv.
  apply first_success_Some in Hv as (k & _ & Hk).
  destruct (value_then_bracket (drop k s)) as [[v' after'] |] eqn:Hval; [| discriminate].
  injection Hk as <- <- <-. split; [reflexivity |].
  apply value_then_bracket_rest in Hval. rewrite length_drop in Hval. lia.
Qed.

Lemma op_value_bracket_rest s op v after :
  op_value_bracket s = Some (op, v, after) -> (length after <= length s)%nat.
Proof.
  unfold op_value_bracket. intros Hv.
  apply first_success_Some in Hv as (op' & _ & Hop).
  destruct (startswith s op'); [| discriminate].
  apply spaces_value_bracket_rest in Hop as [_ Hlen].
  rewrite length_drop in Hlen. lia.
Qed.

Lemma match_attr_shorter cursor m :
  match_attr cursor = Some m -> (length (am_rest m) < length cursor)%nat.
Proof.
  unfold match_attr. destruct cursor as [|c r]; [discriminate |].
  intros Hm. apply first_success_Some in Hm as (k & _ & Hk).
  destruct (op_value_bracket (drop k r)) as [[[op v] after] |] eqn:Hop.
  - injection Hk as <-. apply op_value_bracket_rest in Hop.
    rewrite length_drop in Hop. simpl. lia.
  - pose proof (length_drop r k) as Hd.
    destruct (drop k r) as [|c' after]; [discriminate |].
    destruct (one_of (py "]") c'); [| discriminate].
    injection Hk as <-. simpl in *. lia.
Qed.

Lemma parse_loop_total fuel : forall cursor st,
  (length cursor <= fuel)%nat -> exists st', parse_loop fuel cursor st = Ok st'.
Proof.
  induction fuel as [|fuel IH]; intros cursor st Hlen.
  - destruct cursor; [simpl; eauto | simpl in Hlen; lia].
  - cbn [parse_loop]. destruct (truthy cursor); cbn [negb]; [| eauto].
    destruct (startswith cursor (py "#")).
    { destruct (match_ident cursor) as [[g rest] |] eqn:Hm; [| eauto].
      apply match_ident_shorter in Hm. apply IH. lia. }
    destruct (startswith cursor (py ".")).
    { destruct (match_ident cursor) as [[g rest] |] eqn:Hm; [| eauto].
      apply match_ident_shorter in Hm. apply IH. lia. }
    destruct (startswith cursor (py "[")).
    { destruct (match_attr cursor) as [m |] eqn:Hm; [| eauto].
      apply match_attr_shorter in Hm. apply IH. lia. }
    destruct (match_tag cursor) as [[g rest] |] eqn:Hm; [| eauto].
    apply match_tag_shorter in Hm. apply IH. lia.
Qed.

(** [_parse_selector] returns a selector for every string. *)
Lemma _parse_selector_total selector :
  exists sel, _parse_selector selector = Ok sel.
Proof.
  unfold _parse_selector.
  destruct (parse_loop_total (length (strip selector)) (strip selector)
              (mkParse None None [] None None None)) as [st Hst]; [lia |].
  rewrite Hst. simpl. eauto.
Qed.

End ParserProperties.

(** ** bs4: select *)

Lemma filter_agree {A} (P Q : A -> Prop) `{forall x, Decision (P x)}
    `{forall x, Decision (Q x)} (l : list A) :
  (forall x, x ∈ l -> P x <-> Q x) -> filter P l = filter Q l.
Proof.
  induction l as [|x l IH]; intros Hpq; [reflexivity |].
  rewrite !filter_cons.
  rewrite IH by (intros y Hy; apply Hpq, list_elem_of_further, Hy).
  destruct (decide (P x)) as [Hp | Hp], (decide (Q x)) as [Hq | Hq];
    try reflexivity; exfalso;
    [apply Hq | apply Hp]; apply (Hpq x (list_elem_of_here x l)); assumption.
Qed.

Lemma none_true_all_false {A} (f : A -> bool) (l : list A) :
  Forall (fun x => f x = false) l <-> ~ Exists (fun x => f x = true) l.
Proof.
  induction l as [|x l IH].
  - split; [intros _ Habs; inversion Habs | constructor].
  - rewrite Forall_cons, Exists_cons, IH. destruct (f x); split.
    + intros [Habs _]. discriminate.
    + intros Habs. exfalso. apply Habs. left. reflexivity.
    + intros [_ Hn] [Habs | He]; [discriminate | contradiction].
    + intros Hn. split; [reflexivity |]. intros He. apply Hn. right. exact He.
Qed.

Section SelectProperties.

Context `{Runtime}.

(** One selector over the iterator: the nodes not seen before that it
    matches are added, in the order of the iterator. *)
Lemma select_nodes_adds (a : arena) (parsed : _Selector) (it : list node_id) :
  NoDup it -> forall (seen : gset node_id) (results : list node_id),
  select_nodes a parsed it seen results
  = (seen ∪ list_to_set
              (filter (fun n => (n ∉ seen) /\ matches parsed (a !!! n) = true) it),
     results
     ++ filter (fun n => (n ∉ seen) /\ matches parsed (a !!! n) = true) it).
Proof.
  induction it as [|n it IH]; intros Hnd seen results.
  - simpl. rewrite app_nil_r. f_equal. set_solver.
  - apply NoDup_cons in Hnd as [Hn Hnd]. simpl.
    rewrite filter_cons. case_bool_decide as Hseen.
    + rewrite decide_False by tauto. apply IH, Hnd.
    + destruct (matches parsed (a !!! n)) eqn:Hm.
      * rewrite decide_True by tauto. rewrite IH by exact Hnd.
        assert (filter (fun m => (m ∉ {[n]} ∪ seen) /\ matches parsed (a !!! m) = true) it
                = filter (fun m => (m ∉ seen) /\ matches parsed (a !!! m) = true) it) as ->.
        { apply filter_agree. intros m Hin. set_solver. }
        rewrite <- app_assoc. simpl. f_equal. set_solver.
      * rewrite decide_False by (intros [_ Habs]; discriminate). apply IH, Hnd.
Qed.

(** The selector list, group by group. *)
Lemma select_loop_unions (a : arena) (it : list node_id) :
  NoDup it -> forall parts sels earlier (seen : gset node_id) results,
  Forall2 (fun part sel => _parse_selector part = Ok sel) parts sels ->
  (forall n, n ∈ it ->
     n ∈ seen <-> Exists (fun s => matches s (a !!! n) = true) earlier) ->
  select_loop a parts it seen results
  = Ok (results ++ union_in_order a earlier sels it).
Proof.
  intros Hnd parts sels. revert parts.
  induction sels as [|sel sels IH]; intros parts earlier seen results Hparse Hseen.
  - inversion Hparse; subst. simpl. rewrite app_nil_r. reflexivity.
  - inversion Hparse as [| part ? parts' ? Hsel Hrest]; subst.
    simpl. rewrite Hsel. simpl.
    rewrite select_nodes_adds by exact Hnd.
    assert (filter (fun n => (n ∉ seen) /\ matches sel (a !!! n) = true) it
            = matched_first_by a earlier sel it) as Hnew.
    { unfold matched_first_by. apply filter_agree. intros n Hin.
      rewrite (Hseen n Hin), none_true_all_false. tauto. }
    rewrite Hnew. rewrite (IH parts' (earlier ++ [sel])).
    + rewrite <- app_assoc. reflexivity.
    + exact Hrest.
    + intros n Hin. rewrite Exists_app, Exists_cons, Exists_nil.
      rewrite elem_of_union, elem_of_list_to_set.
      unfold matched_first_by. rewrite list_elem_of_filter.
      rewrite none_true_all_false, <- (Hseen n Hin).
      destruct (decide (n ∈ seen)) as [Hs | Hs]; tauto.
Qed.

Lemma matched_first_by_NoDup (a : arena) earlier sel it :
  NoDup it -> NoDup (matched_first_by a earlier sel it).
Proof. intros Hnd. unfold matched_first_by. apply NoDup_filter, Hnd. Qed.

Lemma union_in_order_elem (a : arena) it sels : forall earlier x,
  x ∈ union_in_order a earlier sels it ->
  x ∈ it /\ Forall (fun s => matches s (a !!! x) = false) earlier.
Proof.
  induction sels as [|sel sels IH]; intros earlier x Hx; simpl in Hx.
  - apply elem_of_nil in Hx. contradiction.
  - apply elem_of_app in Hx as [Hx | Hx].
    + unfold matched_first_by in Hx. apply list_elem_of_filter in Hx. tauto.
    + apply IH in Hx as [Hin Hall]. split; [exact Hin |].
      apply Forall_app in Hall. tauto.
Qed.

Lemma union_in_order_NoDup (a : arena) it sels : forall earlier,
  NoDup it -> NoDup (union_in_order a earlier sels it).
Proof.
  induction sels as [|sel sels IH]; intros earlier Hnd; simpl; [constructor |].
  apply NoDup_app. split; [apply matched_first_by_NoDup, Hnd |].
  split; [| apply IH, Hnd].
  intros x Hx Hx'. unfold matched_first_by in Hx.
  apply list_elem_of_filter in Hx as [[Hm _] _].
  apply union_in_order_elem in Hx' as [_ Hall].
  apply Forall_app in Hall as [_ Hall]. rewrite Forall_singleton in Hall. congruence.
Qed.

Lemma union_in_order_members (a : arena) it sels : forall earlier x,
  x ∈ union_in_order a earlier sels it
  <-> x ∈ it
      /\ Forall (fun s => matches s (a !!! x) = false) earlier
      /\ Exists (fun s => matches s (a !!! x) = true) sels.
Proof.
  induction sels as [|sel sels IH]; intros earlier x; simpl.
  - rewrite Exists_nil. split; [intros Hx; apply elem_of_nil in Hx | ]; tauto.
  - rewrite elem_of_app, IH, Exists_cons, Forall_app, Forall_singleton.
    unfold matched_first_by. rewrite list_elem_of_filter.
    destruct (matches sel (a !!! x)); intuition congruence.
Qed.

Lemma compound_selectors_exist (selector : str) :
  exists sels, compound_selectors selector sels.
Proof.
  unfold compound_selectors.
  induction (selector_parts selector) as [|part parts [sels IH]].
  - exists []. constructor.
  - destruct (_parse_selector_total part) as [sel Hsel].
    exists (sel :: sels). constructor; assumption.
Qed.

(** C3. On a built document, [select] returns, for the compound
    selectors of the list and the nodes below the facade in document
    order: every match of the first selector in document order, then
    for each later selector, in the order of the list, its matches that
    no earlier selector matched, again in document order. The result
    holds exactly the nodes that some selector matches, and none of
    them twice. *)
Theorem select_unions_in_selector_order (es : list event) (a : arena)
    (self : _SoupMixin) (selector : str) :
  build es = Ok a -> (_node self < length a)%nat ->
  exists (sels : list _Selector) (it : list node_id),
    compound_selectors selector sels
    /\ _iter_nodes a (_node self) (is_BeautifulSoup self) = Ok it
    /\ NoDup it
    /\ select a self selector = Ok (union_in_order a [] sels it)
    /\ NoDup (union_in_order a [] sels it)
    /\ (forall n, n ∈ union_in_order a [] sels it
                  <-> n ∈ it /\ Exists (fun s => matches s (a !!! n) = true) sels)
    /\ (forall sel rest, sels = sel :: rest ->
          union_in_order a [] sels it
          = filter (fun n => matches sel (a !!! n) = true) it
            ++ union_in_order a [sel] rest it).
Proof.
  intros Hbuild Hself.
  pose proof (build_tree_ok es a Hbuild) as Hok.
  destruct (compound_selectors_exist selector) as [sels Hsels].
  destruct (_iter_nodes_total a (_node self) (is_BeautifulSoup self) Hok Hself)
    as [it Hit].
  pose proof (_iter_nodes_NoDup a _ _ it Hok Hself Hit) as Hnd.
  exists sels, it. split; [exact Hsels |]. split; [exact Hit |].
  split; [exact Hnd |]. split; [| split; [| split]].
  - unfold select. rewrite Hit. simpl.
    rewrite (select_loop_unions a it Hnd _ sels [] ∅ []); [reflexivity | exact Hsels |].
    intros n _. rewrite Exists_nil. set_solver.
  - apply union_in_order_NoDup, Hnd.
  - intros n. rewrite union_in_order_members.
    split; [tauto | intros [Hin He]; split; [exact Hin | split; [constructor | exact He]]].
  - intros sel rest ->. simpl. f_equal.
    unfold matched_first_by. apply list_filter_iff. intros n.
    split; [tauto | intros Hm; split; [exact Hm | constructor]].
Qed.

End SelectProperties.

(** ** bs4: find and find_all *)

Lemma try_except_passes (o : outcome bool) :
  o <> Diverge -> try_except o (Ok false) = Ok (passes o).
Proof. destruct o as [b | e |]; [reflexivity | reflexivity | congruence]. Qed.

Lemma try_except_no_raise (o : outcome bool) e :
  try_except o (Ok false) <> Raise e.
Proof. destruct o; discriminate. Qed.

Section FindProperties.

Context `{Runtime}.

Lemma _match_name_passes (a : arena) node nm :
  (forall f, nm = NameCallable f -> forall n, f n <> Diverge) ->
  _match_name a node nm = Ok (name_passes a nm node).
Proof.
  intros Hcb. destruct nm as [| s | f]; simpl; try reflexivity.
  apply try_except_passes. eapply Hcb. reflexivity.
Qed.

Lemma match_attrs_items_pass (d : dict) items :
  (forall key f, (key, ExpectedCallable f) ∈ items -> forall v, f v <> Diverge) ->
  match_attrs_items d items
  = Ok (forallb
          (fun item : str * AttrExpected =>
             match snd item with
             | ExpectedValue v => bool_decide (dict_get d (fst item) = v)
             | ExpectedCallable f => passes (f (dict_get d (fst item)))
             end)
          items).
Proof.
  induction items as [|[key [v | f]] items IH]; intros Hcb; [reflexivity | |].
  - cbn [match_attrs_items forallb fst snd].
    destruct (bool_decide (dict_get d key = v)); simpl; [| reflexivity].
    apply IH. intros k f Hin. apply (Hcb k f). apply list_elem_of_further, Hin.
  - cbn [match_attrs_items forallb fst snd].
    rewrite try_except_passes by (eapply Hcb; apply list_elem_of_here).
    simpl. destruct (passes (f (dict_get d key))); simpl; [| reflexivity].
    apply IH. intros k f' Hin. apply (Hcb k f'). apply list_elem_of_further, Hin.
Qed.

Lemma _match_attrs_pass (a : arena) node ats :
  (forall items key f, ats = Some items ->
     (key, ExpectedCallable f) ∈ items -> forall v, f v <> Diverge) ->
  _match_attrs a node ats = Ok (attrs_pass a ats node).
Proof.
  intros Hcb. destruct ats as [[|item items] |]; try reflexivity.
  unfold _match_attrs, attrs_pass. apply match_attrs_items_pass.
  intros key f Hin. eapply Hcb; [reflexivity | exact Hin].
Qed.

Lemma find_all_loop_filters (a : arena) nm ats it :
  callbacks_come_back nm ats ->
  find_all_loop a it nm ats
  = Ok (filter (fun n => name_passes a nm n && attrs_pass a ats n = true) it).
Proof.
  intros [Hn Ha]. induction it as [|n it IH]; [reflexivity |].
  cbn [find_all_loop]. rewrite (_match_name_passes a n nm Hn). simpl.
  rewrite filter_cons. destruct (name_passes a nm n); simpl.
  - rewrite (_match_attrs_pass a n ats Ha). simpl. rewrite IH. simpl.
    destruct (attrs_pass a ats n); reflexivity.
  - rewrite IH. reflexivity.
Qed.

Lemma _match_name_no_raise (a : arena) node nm e :
  _match_name a node nm <> Raise e.
Proof. destruct nm; simpl; try discriminate. apply try_except_no_raise. Qed.

Lemma match_attrs_items_no_raise (d : dict) items e :
  match_attrs_items d items <> Raise e.
Proof.
  induction items as [|[key [v | f]] items IH]; simpl; [discriminate | |].
  - destruct (negb _); [discriminate | exact IH].
  - destruct (f (dict_get d key)) as [[|] | e' |]; simpl;
      try discriminate; exact IH.
Qed.

Lemma _match_attrs_no_raise (a : arena) node ats e :
  _match_attrs a node ats <> Raise e.
Proof.
  destruct ats as [[|item items] |]; try discriminate.
  apply match_attrs_items_no_raise.
Qed.

Lemma find_all_loop_no_raise (a : arena) nm ats it e :
  find_all_loop a it nm ats <> Raise e.
Proof.
  induction it as [|n it IH]; [discriminate |]. cbn [find_all_loop].
  pose proof (_match_name_no_raise a n nm e) as Hn.
  destruct (_match_name a n nm) as [[|] | e' |]; simpl; try congruence.
  - pose proof (_match_attrs_no_raise a n ats e) as Ha.
    destruct (_match_attrs a n ats) as [m2 | e' |]; simpl; try congruence.
    destruct (find_all_loop a it nm ats); simpl; congruence.
  - destruct (find_all_loop a it nm ats); simpl; congruence.
Qed.

(** C5. On a built document [find_all] and [find] do not raise,
    whatever the filter. With callbacks that come back they return:
    [find_all] the nodes below the facade, in document order, that
    pass the filter, a callback that raised counting as no match, and
    [find] the first of them, or [None] when there is none. *)
Theorem find_never_raises (es : list event) (a : arena) (self : _SoupMixin)
    (nm : NameArg) (ats : AttrsArg) :
  build es = Ok a -> (_node self < length a)%nat ->
  (forall e, find_all a self nm ats <> Raise e /\ find a self nm ats <> Raise e)
  /\ (callbacks_come_back nm ats ->
      exists it,
        _iter_nodes a (_node self) false = Ok it
        /\ find_all a self nm ats
           = Ok (filter (fun n => name_passes a nm n && attrs_pass a ats n = true) it)
        /\ find a self nm ats
           = Ok (head (filter (fun n => name_passes a nm n && attrs_pass a ats n = true) it))
        /\ ((forall n, n ∈ it -> name_passes a nm n && attrs_pass a ats n = false) ->
            find a self nm ats = Ok None)).
Proof.
  intros Hbuild Hself.
  pose proof (build_tree_ok es a Hbuild) as Hok.
  destruct (_iter_nodes_total a (_node self) false Hok Hself) as [it Hit].
  split.
  - intros e. unfold find, find_all. rewrite Hit. simpl.
    pose proof (find_all_loop_no_raise a nm ats it e) as Hl.
    split; [exact Hl |]. destruct (find_all_loop a it nm ats); simpl; congruence.
  - intros Hcb. exists it. split; [exact Hit |].
    assert (find_all a self nm ats
            = Ok (filter (fun n => name_passes a nm n && attrs_pass a ats n = true) it))
      as Hall.
    { unfold find_all. rewrite Hit. simpl. apply find_all_loop_filters, Hcb. }
    split; [exact Hall |]. unfold find. rewrite Hall. simpl.
    split; [reflexivity |].
    intros Hnone. f_equal.
    destruct (filter _ it) as [|n l] eqn:Hf; [reflexivity |].
    assert (n ∈ filter (fun n => name_passes a nm n && attrs_pass a ats n = true) it)
      as Hin by (rewrite Hf; apply list_elem_of_here).
    apply list_elem_of_filter in Hin as [Hp Hin].
    rewrite (Hnone n Hin) in Hp. discriminate.
Qed.

End FindProperties.

(** ** kpi1_extract.py *)

Lemma lookup_total_outside (a : arena) n :
  (length a <= n)%nat -> a !!! n = mkNode [] [] [] None.
Proof.
  intros Hn. rewrite list_lookup_total_alt, lookup_ge_None_2 by lia. reflexivity.
Qed.

Lemma _iter_nodes_returns (a : arena) n incl :
  tree_ok a -> exists l, _iter_nodes a n incl = Ok l.
Proof.
  intros Hok. destruct (decide (n < length a)%nat) as [Hn | Hn].
  - apply _iter_nodes_total; assumption.
  - unfold _iter_nodes. destruct Hok as (Hlen & _).
    destruct (length a) as [|k] eqn:Hk; [lia |]. simpl.
    rewrite lookup_total_outside by lia. simpl. eauto.
Qed.

Lemma text_content_returns (a : arena) n :
  tree_ok a -> exists s, text_content a n = Ok s.
Proof.
  intros Hok. destruct (decide (n < length a)%nat) as [Hn | Hn].
  - apply text_content_total; assumption.
  - unfold text_content. destruct Hok as (Hlen & _).
    destruct (length a) as [|k] eqn:Hk; [lia |]. simpl.
    rewrite lookup_total_outside by lia. simpl. eauto.
Qed.

Lemma render_contents_returns (a : arena) n :
  tree_ok a -> exists s, render_contents a n = Ok s.
Proof.
  intros Hok. destruct (decide (n < length a)%nat) as [Hn | Hn].
  - apply render_contents_total; assumption.
  - unfold render_contents. destruct Hok as (Hlen & _).
    destruct (length a) as [|k] eqn:Hk; [lia |]. simpl.
    rewrite lookup_total_outside by lia. simpl. eauto.
Qed.

Section ExtractProperties.

Context `{Runtime}.

Lemma get_text_returns (a : arena) self strip_it :
  tree_ok a -> exists s, get_text a self strip_it = Ok s.
Proof.
  intros Hok. unfold get_text.
  destruct (text_content_returns a (_node self) Hok) as [s Hs].
  rewrite Hs. simpl. eauto.
Qed.

Lemma find_all_returns (a : arena) self nm ats :
  tree_ok a -> callbacks_come_back nm ats ->
  exists l, find_all a self nm ats = Ok l.
Proof.
  intros Hok Hcb. unfold find_all.
  destruct (_iter_nodes_returns a (_node self) false Hok) as [it Hit].
  rewrite Hit. simpl. rewrite find_all_loop_filters by exact Hcb. eauto.
Qed.

Lemma find_returns (a : arena) self nm ats :
  tree_ok a -> callbacks_come_back nm ats ->
  exists r, find a self nm ats = Ok r.
Proof.
  intros Hok Hcb. unfold find.
  destruct (find_all_returns a self nm ats Hok Hcb) as [l Hl].
  rewrite Hl. simpl. eauto.
Qed.

Lemma select_loop_returns (a : arena) it parts : forall seen results,
  exists l, select_loop a parts it seen results = Ok l.
Proof.
  induction parts as [|part parts IH]; intros seen results; simpl; [eauto |].
  destruct (_parse_selector_total part) as [sel Hsel]. rewrite Hsel. simpl.
  destruct (select_nodes a sel it seen results) as [seen' results']. apply IH.
Qed.

Lemma select_returns (a : arena) self selector :
  tree_ok a -> exists l, select a self selector = Ok l.
Proof.
  intros Hok. unfold select.
  destruct (_iter_nodes_returns a (_node self) (is_BeautifulSoup self) Hok) as [it Hit].
  rewrite Hit. simpl. apply select_loop_returns.
Qed.

Lemma select_one_returns (a : arena) self selector :
  tree_ok a -> exists r, select_one a self selector = Ok r.
Proof.
  intros Hok. unfold select_one.
  destruct (select_returns a self selector Hok) as [l Hl]. rewrite Hl. simpl. eauto.
Qed.

Lemma literal_filter_comes_back s ats :
  (forall items key f, ats = Some items ->
     (key, ExpectedCallable f) ∈ items -> forall v, f v <> Diverge) ->
  callbacks_come_back (NameStr s) ats.
Proof. intros Ha. split; [discriminate | exact Ha]. Qed.

Lemma name_filter_comes_back s : callbacks_come_back (NameStr s) None.
Proof. apply literal_filter_comes_back. discriminate. Qed.

Lemma cleaned_clean_text v : cleaned (clean_text v).
Proof. apply clean_text_normalized. Qed.

Lemma cleaned_UNKNOWN : cleaned UNKNOWN.
Proof. left. reflexivity. Qed.

Lemma _extract_title_cleaned (a : arena) soup :
  tree_ok a -> exists r, _extract_title a soup = Ok r /\ cleaned r.
Proof.
  intros Hok. unfold _extract_title.
  destruct (find_returns a soup (NameStr (py "h1")) None Hok (name_filter_comes_back _))
    as [t Ht]. rewrite Ht. simpl.
  destruct t as [n |].
  - simpl. destruct (get_text_returns a (Tag n) false Hok) as [s Hs].
    rewrite Hs. simpl. eauto using cleaned_clean_text.
  - destruct (find_returns a soup (NameStr (py "title")) None Hok
                (name_filter_comes_back _)) as [t Ht'].
    rewrite Ht'. simpl. destruct t as [n |].
    + destruct (get_text_returns a (Tag n) false Hok) as [s Hs].
      rewrite Hs. simpl. eauto using cleaned_clean_text.
    + eauto using cleaned_clean_text.
Qed.

Lemma extract_price_loop_cleaned (a : arena) soup candidates :
  tree_ok a ->
  Forall (fun c => callbacks_come_back (fst c) (snd c)) candidates ->
  exists r, extract_price_loop a soup candidates = Ok r /\ cleaned r.
Proof.
  intros Hok. induction candidates as [|[nm ats] cs IH]; intros Hcb; simpl.
  - eauto using cleaned_UNKNOWN.
  - inversion Hcb as [| ? ? Hc Hcs]; subst. simpl in Hc.
    destruct (find_returns a soup nm ats Hok Hc) as [node Hnode].
    rewrite Hnode. simpl. destruct node as [n |]; [| apply IH, Hcs].
    destruct (get_text_returns a (Tag n) false Hok) as [s Hs].
    rewrite Hs. simpl. eauto using cleaned_clean_text.
Qed.

Lemma single_clause_comes_back s key expected :
  (forall f, expected = ExpectedCallable f -> forall v, f v <> Diverge) ->
  callbacks_come_back (NameStr s) (Some [(key, expected)]).
Proof.
  intros Hf. split; [discriminate |].
  intros items k f [= <-] Hin v. apply list_elem_of_singleton in Hin.
  injection Hin as _ Hin. eapply Hf. symmetry. exact Hin.
Qed.

Lemma price_candidates_come_back :
  Forall (fun c : NameArg * AttrsArg => callbacks_come_back (fst c) (snd c))
    price_candidates.
Proof.
  unfold price_candidates.
  repeat (apply Forall_cons_2;
          [simpl; apply single_clause_comes_back; intros f Hf v;
           try discriminate; injection Hf as <-; discriminate |]).
  apply Forall_nil_2.
Qed.

Lemma _extract_price_cleaned (a : arena) soup :
  tree_ok a -> exists r, _extract_price a soup = Ok r /\ cleaned r.
Proof.
  intros Hok. apply extract_price_loop_cleaned;
    [exact Hok | apply price_candidates_come_back].
Qed.

Lemma text_is_comes_back (a : arena) label :
  tree_ok a -> callbacks_come_back (NameCallable (text_is a label)) None.
Proof.
  intros Hok. split; [| discriminate].
  intros f [= <-] n. unfold text_is.
  destruct (get_text_returns a (Tag n) true Hok) as [s Hs]. rewrite Hs. discriminate.
Qed.

Lemma shipping_by_label_cleaned (a : arena) soup labels :
  tree_ok a ->
  exists r, shipping_by_label a soup labels = Ok r
            /\ forall text, r = Some text -> cleaned text.
Proof.
  intros Hok. induction labels as [|label labels IH]; simpl.
  - eexists. split; [reflexivity | discriminate].
  - destruct (find_returns a soup (NameCallable (text_is a label)) None Hok
                (text_is_comes_back a label Hok)) as [cell Hcell].
    rewrite Hcell. simpl. destruct cell as [c |]; [| exact IH].
    destruct (next_sibling a c) as [[n | s] |]; [| | exact IH].
    + destruct (get_text_returns a (Tag n) false Hok) as [s Hs]. rewrite Hs. simpl.
      eexists. split; [reflexivity |]. intros text [= <-]. apply cleaned_clean_text.
    + eexists. split; [reflexivity |]. intros text [= <-]. apply cleaned_clean_text.
Qed.

Lemma shipping_by_selector_cleaned (a : arena) candidates :
  tree_ok a -> exists r, shipping_by_selector a candidates = Ok r /\ cleaned r.
Proof.
  intros Hok. induction candidates as [|n cs IH]; simpl.
  - eauto using cleaned_UNKNOWN.
  - destruct (get_text_returns a (Tag n) false Hok) as [s Hs]. rewrite Hs. simpl.
    destruct (negb (is_unknown (clean_text (Some s)))); [| exact IH].
    eauto using cleaned_clean_text.
Qed.

Lemma _extract_shipping_cleaned (a : arena) soup :
  tree_ok a -> exists r, _extract_shipping a soup = Ok r /\ cleaned r.
Proof.
  intros Hok. unfold _extract_shipping.
  destruct (shipping_by_label_cleaned a soup shipping_labels Hok) as (r & Hr & Hc).
  rewrite Hr. simpl. destruct r as [text |]; [eauto |].
  destruct (select_returns a soup (py ".ProductDetail__shipping, .Shipping__value") Hok)
    as [cs Hcs].
  rewrite Hcs. simpl. apply shipping_by_selector_cleaned, Hok.
Qed.

Lemma extract_description_loop_returns (a : arena) soup candidates :
  tree_ok a -> exists r, extract_description_loop a soup candidates = Ok r.
Proof.
  intros Hok. induction candidates as [|sel cs IH]; simpl; [eauto |].
  destruct (select_one_returns a soup sel Hok) as [node Hnode]. rewrite Hnode. simpl.
  destruct node as [n |]; [| exact IH].
  apply render_contents_returns, Hok.
Qed.

Lemma _ensure_absolute_url_returns (a : arena) src soup :
  tree_ok a -> exists r, _ensure_absolute_url a src soup = Ok r.
Proof.
  intros Hok. unfold _ensure_absolute_url.
  destruct (startswith src (py "http")); [eauto |].
  destruct (find_returns a soup (NameStr (py "base")) None Hok (name_filter_comes_back _))
    as [b Hb]. rewrite Hb. simpl.
  destruct b as [n |]; [| simpl; eauto].
  unfold has_attr, dict_has, Tag_getitem.
  destruct (dict_get (attrs (a !!! n)) (py "href")); simpl; eauto.
Qed.

Lemma gallery_photos_returns (a : arena) soup imgs :
  tree_ok a -> forall photos, exists r, gallery_photos a soup imgs photos = Ok r.
Proof.
  intros Hok. induction imgs as [|img imgs IH]; intros photos; simpl; [eauto |].
  destruct (negb (truthy_opt _)); [apply IH |].
  destruct (_ensure_absolute_url_returns a
              (or_empty (or_else (or_else (Tag_get a img (py "src"))
                                    (Tag_get a img (py "data-src")))
                           (Tag_get a img (py "data-lazy")))) soup Hok) as [u Hu].
  rewrite Hu. simpl. apply IH.
Qed.

Lemma gallery_loop_returns (a : arena) soup selectors :
  tree_ok a -> forall photos, exists r, gallery_loop a soup selectors photos = Ok r.
Proof.
  intros Hok. induction selectors as [|sel sels IH]; intros photos; simpl; [eauto |].
  destruct (select_one_returns a soup sel Hok) as [c Hc]. rewrite Hc. simpl.
  destruct c as [c |]; [| apply IH].
  destruct (find_all_returns a (Tag c) (NameStr (py "img")) None Hok
              (name_filter_comes_back _)) as [imgs Himgs].
  rewrite Himgs. simpl.
  destruct (gallery_photos_returns a soup imgs Hok photos) as [ph Hph].
  rewrite Hph. simpl. destruct ph; [apply IH | eauto].
Qed.

Lemma fallback_photos_returns (a : arena) soup imgs :
  tree_ok a -> forall photos, exists r, fallback_photos a soup imgs photos = Ok r.
Proof.
  intros Hok. induction imgs as [|img imgs IH]; intros photos; simpl; [eauto |].
  destruct (truthy_opt (Tag_get a img (py "src"))).
  - destruct (_ensure_absolute_url_returns a (or_empty (Tag_get a img (py "src")))
                soup Hok) as [u Hu].
    rewrite Hu. simpl. destruct (bool_decide _); [eauto | apply IH].
  - simpl. destruct (bool_decide _); [eauto | apply IH].
Qed.

Lemma _extract_photos_returns (a : arena) soup :
  tree_ok a -> exists r, _extract_photos a soup = Ok r.
Proof.
  intros Hok. unfold _extract_photos.
  destruct (gallery_loop_returns a soup
              [py "#ProductPhoto"; py "#ProductImage"; py ".ProductImage";
               py "div[class*='Image']"] Hok []) as [ph Hph].
  rewrite Hph. simpl. destruct ph; [| eauto].
  destruct (find_all_returns a soup (NameStr (py "img")) None Hok
              (name_filter_comes_back _)) as [imgs Himgs].
  rewrite Himgs. simpl. apply fallback_photos_returns, Hok.
Qed.

(** C10. Whatever the fetch gives, a document built by the shim or a
    [FetchError], [extract_listing] returns a listing, and its title,
    its price and its shipping are each the placeholder or a text that
    is not empty, has no whitespace at either end, and has a single
    space for every run of whitespace inside. *)
Theorem extract_listing_cleaned_fields (fetch_html : str -> fetched) (url : str) :
  (forall u soup, fetch_html u = Fetched soup -> exists es, build es = Ok soup) ->
  exists listing,
    extract_listing fetch_html url = Ok listing
    /\ cleaned (title listing)
    /\ cleaned (price listing)
    /\ cleaned (shipping listing).
Proof.
  intros Hbuilt. unfold extract_listing.
  destruct (fetch_html url) as [a |] eqn:Hfetch.
  - destruct (Hbuilt url a Hfetch) as [es Hes].
    pose proof (build_tree_ok es a Hes) as Hok.
    destruct (_extract_title_cleaned a (BeautifulSoup ROOT) Hok) as (t & Ht & Hct).
    destruct (_extract_price_cleaned a (BeautifulSoup ROOT) Hok) as (p & Hp & Hcp).
    destruct (_extract_shipping_cleaned a (BeautifulSoup ROOT) Hok) as (s & Hs & Hcs).
    destruct (_extract_photos_returns a (BeautifulSoup ROOT) Hok) as (ph & Hph).
    destruct (extract_description_loop_returns a (BeautifulSoup ROOT)
                [py "#ProductExplanation"; py "#ProductDescription";
                 py ".ProductExplanation"; py "section[itemprop='description']";
                 py "div[class*='Description']"] Hok) as (d & Hd).
    unfold _extract_description.
    rewrite Ht, Hp, Hs, Hph, Hd. simpl.
    eexists. split; [reflexivity |]. simpl. auto.
  - eexists. split; [reflexivity |]. simpl.
    split; [| split]; apply cleaned_UNKNOWN.
Qed.

End ExtractProperties.

(** ** bs4: the operator of an attribute clause *)

Lemma first_success_first {A B} (f : A -> option B) (l : list A) y :
  first_success f l = Some y ->
  exists l1 x l2, l = l1 ++ x :: l2 /\ f x = Some y
                  /\ Forall (fun x' => f x' = None) l1.
Proof.
  induction l as [|x l IH]; simpl; [discriminate |].
  destruct (f x) as [y' |] eqn:Hx.
  - intros [= <-]. exists [], x, l. split; [reflexivity |]. split; [exact Hx | constructor].
  - intros Hy. destruct (IH Hy) as (l1 & x' & l2 & -> & Hx' & Hall).
    exists (x :: l1), x', l2. split; [reflexivity |]. split; [exact Hx' |].
    constructor; assumption.
Qed.

Lemma descending_before (least m k : nat) l1 l2 :
  rev (seq least m) = l1 ++ k :: l2 ->
  forall k', (k < k' < least + m)%nat -> k' ∈ l1.
Proof.
  revert l1. induction m as [|m IH]; intros l1 Hg k' Hk'.
  - destruct l1; discriminate.
  - rewrite seq_S, rev_unit in Hg. destruct l1 as [|x l1].
    + injection Hg as <- _. lia.
    + injection Hg as <- Hg.
      destruct (decide (k' = least + m)%nat) as [-> | Hne].
      * apply list_elem_of_here.
      * apply list_elem_of_further. apply (IH l1 Hg). lia.
Qed.

Lemma greedy_before (least n k : nat) l1 l2 :
  greedy least n = l1 ++ k :: l2 ->
  forall k', (k < k' <= n)%nat -> k' ∈ l1.
Proof.
  unfold greedy. intros Hg k' Hk'.
  assert (least <= k)%nat as Hk.
  { assert (k ∈ rev (seq least (S n - least))) as Hin.
    { rewrite Hg. apply elem_of_app. right. apply list_elem_of_here. }
    apply list_elem_of_In in Hin. apply in_rev, in_seq in Hin. lia. }
  apply (descending_before least (S n - least) k l1 l2 Hg). lia.
Qed.

Lemma span_continues (p : char -> bool) (r : str) : forall k,
  (k <= length (fst (span p r)))%nat ->
  length (fst (span p r)) = (k + length (fst (span p (drop k r))))%nat.
Proof.
  induction r as [|c r IH]; intros k Hk.
  - simpl in *. assert (k = 0%nat) as -> by lia. reflexivity.
  - destruct k as [|k]; [reflexivity |].
    simpl in *. destruct (p c); simpl in *; [| lia].
    rewrite (IH k) by lia. reflexivity.
Qed.

Lemma startswith_star (s : str) :
  startswith s (py "*=") = true -> exists rest, s = 42%N :: 61%N :: rest.
Proof. intros Hs. apply startswith_prefix in Hs as [rest ->]. exists rest. reflexivity. Qed.

Section AttributeOperator.

Context `{Runtime}.

Lemma spaces_value_bracket_op op op' s v after :
  spaces_value_bracket op s = Some (op, v, after) ->
  spaces_value_bracket op' s = Some (op', v, after).
Proof.
  unfold spaces_value_bracket.
  induction (greedy 0 (length (fst (span is_space s)))) as [|k l IH]; simpl;
    [discriminate |].
  destruct (value_then_bracket (drop k s)) as [[v' after'] |].
  - intros [= <- <-]. reflexivity.
  - exact IH.
Qed.

(** The group [op] of a match is never the operator of containment:
    the name, tried longest first, takes the asterisk. *)
Lemma match_attr_op cursor m :
  match_attr cursor = Some m -> am_op m <> Some (py "*=").
Proof.
  unfold match_attr. destruct cursor as [|c0 r]; [discriminate |].
  intros Hm Hop.
  apply first_success_first in Hm as (l1 & k & l2 & Hg & Hk & Hnone).
  destruct (op_value_bracket (drop k r)) as [[[op v] after] |] eqn:Hovb.
  - injection Hk as <-. simpl in Hop. injection Hop as ->.
    unfold op_value_bracket in Hovb. cbn [first_success] in Hovb.
    destruct (startswith (drop k r) (py "*=")) eqn:Hstar.
    + destruct (spaces_value_bracket (py "*=") (drop (length (py "*=")) (drop k r)))
        as [[[op' v'] after'] |] eqn:Hsv.
      * injection Hovb as -> -> ->.
        apply startswith_star in Hstar as [rest Hrest].
        rewrite Hrest in Hsv. simpl in Hsv.
        assert (k <= length (fst (span (none_of (py "=]")) r)))%nat as Hkn.
        { assert (k ∈ greedy 1 (length (fst (span (none_of (py "=]")) r)))) as Hin.
          { rewrite Hg. apply elem_of_app. right. apply list_elem_of_here. }
          unfold greedy in Hin. apply list_elem_of_In in Hin.
          apply in_rev, in_seq in Hin. lia. }
        pose proof (span_continues (none_of (py "=]")) r k Hkn) as Hn.
        rewrite Hrest in Hn. simpl in Hn.
        assert (S k ∈ l1) as Hin by (apply (greedy_before _ _ _ _ _ Hg); lia).
        rewrite Forall_forall in Hnone. specialize (Hnone _ Hin).
        assert (drop (S k) r = 61%N :: rest) as Hdrop.
        { replace (S k) with (k + 1)%nat by lia. rewrite <- drop_drop, Hrest.
          reflexivity. }
        rewrite Hdrop in Hnone.
        unfold op_value_bracket in Hnone. cbn [first_success] in Hnone.
        simpl in Hnone.
        rewrite (spaces_value_bracket_op _ (py "=") _ _ _ Hsv) in Hnone.
        discriminate.
      * destruct (startswith (drop k r) (py "=")); [| discriminate].
        destruct (spaces_value_bracket (py "=") _) as [[[op' v'] after'] |] eqn:Hsv';
          [| discriminate].
        apply spaces_value_bracket_rest in Hsv' as [-> _]. discriminate.
    + destruct (startswith (drop k r) (py "=")); [| discriminate].
      destruct (spaces_value_bracket (py "=") _) as [[[op' v'] after'] |] eqn:Hsv';
        [| discriminate].
      apply spaces_value_bracket_rest in Hsv' as [-> _]. discriminate.
  - destruct (drop k r) as [|c' after]; [discriminate |].
    destruct (one_of (py "]") c'); [| discriminate].
    injection Hk as <-. discriminate.
Qed.

Lemma parse_loop_op fuel : forall cursor st st',
  parse_loop fuel cursor st = Ok st' ->
  ps_attr_op st <> Some (py "*=") -> ps_attr_op st' <> Some (py "*=").
Proof.
  induction fuel as [|fuel IH]; intros cursor st st'.
  - simpl. destruct (negb (truthy cursor)); [| discriminate].
    intros [= <-] Hst. exact Hst.
  - cbn [parse_loop]. destruct (negb (truthy cursor)); [intros [= <-] Hst; exact Hst |].
    destruct (startswith cursor (py "#")).
    { destruct (match_ident cursor) as [[g rest] |]; [| intros [= <-] Hst; exact Hst].
      intros Hl Hst. apply (IH _ _ _ Hl). exact Hst. }
    destruct (startswith cursor (py ".")).
    { destruct (match_ident cursor) as [[g rest] |]; [| intros [= <-] Hst; exact Hst].
      intros Hl Hst. apply (IH _ _ _ Hl). exact Hst. }
    destruct (startswith cursor (py "[")).
    { destruct (match_attr cursor) as [m |] eqn:Hm; [| intros [= <-] Hst; exact Hst].
      intros Hl _. apply (IH _ _ _ Hl). simpl. apply (match_attr_op cursor m Hm). }
    destruct (match_tag cursor) as [[g rest] |]; [| intros [= <-] Hst; exact Hst].
    intros Hl Hst. apply (IH _ _ _ Hl). exact Hst.
Qed.

(** No selector that comes out of [_parse_selector] tests containment:
    [[name*=value]] is read as the attribute [name*] equal to [value]. *)
Lemma _parse_selector_op selector sel :
  _parse_selector selector = Ok sel -> sel_attr_op sel <> Some (py "*=").
Proof.
  unfold _parse_selector.
  destruct (parse_loop _ _ _) as [st | |] eqn:Hst; simpl; try discriminate.
  intros [= <-]. simpl. apply (parse_loop_op _ _ _ _ Hst). discriminate.
Qed.

End AttributeOperator.

(** ** The properties at sample documents *)

Section Examples.

Local Existing Instance ascii_runtime.

Lemma select_unions_in_selector_order_witness :
  build sample_events = Ok sample_arena
  /\ exists (sels : list _Selector) (it : list node_id),
       compound_selectors (py "span, div, p") sels
       /\ _iter_nodes sample_arena ROOT true = Ok it
       /\ NoDup it
       /\ select sample_arena (BeautifulSoup ROOT) (py "span, div, p")
          = Ok (union_in_order sample_arena [] sels it)
       /\ NoDup (union_in_order sample_arena [] sels it)
       /\ (forall n, n ∈ union_in_order sample_arena [] sels it
                     <-> n ∈ it
                         /\ Exists (fun s => matches s (sample_arena !!! n) = true) sels)
       /\ (forall sel rest, sels = sel :: rest ->
             union_in_order sample_arena [] sels it
             = filter (fun n => matches sel (sample_arena !!! n) = true) it
               ++ union_in_order sample_arena [sel] rest it).
Proof.
  split; [reflexivity |].
  apply (select_unions_in_selector_order sample_events sample_arena
           (BeautifulSoup ROOT) (py "span, div, p")).
  - reflexivity.
  - vm_compute. lia.
Defined.

(** The order of the groups, not of the document: the [span] comes
    before the [div] that holds it. *)
Lemma select_order_example :
  _iter_nodes sample_arena ROOT true = Ok [1; 2; 3]%nat
  /\ select sample_arena (BeautifulSoup ROOT) (py "span, div, p") = Ok [3; 1; 2]%nat.
Proof. split; reflexivity. Qed.

Lemma find_never_raises_witness :
  build sample_events = Ok sample_arena
  /\ (forall e,
        find_all sample_arena (BeautifulSoup ROOT) (NameCallable raising_predicate) None
        <> Raise e
        /\ find sample_arena (BeautifulSoup ROOT) (NameCallable raising_predicate) None
           <> Raise e)
  /\ find sample_arena (BeautifulSoup ROOT) (NameCallable raising_predicate) None
     = Ok None.
Proof.
  split; [reflexivity |].
  destruct (find_never_raises sample_events sample_arena (BeautifulSoup ROOT)
              (NameCallable raising_predicate) None) as [Hno Hret].
  - reflexivity.
  - vm_compute. lia.
  - split; [exact Hno |].
    destruct Hret as (it & _ & _ & _ & Hnone).
    + split; [| discriminate]. intros f Hf n. injection Hf as <-. discriminate.
    + apply Hnone. intros n _. reflexivity.
Defined.

Lemma extract_listing_cleaned_fields_witness :
  exists listing,
    extract_listing sample_fetch (py "https://auctions.yahoo.co.jp/sample")
    = Ok listing
    /\ cleaned (title listing)
    /\ cleaned (price listing)
    /\ cleaned (shipping listing).
Proof.
  apply extract_listing_cleaned_fields.
  intros u soup Hf. exists sample_events.
  unfold sample_fetch in Hf. injection Hf as <-. reflexivity.
Defined.

(** C4 fails on the code at [<p>&lt;b&gt;x</p>]. The [p] has text
    children only; its contents come out as [<b>x], where the decoded
    [<] and [>] stand unescaped; the events of that string build a [b]
    element. The round trip adds an element that the children of [p]
    do not have. *)
Theorem decode_contents_unescaped_text :
  build escaped_events = Ok escaped_arena
  /\ children (escaped_arena !!! 1%nat)
     = [ChildText (py "<"); ChildText (py "b"); ChildText (py ">");
        ChildText (py "x")]
  /\ child_ids (children (escaped_arena !!! 1%nat)) = []
  /\ decode_contents escaped_arena (Tag 1) = Ok (py "<b>x")
  /\ build reparsed_events = Ok reparsed_arena
  /\ child_ids (children (reparsed_arena !!! ROOT)) = [1%nat]
  /\ name (reparsed_arena !!! 1%nat) = py "b".
Proof. repeat (split; [reflexivity |]). reflexivity. Qed.

(** The attribute values are escaped on the way out, the texts are
    not. *)
Lemma render_escapes_attributes :
  exists a,
    build [Starttag (py "a") [(py "title", Some (py "<b>"))]; Data (py "<b>")] = Ok a
    /\ render a 1 = Ok (py "<a title=" ++ [34%N] ++ py "&lt;b&gt;" ++ [34%N]
                          ++ py "><b></a>").
Proof. eexists. split; reflexivity. Qed.

(** The last description selector of [_extract_description], parsed. *)
Lemma parse_containment_example :
  _parse_selector (py "div[class*='Description']")
  = Ok (mkSelector (Some (py "div")) None None
          (Some (py "class*")) (Some (py "Description")) (Some (py "="))).
Proof. reflexivity. Qed.

End Examples.

(** * More properties *)

(** ** helpers.py: clean_text *)

Lemma split_from_run (t s tok : str) :
  Forall nonspace t -> split_from tok (t ++ s) = split_from (tok ++ t) s.
Proof.
  revert tok. induction t as [|c t IH]; intros tok Ht; simpl.
  - rewrite app_nil_r. reflexivity.
  - inversion Ht as [|? ? Hc Ht']; subst. unfold nonspace in Hc. rewrite Hc.
    rewrite IH by exact Ht'. rewrite <- app_assoc. reflexivity.
Qed.

Lemma split_token_then (t r : str) :
  token t -> split (t ++ py " " ++ r) = t :: split r.
Proof.
  intros [Hne Ht]. unfold split. rewrite split_from_run by exact Ht. simpl.
  destruct t; [congruence | reflexivity].
Qed.

Lemma split_token (t : str) : token t -> split t = [t].
Proof.
  intros [Hne Ht]. unfold split.
  rewrite <- (app_nil_r t) at 1. rewrite split_from_run by exact Ht. simpl.
  destruct t; [congruence | reflexivity].
Qed.

(** A text of tokens joined by single spaces splits into them and is
    joined back to itself. *)
Lemma spaced_join_split (r : str) : spaced r -> join (py " ") (split r) = r.
Proof.
  induction 1 as [t Ht | t r Ht Hr IH].
  - rewrite split_token by exact Ht. reflexivity.
  - rewrite split_token_then by exact Ht.
    assert (split r <> []) as Hne.
    { intros Hnil. rewrite Hnil in IH. simpl in IH.
      apply spaced_normalized in Hr. destruct Hr as [Hr _]. congruence. }
    destruct (split r) as [|x l] eqn:Hs; [congruence |].
    change (join (py " ") (t :: x :: l)) with (t ++ py " " ++ join (py " ") (x :: l)).
    rewrite IH. reflexivity.
Qed.

Lemma lstrip_by_head (p : char -> bool) (s : str) :
  (forall c, head s = Some c -> p c = false) -> lstrip_by p s = s.
Proof.
  destruct s as [|c s]; [reflexivity |]. intros Hc. simpl.
  rewrite (Hc c eq_refl). reflexivity.
Qed.

Lemma head_rev_last {A} (l : list A) : head (rev l) = last l.
Proof.
  induction l as [|x l IH] using rev_ind; [reflexivity |].
  rewrite rev_unit, last_snoc. reflexivity.
Qed.

Lemma strip_normalized (r : str) : normalized r -> strip r = r.
Proof.
  intros (_ & Hh & Hl & _). unfold strip, strip_by, rstrip_by.
  rewrite (lstrip_by_head is_space r) by exact Hh.
  rewrite lstrip_by_head; [apply rev_involutive |].
  intros c Hc. rewrite head_rev_last in Hc. apply Hl, Hc.
Qed.

Lemma clean_text_spaced (r : str) : spaced r -> clean_text (Some r) = r.
Proof.
  intros Hr. pose proof (spaced_normalized r Hr) as Hn.
  unfold clean_text. simpl.
  destruct r as [|c r']; [destruct Hn as [Hn _]; congruence |]. simpl.
  rewrite strip_normalized by exact Hn.
  rewrite spaced_join_split by exact Hr. reflexivity.
Qed.

(** The placeholder and the texts of single-spaced words are fixed
    points of [clean_text]. *)
Lemma clean_text_fixed (r : str) :
  r = UNKNOWN \/ spaced r -> clean_text (Some r) = r.
Proof. intros [-> | Hs]; [reflexivity | apply clean_text_spaced, Hs]. Qed.

(** X1. Cleaning a cleaned text changes nothing. *)
Theorem clean_text_idempotent (value : option str) :
  clean_text (Some (clean_text value)) = clean_text value.
Proof. apply clean_text_fixed, clean_text_cases. Qed.

Lemma concat_split_from (s tok : str) :
  concat (split_from tok s) = tok ++ filter nonspace s.
Proof.
  revert tok. induction s as [|c s IH]; intros tok; simpl.
  - rewrite filter_nil. destruct tok; simpl; rewrite ?app_nil_r; reflexivity.
  - rewrite filter_cons. destruct (decide (nonspace c)) as [Hc | Hc].
    + unfold nonspace in Hc. rewrite Hc, IH, <- app_assoc. reflexivity.
    + unfold nonspace in Hc. apply not_false_is_true in Hc. rewrite Hc.
      destruct tok; simpl; rewrite IH; reflexivity.
Qed.

Lemma lstrip_by_space_content (s : str) :
  filter nonspace (lstrip_by is_space s) = filter nonspace s.
Proof.
  induction s as [|c s IH]; [reflexivity |]. simpl.
  destruct (is_space c) eqn:Hc; [| reflexivity].
  rewrite filter_cons, decide_False by (unfold nonspace; congruence). exact IH.
Qed.

Lemma filter_rev {A} (P : A -> Prop) `{forall x, Decision (P x)} (l : list A) :
  filter P (rev l) = rev (filter P l).
Proof.
  induction l as [|x l IH]; [reflexivity |]. simpl.
  rewrite filter_app, IH, !filter_cons, filter_nil.
  destruct (decide (P x)); simpl; rewrite ?app_nil_r; reflexivity.
Qed.

Lemma strip_content (s : str) : filter nonspace (strip s) = filter nonspace s.
Proof.
  unfold strip, strip_by, rstrip_by.
  rewrite filter_rev, lstrip_by_space_content, filter_rev, rev_involutive.
  apply lstrip_by_space_content.
Qed.

Lemma token_content (t : str) : Forall nonspace t -> filter nonspace t = t.
Proof.
  induction 1 as [|c t Hc Ht IH]; [reflexivity |].
  rewrite filter_cons, decide_True by exact Hc. rewrite IH. reflexivity.
Qed.

Lemma join_content (toks : list str) :
  Forall token toks -> filter nonspace (join (py " ") toks) = concat toks.
Proof.
  induction 1 as [|t toks [_ Ht] Htoks IH]; [reflexivity |].
  destruct toks as [|t' toks'].
  - simpl. rewrite app_nil_r. apply token_content, Ht.
  - change (join (py " ") (t :: t' :: toks'))
      with (t ++ py " " ++ join (py " ") (t' :: toks')).
    rewrite !filter_app, IH, (token_content t Ht). reflexivity.
Qed.

(** X2. [clean_text] keeps the characters that are not whitespace, in
    their order; a text without such a character, the empty one
    included, gives the placeholder. *)
Theorem clean_text_keeps_content (s : str) :
  match filter nonspace s with
  | [] => clean_text (Some s) = UNKNOWN
  | _ :: _ =>
      filter nonspace (clean_text (Some s)) = filter nonspace s
      /\ normalized (clean_text (Some s))
  end.
Proof.
  pose proof (concat_split_from (strip s) []) as Hc. simpl in Hc.
  rewrite strip_content in Hc. fold (split (strip s)) in Hc.
  pose proof (split_tokens (strip s)) as Htoks.
  destruct (filter nonspace s) as [|c l] eqn:Hf.
  - assert (split (strip s) = []) as Hnil.
    { destruct (split (strip s)) as [|t toks]; [reflexivity |].
      inversion Htoks as [|? ? [Hne _] _]; subst.
      destruct t; [congruence | discriminate]. }
    unfold clean_text. destruct s; [reflexivity |]. simpl.
    rewrite Hnil. reflexivity.
  - assert (s <> []) as Hs by (intros ->; discriminate).
    assert (split (strip s) <> []) as Hne by (intros Hnil; rewrite Hnil in Hc; discriminate).
    assert (clean_text (Some s) = join (py " ") (split (strip s))) as Hclean.
    { unfold clean_text. destruct s; [congruence |]. simpl.
      unfold or_unknown. destruct (truthy _) eqn:Hj; [reflexivity |].
      exfalso. apply Hne. apply (join_nil_inv (py " ")).
      - eapply Forall_impl; [exact Htoks |]. intros t [Ht _]. exact Ht.
      - destruct (join _ _); [reflexivity | discriminate]. }
    split.
    + rewrite Hclean, join_content by exact Htoks. exact Hc.
    + rewrite Hclean. apply spaced_normalized, join_spaced; assumption.
Qed.

(** ** helpers.py and kpi2_parse_specs.py *)

Section ParseSpecsProperties.

Variable re_search : str -> str -> re_flag -> option Match.

Lemma run_regexes_fixed (text : str) (patterns : list str) :
  cleaned (run_regexes re_search text patterns)
  /\ clean_text (Some (run_regexes re_search text patterns))
     = run_regexes re_search text patterns.
Proof.
  induction patterns as [|p rest IH]; simpl.
  - split; [left; reflexivity | reflexivity].
  - destruct (re_search p text IGNORECASE) as [m |]; [| exact IH].
    destruct (nonempty_groups m);
      (split; [apply clean_text_normalized | apply clean_text_fixed, clean_text_cases]).
Qed.

(** X3. Whatever the matcher finds, [run_regexes] gives the placeholder
    or a normalized text, and cleaning it again changes nothing. *)
Theorem run_regexes_cleaned (text : str) (patterns : list str) :
  cleaned (run_regexes re_search text patterns)
  /\ clean_text (Some (run_regexes re_search text patterns))
     = run_regexes re_search text patterns.
Proof. apply run_regexes_fixed. Qed.


(** X5. [parse_specs] returns the seven fields in their order, for
    every argument and every matcher, and each value is the placeholder
    or a normalized text that cleaning leaves as it is. *)
Theorem parse_specs_fields (data : data_arg) :
  map fst (parse_specs re_search data) = spec_fields
  /\ Forall (fun kv => cleaned (snd kv) /\ clean_text (Some (snd kv)) = snd kv)
       (parse_specs re_search data).
Proof.
  split; [reflexivity |].
  unfold parse_specs. repeat (apply Forall_cons_2; [apply run_regexes_fixed |]).
  apply Forall_nil_2.
Qed.

End ParseSpecsProperties.

(** ** bs4: the attributes of a tag *)

Lemma dict_get_set (d : dict) (k v key : str) :
  dict_get (dict_set d k v) key
  = if decide (k = key) then Some v else dict_get d key.
Proof.
  induction d as [|[k' v'] d IH]; simpl; unfold str_eqb.
  - destruct (decide (k = key)) as [-> | Hne].
    + rewrite bool_decide_eq_true_2 by reflexivity. reflexivity.
    + rewrite bool_decide_eq_false_2 by exact Hne. reflexivity.
  - destruct (decide (k' = k)) as [-> | Hk].
    + rewrite bool_decide_eq_true_2 by reflexivity. simpl. unfold str_eqb.
      destruct (decide (k = key)) as [-> | Hne].
      * rewrite bool_decide_eq_true_2 by reflexivity. reflexivity.
      * rewrite bool_decide_eq_false_2 by exact Hne. reflexivity.
    + rewrite bool_decide_eq_false_2 by exact Hk. simpl. unfold str_eqb.
      destruct (decide (k' = key)) as [-> | Hne].
      * rewrite bool_decide_eq_true_2 by reflexivity.
        rewrite decide_False by congruence. reflexivity.
      * rewrite bool_decide_eq_false_2 by exact Hne. exact IH.
Qed.

Lemma dict_set_keys (d : dict) (k v : str) :
  map fst (dict_set d k v)
  = if bool_decide (k ∈ map fst d) then map fst d else map fst d ++ [k].
Proof.
  induction d as [|[k' v'] d IH]; simpl; [reflexivity |]. unfold str_eqb.
  destruct (decide (k' = k)) as [-> | Hk].
  - rewrite bool_decide_eq_true_2 by reflexivity.
    rewrite bool_decide_eq_true_2 by left. reflexivity.
  - rewrite bool_decide_eq_false_2 by exact Hk. simpl. rewrite IH.
    destruct (decide (k ∈ map fst d)) as [Hin | Hnin].
    + rewrite !bool_decide_eq_true_2; [reflexivity | right; exact Hin | exact Hin].
    + rewrite !bool_decide_eq_false_2; [reflexivity | | exact Hnin].
      intros Hin. apply elem_of_cons in Hin as [-> | Hin]; [congruence | tauto].
Qed.

Lemma attrs_dict_snoc (ats : list (str * option str)) kv :
  attrs_dict (ats ++ [kv])
  = dict_set (attrs_dict ats) (fst kv) (or_empty (snd kv)).
Proof. unfold attrs_dict. rewrite foldl_app. reflexivity. Qed.

Lemma attrs_dict_get (ats : list (str * option str)) (key : str) :
  dict_get (attrs_dict ats) key
  = (fun kv => or_empty (snd kv)) <$> last (filter (fun kv => fst kv = key) ats).
Proof.
  induction ats as [|kv ats IH] using rev_ind; [reflexivity |].
  rewrite attrs_dict_snoc, dict_get_set, filter_app, filter_cons, filter_nil.
  destruct (decide (fst kv = key)) as [Heq | Hne].
  - rewrite last_snoc. reflexivity.
  - rewrite app_nil_r. exact IH.
Qed.

Lemma attrs_dict_keys (ats : list (str * option str)) :
  NoDup (map fst (attrs_dict ats))
  /\ forall key, key ∈ map fst (attrs_dict ats) <-> key ∈ map fst ats.
Proof.
  induction ats as [|kv ats [IHnd IHin]] using rev_ind.
  - split; [constructor | tauto].
  - rewrite attrs_dict_snoc, dict_set_keys, map_app. simpl.
    destruct (decide (fst kv ∈ map fst (attrs_dict ats))) as [Hin | Hnin].
    + rewrite bool_decide_eq_true_2 by exact Hin. split; [exact IHnd |].
      intros key. rewrite elem_of_app, list_elem_of_singleton, IHin.
      split; [tauto |]. intros [Hk | ->]; [exact Hk | apply IHin, Hin].
    + rewrite bool_decide_eq_false_2 by exact Hnin. split.
      * apply NoDup_app. split; [exact IHnd |]. split; [| apply NoDup_singleton].
        intros x Hx Hx'. apply list_elem_of_singleton in Hx'. subst x. tauto.
      * intros key. rewrite !elem_of_app, IHin. tauto.
Qed.

(** X6. A tag reads its attributes as the start tag wrote them: the
    value of the last occurrence of the name, the empty string when that
    occurrence has no value, and no entry when the name does not occur.
    [get] gives [None] there, [has_attr] is false, and indexing raises
    [KeyError]; no name is held twice. *)
Theorem Tag_reads_the_start_tag (a : arena) (n : node_id)
    (ats : list (str * option str)) (key : str) :
  attrs (a !!! n) = attrs_dict ats ->
  let value :=
    (fun kv => or_empty (snd kv)) <$> last (filter (fun kv => fst kv = key) ats) in
  Tag_get a n key = value
  /\ has_attr a n key = bool_decide (key ∈ map fst ats)
  /\ Tag_getitem a n key
     = match value with
       | Some v => Ok v
       | None => Raise (OtherException "KeyError")
       end
  /\ NoDup (map fst (attrs (a !!! n))).
Proof.
  intros Hats value. unfold Tag_get, has_attr, Tag_getitem, dict_has.
  rewrite Hats. pose proof (attrs_dict_get ats key) as Hget. fold value in Hget.
  rewrite Hget. destruct (attrs_dict_keys ats) as [Hnd Hin].
  split; [reflexivity |]. split; [| split; [reflexivity | exact Hnd]].
  assert (is_Some value <-> key ∈ map fst ats) as Hiff.
  { unfold value. rewrite fmap_is_Some. split.
    - intros [kv Hkv]. apply last_Some in Hkv as [l Hl].
      assert (kv ∈ filter (fun kv => fst kv = key) ats) as Hm.
      { rewrite Hl. apply elem_of_app. right. left. }
      apply list_elem_of_filter in Hm as [<- Hm].
      apply list_elem_of_fmap. exists kv. split; [reflexivity | exact Hm].
    - intros Hk. apply list_elem_of_fmap in Hk as (kv & -> & Hm).
      assert (kv ∈ filter (fun kv' => fst kv' = fst kv) ats) as Hf.
      { apply list_elem_of_filter. split; [reflexivity | exact Hm]. }
      destruct (filter (fun kv' => fst kv' = fst kv) ats) as [|x l] eqn:Hl using rev_ind.
      + apply elem_of_nil in Hf. contradiction.
      + rewrite last_snoc. eauto. }
  destruct value as [v |].
  - rewrite bool_decide_eq_true_2; [reflexivity |]. apply Hiff. eauto.
  - rewrite bool_decide_eq_false_2; [reflexivity |].
    intros Hk. apply Hiff in Hk. destruct Hk as [? Hk]. discriminate.
Qed.

(** ** bs4: the document a markup builds *)

Lemma bind_Ok {A B} (m : outcome A) (k : A -> outcome B) r :
  (x ← m; k x) = Ok r -> exists x, m = Ok x /\ k x = Ok r.
Proof. destruct m as [x | e |]; [eauto | discriminate | discriminate]. Qed.

Lemma items_children_app on_node cs ds :
  items_children on_node (cs ++ ds)
  = (l ← items_children on_node cs; m ← items_children on_node ds; Ok (l ++ m)).
Proof.
  induction cs as [|[c | s] cs IH]; simpl.
  - destruct (items_children on_node ds); reflexivity.
  - destruct (on_node c) as [l | |]; [| reflexivity | reflexivity]. simpl.
    rewrite IH. destruct (items_children on_node cs) as [l1 | |]; [| reflexivity ..].
    simpl. destruct (items_children on_node ds) as [l2 | |]; [| reflexivity ..].
    simpl. rewrite <- app_assoc. reflexivity.
  - rewrite IH. destruct (items_children on_node cs) as [l1 | |]; [| reflexivity ..].
    simpl. destruct (items_children on_node ds) as [l2 | |]; reflexivity.
Qed.

Lemma items_children_ext F G cs :
  (forall c, c ∈ child_ids cs -> F c = G c) ->
  items_children F cs = items_children G cs.
Proof.
  induction cs as [|[c | s] cs IH]; intros Hext; simpl.
  - reflexivity.
  - rewrite <- (Hext c) by (rewrite child_ids_cons_node; left).
    rewrite IH; [reflexivity |].
    intros c' Hc'. apply Hext. rewrite child_ids_cons_node. right. exact Hc'.
  - rewrite IH; [reflexivity |].
    intros c' Hc'. apply Hext. rewrite child_ids_cons_text. exact Hc'.
Qed.

Lemma items_children_mono F G cs :
  (forall c lc, c ∈ child_ids cs -> F c = Ok lc -> G c = Ok lc) ->
  forall l, items_children F cs = Ok l -> items_children G cs = Ok l.
Proof.
  induction cs as [|[c | s] cs IH]; intros Hm l Hl; simpl in Hl |- *.
  - exact Hl.
  - apply bind_Ok in Hl as (lc & Hc & Hl). apply bind_Ok in Hl as (m & Hr & Hl).
    rewrite (Hm c lc); [| rewrite child_ids_cons_node; left | exact Hc].
    simpl. rewrite (IH ltac:(intros c' lc' Hin; apply Hm;
                              rewrite child_ids_cons_node; right; exact Hin) m Hr).
    exact Hl.
  - apply bind_Ok in Hl as (m & Hr & Hl).
    rewrite (IH ltac:(intros c' lc' Hin; apply Hm;
                      rewrite child_ids_cons_text; exact Hin) m Hr).
    exact Hl.
Qed.

(** More fuel gives the same walk. *)
Lemma items_fuel_more (a : arena) fuel : forall n l,
  items_fuel fuel a n = Ok l -> items_fuel (S fuel) a n = Ok l.
Proof.
  induction fuel as [|fuel IH]; intros n l Hl; [discriminate |].
  change (items_children (items_fuel (S fuel) a) (children (a !!! n)) = Ok l).
  change (items_children (items_fuel fuel a) (children (a !!! n)) = Ok l) in Hl.
  revert l Hl. apply items_children_mono. intros c lc _. apply IH.
Qed.

Lemma items_fuel_mono (a : arena) fuel fuel' n l :
  (fuel <= fuel')%nat -> items_fuel fuel a n = Ok l -> items_fuel fuel' a n = Ok l.
Proof.
  induction 1 as [|fuel' _ IH]; [tauto |]. intros Hl. apply items_fuel_more, IH, Hl.
Qed.

(** The walk of a tree comes back. *)
Lemma items_children_total on_node cs :
  (forall c, c ∈ child_ids cs -> exists l, on_node c = Ok l) ->
  exists m, items_children on_node cs = Ok m.
Proof.
  induction cs as [|[c | s] cs IH]; intros Hall; simpl.
  - eauto.
  - destruct (Hall c) as [l ->]; [rewrite child_ids_cons_node; left |].
    destruct IH as [m ->]; [| simpl; eauto].
    intros c' Hc'. apply Hall. rewrite child_ids_cons_node. right. exact Hc'.
  - destruct IH as [m ->]; [| simpl; eauto].
    intros c' Hc'. apply Hall. rewrite child_ids_cons_text. exact Hc'.
Qed.

Lemma items_fuel_total (a : arena) :
  tree_ok a -> forall fuel n,
  (n < length a)%nat -> (length a - n <= fuel)%nat ->
  exists l, items_fuel fuel a n = Ok l.
Proof.
  intros Hok fuel. induction fuel as [|fuel IH]; intros n Hn Hfuel; [lia |].
  simpl. apply items_children_total. intros c Hc.
  destruct (child_in_range a n c Hok Hn Hc) as [Hrange _].
  apply IH; lia.
Qed.

(** ** Appending a child at the cursor *)

Lemma grows_text (a : arena) cur c :
  (cur < length a)%nat -> grows a (append_child a cur c) cur c.
Proof.
  intros Hcur j Hj. rewrite append_child_children.
  destruct (decide (j = cur)) as [-> | Hne].
  - rewrite decide_True by (split; [reflexivity | lia]). reflexivity.
  - rewrite decide_False by (intros [? _]; congruence). reflexivity.
Qed.

Lemma grows_node (a : arena) cur nd :
  (cur < length a)%nat ->
  grows a (append_child (a ++ [nd]) cur (ChildNode (length a))) cur
    (ChildNode (length a)).
Proof.
  intros Hcur j Hj. rewrite append_child_children.
  assert (forall i, (i < length a)%nat -> (a ++ [nd]) !!! i = a !!! i) as Hold.
  { intros i Hi. apply lookup_total_app_l, Hi. }
  destruct (decide (j = cur)) as [-> | Hne].
  - rewrite decide_True by (split; [reflexivity | rewrite length_app; lia]).
    rewrite Hold by lia. reflexivity.
  - rewrite decide_False by (intros [? _]; congruence). apply f_equal, Hold, Hj.
Qed.

Section Grow.

Variables (a a' : arena) (cur : node_id) (c : child) (tail : list item).

Hypothesis Hok : tree_ok a.
Hypothesis Hcur : (cur < length a)%nat.
Hypothesis Hgrows : grows a a' cur c.
Hypothesis Hspine : spine a cur.
Hypothesis Htail :
  forall fuel, items_children (items_fuel (S fuel) a') [c] = Ok tail.

(** A node the cursor is not below keeps its walk. *)
Lemma items_fuel_aside fuel : forall n,
  (n < length a)%nat -> ~ reach a cur n ->
  items_fuel fuel a' n = items_fuel fuel a n.
Proof.
  induction fuel as [|fuel IH]; intros n Hn Hnot; [reflexivity |].
  simpl. rewrite Hgrows by exact Hn.
  rewrite decide_False by (intros ->; apply Hnot; constructor).
  apply items_children_ext. intros m Hm.
  destruct (child_in_range a n m Hok Hn Hm) as [Hrange Hpar].
  apply IH; [lia |]. intros Hreach. apply Hnot.
  eapply reach_trans; [exact Hreach |].
  eapply reach_up; [exact Hpar | constructor].
Qed.

(** An ancestor of the cursor other than the cursor has the next one
    on the way down as its last child. *)
Lemma reach_last_step x n :
  reach a x n -> x <> n ->
  exists m, reach a x m /\ parent (a !!! m) = Some n.
Proof.
  induction 1 as [x | x p n Hp Hreach IH]; intros Hne; [congruence |].
  destruct (decide (p = n)) as [-> | Hpn].
  - exists x. split; [constructor | exact Hp].
  - destruct (IH Hpn) as (m & Hm & Hpar). exists m. split; [| exact Hpar].
    eapply reach_up; eassumption.
Qed.

(** The cursor and its ancestors get the new items at the end. *)
Lemma items_fuel_below fuel : forall n l,
  reach a cur n -> items_fuel fuel a n = Ok l ->
  items_fuel (S fuel) a' n = Ok (l ++ tail).
Proof.
  induction fuel as [|fuel IH]; intros n l Hreach Hl; [discriminate |].
  pose proof (reach_le a cur n Hok Hreach) as Hle.
  assert (n < length a)%nat as Hn by lia.
  change (items_children (items_fuel (S fuel) a') (children (a' !!! n))
          = Ok (l ++ tail)).
  change (items_children (items_fuel fuel a) (children (a !!! n)) = Ok l) in Hl.
  rewrite Hgrows by exact Hn.
  assert (forall cs l1, 
            (forall m, m ∈ child_ids cs -> m ∈ child_ids (children (a !!! n))) ->
            (forall m, m ∈ child_ids cs -> ~ reach a cur m) ->
            items_children (items_fuel fuel a) cs = Ok l1 ->
            items_children (items_fuel (S fuel) a') cs = Ok l1) as Hside.
  { intros cs l1 Hsub Hnot. apply items_children_mono. intros m lm Hm Hlm.
    destruct (child_in_range a n m Hok Hn (Hsub m Hm)) as [Hrange _].
    rewrite items_fuel_aside by (try lia; apply Hnot, Hm).
    apply items_fuel_more, Hlm. }
  destruct (decide (n = cur)) as [-> | Hne].
  - rewrite items_children_app.
    rewrite (Hside (children (a !!! cur)) l); [| tauto | | exact Hl].
    + rewrite Htail. reflexivity.
    + intros m Hm Hr.
      destruct (child_in_range a cur m Hok Hn Hm) as [Hrange _].
      pose proof (reach_le a cur m Hok Hr). lia.
  - destruct (reach_last_step cur n Hreach) as (m & Hm & Hpar); [congruence |].
    pose proof (Hspine m n Hm Hpar) as Hlast.
    apply last_Some in Hlast as [cs Hcs].
    pose proof (proj2 (proj2 (proj2 (proj2 Hok))) n Hn) as Hnd.
    rewrite Hcs in Hl, Hnd, Hside |- *.
    rewrite items_children_app in Hl |- *.
    apply bind_Ok in Hl as (l1 & Hl1 & Hl).
    apply bind_Ok in Hl as (l2 & Hl2 & Hl).
    simpl in Hl2. apply bind_Ok in Hl2 as (lm & Hlm & Hl2).
    simpl in Hl2. injection Hl2 as <-. injection Hl as <-.
    rewrite child_ids_app in Hnd. apply NoDup_app in Hnd as (_ & Hdisj & _).
    rewrite (Hside cs l1 ltac:(intros x Hx; rewrite child_ids_app; apply elem_of_app; left; exact Hx)); [| | exact Hl1].
    + cbn [items_children]. rewrite (IH m lm Hm Hlm). simpl.
      rewrite !app_nil_r, <- !app_assoc. reflexivity.
    + intros x Hx Hr.
      assert (x ∈ child_ids (cs ++ [ChildNode m])) as Hx'.
      { rewrite child_ids_app. apply elem_of_app. left. exact Hx. }
      rewrite <- Hcs in Hx'.
      destruct (child_in_range a n x Hok Hn Hx') as [_ Hpx].
      assert (x = m) as -> by (eapply reach_one_child; eassumption).
      apply (Hdisj m Hx). simpl. left.
Qed.

End Grow.

Lemma items_fuel_any (a : arena) fuel fuel' n l :
  tree_ok a -> (n < length a)%nat -> (length a - n <= fuel)%nat ->
  items_fuel fuel' a n = Ok l -> items_fuel fuel a n = Ok l.
Proof.
  intros Hok Hn Hfuel Hl.
  destruct (items_fuel_total a Hok fuel n Hn Hfuel) as [l' Hl'].
  pose proof (items_fuel_mono a fuel (fuel + fuel') n l' ltac:(lia) Hl') as H1.
  pose proof (items_fuel_mono a fuel' (fuel + fuel') n l ltac:(lia) Hl) as H2.
  congruence.
Qed.

(** ** The steps of the builder *)

Lemma reach_root (a : arena) :
  tree_ok a -> forall n, (n < length a)%nat -> reach a n ROOT.
Proof.
  intros Hok n. induction n as [n IH] using lt_wf_ind. intros Hn.
  destruct (decide (n = ROOT)) as [-> | Hne]; [constructor |].
  destruct Hok as (Hlen & Hroot & Hpar & Hrest).
  destruct (Hpar n) as (p & Hp & Hlt); [unfold ROOT in Hne; lia |].
  eapply reach_up; [exact Hp |]. apply IH; lia.
Qed.

Lemma open_elements_reach (a : arena) n l m :
  open_elements a n l -> m ∈ l -> reach a n m.
Proof.
  induction 1 as [| n p l Hne Hp Hopen IH]; intros Hm.
  - apply elem_of_nil in Hm. contradiction.
  - apply elem_of_cons in Hm as [-> | Hm]; [constructor |].
    eapply reach_up; [exact Hp | apply IH, Hm].
Qed.

Section Steps.

Context `{Runtime}.

(** What a handler call does to the builder: it appends a text that
    is not empty at the cursor; or it leaves the nodes alone and keeps
    the cursor or moves it up, to the root or to a node that has a
    child; or it makes a node, appends it at the cursor, and moves the
    cursor there unless the tag is void or self-closed. *)
Lemma handle_cases (b b' : Builder) (e : event) :
  builder_ok b -> handle b e = Ok b' ->
  (event_node e = None /\ event_text e <> []
   /\ nodes b' = append_child (nodes b) (current b) (ChildText (event_text e))
   /\ current b' = current b)
  \/ (event_node e = None /\ event_text e = []
      /\ nodes b' = nodes b
      /\ reach (nodes b) (current b) (current b')
      /\ (current b' = current b \/ current b' = ROOT
          \/ exists m, (m < length (nodes b))%nat
               /\ parent (nodes b !!! m) = Some (current b')))
  \/ (exists tag ats,
        event_node e = Some (tag, attrs_dict ats)
        /\ nodes b'
           = append_child (nodes b ++ [new_node tag ats (Some (current b))])
               (current b) (ChildNode (length (nodes b)))
        /\ (current b' = current b
            \/ current b' = length (nodes b)
               /\ is_void (lower tag) = false)).
Proof.
  intros Hb He. destruct e as [tag ats | tag ats | tag | data | nm | nm | data];
    simpl in He.
  - right. right. exists tag, ats. split; [reflexivity |].
    injection He as <-. unfold handle_starttag.
    destruct (is_void (lower tag)) eqn:Hv; simpl; split; auto.
  - right. right. exists tag, ats. split; [reflexivity |].
    injection He as <-. simpl. split; auto.
  - right. left. split; [reflexivity |]. split; [reflexivity |].
    destruct Hb as [Hok Hcur].
    destruct (open_elements_exist (nodes b) Hok (current b) Hcur) as (l & Hl & _).
    destruct (handle_endtag_closes b tag l (conj Hok Hcur) Hl)
      as (b2 & Hb2 & Hnodes & Hlt & Hfind).
    rewrite Hb2 in He. injection He as ->.
    split; [exact Hnodes |].
    destruct (list_find _ l) as [[i m] |] eqn:Hf.
    + apply list_find_Some in Hf as (Hi & _ & _).
      apply list_elem_of_lookup_2 in Hi.
      pose proof (open_elements_reach _ _ _ _ Hl Hi) as Hr.
      pose proof (open_elements_range _ _ _ Hok Hcur Hl) as Hrange.
      rewrite Forall_forall in Hrange. destruct (Hrange m Hi) as [_ Hm].
      split.
      * eapply reach_trans; [exact Hr |].
        eapply reach_up; [exact Hfind | constructor].
      * right. right. exists m. split; assumption.
    + split; [rewrite Hfind; apply reach_root; assumption |]. auto.
  - unfold handle_data in He. destruct data as [|c data]; simpl in He;
      injection He as <-.
    + right. left. repeat split; auto. constructor.
    + left. repeat split; auto; discriminate.
  - injection He as <-. left. repeat split; auto; discriminate.
  - change (handle_charref b nm)
      with (c ← charref_char nm; Ok (handle_data b [c])) in He.
    apply bind_Ok in He as (c & Hc & He). injection He as <-.
    left. simpl. rewrite Hc. repeat split; auto; discriminate.
  - injection He as <-. left. repeat split; auto; discriminate.
Qed.

Lemma feed_app (es1 es2 : list event) : forall b,
  feed b (es1 ++ es2) = (b1 ← feed b es1; feed b1 es2).
Proof.
  induction es1 as [|e es1 IH]; intros b; [reflexivity |]. simpl.
  destruct (handle b e) as [b1 | |]; [| reflexivity ..]. simpl. apply IH.
Qed.

(** A markup without character references builds a document. *)
Lemma feed_returns (es : list event) : forall b,
  builder_ok b -> (forall nm, Charref nm ∉ es) -> exists b', feed b es = Ok b'.
Proof.
  induction es as [|e es IH]; intros b Hb Hno; [simpl; eauto |].
  assert (exists b1, handle b e = Ok b1) as [b1 Hb1].
  { destruct e; simpl; eauto.
    - destruct Hb as [Hok Hcur].
      destruct (open_elements_exist (nodes b) Hok (current b) Hcur) as (l & Hl & _).
      destruct (handle_endtag_closes b tag l (conj Hok Hcur) Hl) as (b2 & Hb2 & _).
      eauto.
    - exfalso. apply (Hno nm). left. }
  simpl. rewrite Hb1. simpl. apply IH.
  - eapply handle_ok; eassumption.
  - intros nm Hin. apply (Hno nm). right. exact Hin.
Qed.

End Steps.

(** ** The cursor stays on the right edge *)

Lemma reach_agree (a a' : arena) :
  tree_ok a ->
  (forall j, (j < length a)%nat -> parent (a' !!! j) = parent (a !!! j)) ->
  forall x n, (x < length a)%nat -> reach a' x n <-> reach a x n.
Proof.
  intros Hok Hpar x n Hx. split.
  - intros Hr. induction Hr as [x | x p n Hp Hr IH]; [constructor |].
    rewrite Hpar in Hp by exact Hx.
    pose proof (parent_lt a x p Hok Hp).
    eapply reach_up; [exact Hp | apply IH; lia].
  - intros Hr. induction Hr as [x | x p n Hp Hr IH]; [constructor |].
    pose proof (parent_lt a x p Hok Hp).
    eapply reach_up; [rewrite Hpar by exact Hx; exact Hp | apply IH; lia].
Qed.

Lemma spine_grows (a a' : arena) cur c :
  tree_ok a -> (cur < length a)%nat -> grows a a' cur c ->
  (forall j, (j < length a)%nat -> parent (a' !!! j) = parent (a !!! j)) ->
  spine a cur -> spine a' cur.
Proof.
  intros Hok Hcur Hgrows Hpar Hspine n p Hr Hp.
  apply (reach_agree a a' Hok Hpar cur n Hcur) in Hr.
  pose proof (reach_le a cur n Hok Hr) as Hle.
  rewrite Hpar in Hp by lia.
  pose proof (parent_lt a n p Hok Hp) as Hlt.
  rewrite Hgrows by lia. rewrite decide_False by lia.
  apply Hspine; assumption.
Qed.

Lemma spine_up (a : arena) cur n : spine a cur -> reach a cur n -> spine a n.
Proof.
  intros Hspine Hr m p Hm Hp. apply Hspine; [| exact Hp].
  eapply reach_trans; eassumption.
Qed.

Lemma new_node_lookup (a : arena) cur nd c :
  (cur < length a)%nat ->
  append_child (a ++ [nd]) cur c !!! length a = nd.
Proof.
  intros Hcur. unfold append_child.
  rewrite list_lookup_total_alter_ne by lia.
  rewrite lookup_total_app_r by lia. rewrite Nat.sub_diag. reflexivity.
Qed.

Lemma old_node_parent (a : arena) cur nd c j :
  (j < length a)%nat ->
  parent (append_child (a ++ [nd]) cur c !!! j) = parent (a !!! j).
Proof.
  intros Hj. rewrite append_child_parent, lookup_total_app_l by exact Hj.
  reflexivity.
Qed.

Lemma spine_new_node (a : arena) cur nm ats :
  tree_ok a -> (cur < length a)%nat -> spine a cur ->
  spine (append_child (a ++ [new_node nm ats (Some cur)]) cur (ChildNode (length a)))
    (length a).
Proof.
  intros Hok Hcur Hspine.
  set (nd := new_node nm ats (Some cur)).
  set (a' := append_child (a ++ [nd]) cur (ChildNode (length a))).
  pose proof (grows_node a cur nd Hcur) as Hgrows. fold a' in Hgrows.
  assert (a' !!! length a = nd) as Hnew by (apply new_node_lookup, Hcur).
  assert (forall j, (j < length a)%nat -> parent (a' !!! j) = parent (a !!! j))
    as Hpar by (intros j Hj; apply old_node_parent, Hj).
  pose proof (spine_grows a a' cur _ Hok Hcur Hgrows Hpar Hspine) as Hspine'.
  intros n p Hr Hp. inversion Hr as [x | x q n' Hq Hr']; subst.
  - rewrite Hnew in Hp. injection Hp as <-.
    rewrite Hgrows by exact Hcur. rewrite decide_True by reflexivity.
    apply last_snoc.
  - rewrite Hnew in Hq. injection Hq as <-. apply Hspine'; assumption.
Qed.

Section Walk.

Context `{Runtime}.

Lemma handle_length (b b' : Builder) (e : event) :
  builder_ok b -> handle b e = Ok b' ->
  length (nodes b') = (length (nodes b) + length (created [e]))%nat.
Proof.
  intros Hb He.
  destruct (handle_cases b b' e Hb He)
    as [(Hn & _ & -> & _) | [(Hn & _ & -> & _) | (tag & ats & Hn & -> & _)]];
    unfold created; simpl; rewrite Hn; simpl;
    rewrite ?append_child_length, ?length_app; simpl; lia.
Qed.

Lemma handle_spine (b b' : Builder) (e : event) :
  builder_ok b -> spine (nodes b) (current b) -> handle b e = Ok b' ->
  spine (nodes b') (current b').
Proof.
  intros Hb Hspine He. pose proof Hb as [Hok Hcur].
  destruct (handle_cases b b' e Hb He)
    as [(_ & _ & -> & ->) | [(_ & _ & -> & Hr & _) | (tag & ats & _ & -> & Hc)]].
  - eapply spine_grows; eauto using grows_text.
    intros j _. apply append_child_parent.
  - eapply spine_up; eassumption.
  - destruct Hc as [-> | [-> _]].
    + eapply spine_grows; eauto using grows_node.
      intros j Hj. apply old_node_parent, Hj.
    + apply spine_new_node; assumption.
Qed.

Lemma history_one (next : nat) (e : event) (es : list event) :
  history next (e :: es)
  = history next [e] ++ history (next + length (created [e])) es.
Proof.
  unfold created. simpl. destruct (event_node e); simpl.
  - rewrite Nat.add_1_r. reflexivity.
  - rewrite Nat.add_0_r, app_nil_r. reflexivity.
Qed.

Lemma handle_items (b b' : Builder) (e : event) l :
  builder_ok b -> spine (nodes b) (current b) -> handle b e = Ok b' ->
  items_fuel (length (nodes b)) (nodes b) ROOT = Ok l ->
  items_fuel (length (nodes b')) (nodes b') ROOT
  = Ok (l ++ history (length (nodes b)) [e]).
Proof.
  intros Hb Hspine He Hl. pose proof Hb as [Hok Hcur].
  pose proof (handle_ok b e b' Hb He) as [Hok' Hcur'].
  pose proof (reach_root (nodes b) Hok (current b) Hcur) as Hroot.
  assert (ROOT < length (nodes b'))%nat as Hlen by (unfold ROOT; lia).
  destruct (handle_cases b b' e Hb He)
    as [(Hn & Ht & Ha & _) | [(Hn & Ht & Ha & _) | (tag & ats & Hn & Ha & _)]];
    simpl; rewrite Hn.
  - apply (items_fuel_any _ _ (S (length (nodes b)))); [assumption | | lia |].
    { exact Hlen. }
    destruct (event_text e) as [|ch t] eqn:Htext; [congruence |].
    simpl.
    apply (items_fuel_below (nodes b) (nodes b') (current b)
             (ChildText (ch :: t)) [ItemText (ch :: t)] Hok Hcur);
      [| assumption | | assumption | assumption].
    + rewrite Ha. apply grows_text, Hcur.
    + intros fuel. reflexivity.
  - rewrite Ht. simpl. rewrite app_nil_r, Ha. exact Hl.
  - apply (items_fuel_any _ _ (S (length (nodes b)))); [assumption | | lia |].
    { exact Hlen. }
    apply (items_fuel_below (nodes b) (nodes b') (current b)
             (ChildNode (length (nodes b))) [ItemNode (length (nodes b))] Hok Hcur);
      [| assumption | | assumption | assumption].
    + rewrite Ha. apply grows_node, Hcur.
    + intros fuel. cbn [items_children items_fuel].
      rewrite Ha, new_node_lookup by exact Hcur. reflexivity.
Qed.

(** The walk of the document is the history of its markup. *)
Lemma feed_items (es : list event) : forall b b' l,
  builder_ok b -> spine (nodes b) (current b) ->
  items_fuel (length (nodes b)) (nodes b) ROOT = Ok l ->
  feed b es = Ok b' ->
  items_fuel (length (nodes b')) (nodes b') ROOT
  = Ok (l ++ history (length (nodes b)) es)
  /\ length (nodes b') = (length (nodes b) + length (created es))%nat.
Proof.
  induction es as [|e es IH]; intros b b' l Hb Hspine Hl Hfeed.
  - injection Hfeed as <-. simpl. rewrite app_nil_r, Nat.add_0_r. auto.
  - simpl in Hfeed. apply bind_Ok in Hfeed as (b1 & He & Hfeed).
    pose proof (handle_length b b1 e Hb He) as Hlen.
    destruct (IH b1 b' _ (handle_ok b e b1 Hb He)
                (handle_spine b b1 e Hb Hspine He)
                (handle_items b b1 e l Hb Hspine He Hl) Hfeed) as [Hitems Hlen'].
    split.
    + rewrite Hitems, Hlen, (history_one _ e es), app_assoc. reflexivity.
    + rewrite Hlen', Hlen. change (e :: es) with ([e] ++ es).
      unfold created. rewrite omap_app, length_app. lia.
Qed.

Lemma spine_init : spine (nodes init_builder) (current init_builder).
Proof.
  intros n p Hr Hp. exfalso.
  inversion Hr as [x | x q n' Hq Hr']; subst.
  - discriminate.
  - discriminate.
Qed.

Lemma build_items (es : list event) (a : arena) :
  build es = Ok a ->
  items_fuel (length a) a ROOT = Ok (history 1 es)
  /\ length a = S (length (created es)).
Proof.
  unfold build. intros Hb. apply bind_Ok in Hb as (b & Hfeed & Hb).
  injection Hb as <-.
  apply (feed_items es init_builder b [] init_builder_ok spine_init eq_refl Hfeed).
Qed.

End Walk.

(** ** What the walk gives the queries *)

Lemma item_texts_app l m : item_texts (l ++ m) = item_texts l ++ item_texts m.
Proof. apply omap_app. Qed.

Lemma item_nodes_app l m : item_nodes (l ++ m) = item_nodes l ++ item_nodes m.
Proof. apply omap_app. Qed.

Lemma join_children_items F G cs l :
  items_children F cs = Ok l ->
  (forall c lc, c ∈ child_ids cs -> F c = Ok lc ->
     G c = Ok (concat (item_texts lc))) ->
  join_children G cs = Ok (concat (item_texts l)).
Proof.
  revert l. induction cs as [|[c | s] cs IH]; intros l Hl HG; simpl in Hl |- *.
  - injection Hl as <-. reflexivity.
  - apply bind_Ok in Hl as (lc & Hc & Hl). apply bind_Ok in Hl as (m & Hm & Hl).
    injection Hl as <-.
    rewrite (HG c lc); [| rewrite child_ids_cons_node; left | exact Hc].
    rewrite (IH m Hm).
    + replace (item_texts (ItemNode c :: lc ++ m))
        with (item_texts lc ++ item_texts m)
        by (simpl; rewrite item_texts_app; reflexivity).
      rewrite concat_app. reflexivity.
    + intros c' lc' Hin. apply HG. rewrite child_ids_cons_node. right. exact Hin.
  - apply bind_Ok in Hl as (m & Hm & Hl). injection Hl as <-.
    rewrite (IH m Hm); [reflexivity |].
    intros c' lc' Hin. apply HG. rewrite child_ids_cons_text. exact Hin.
Qed.

Lemma text_content_items (a : arena) fuel : forall n l,
  items_fuel fuel a n = Ok l ->
  text_content_fuel fuel a n = Ok (concat (item_texts l)).
Proof.
  induction fuel as [|fuel IH]; intros n l Hl; [discriminate |].
  simpl in Hl |- *. eapply join_children_items; [exact Hl |].
  intros c lc _. apply IH.
Qed.

(** The elements of a walk that [_iter_nodes] yields. *)
Lemma iter_children_items (a : arena) F G cs l :
  items_children F cs = Ok l ->
  (forall c lc, c ∈ child_ids cs -> F c = Ok lc ->
     G c = Ok (filter (fun x => name (a !!! x) <> ROOT_NAME) (c :: item_nodes lc))) ->
  iter_children G cs
  = Ok (filter (fun x => name (a !!! x) <> ROOT_NAME) (item_nodes l)).
Proof.
  revert l. induction cs as [|[c | s] cs IH]; intros l Hl HG; simpl in Hl |- *.
  - injection Hl as <-. reflexivity.
  - apply bind_Ok in Hl as (lc & Hc & Hl). apply bind_Ok in Hl as (m & Hm & Hl).
    injection Hl as <-.
    rewrite (HG c lc); [| rewrite child_ids_cons_node; left | exact Hc].
    rewrite (IH m Hm).
    + replace (item_nodes (ItemNode c :: lc ++ m))
        with ((c :: item_nodes lc) ++ item_nodes m)
        by (simpl; rewrite item_nodes_app; reflexivity).
      rewrite filter_app. reflexivity.
    + intros c' lc' Hin. apply HG. rewrite child_ids_cons_node. right. exact Hin.
  - apply bind_Ok in Hl as (m & Hm & Hl). injection Hl as <-.
    apply (IH m Hm).
    intros c' lc' Hin. apply HG. rewrite child_ids_cons_text. exact Hin.
Qed.

Lemma _iter_nodes_items (a : arena) fuel : forall n incl l,
  items_fuel fuel a n = Ok l ->
  _iter_nodes_fuel fuel a n incl
  = Ok ((if incl && negb (str_eqb (name (a !!! n)) ROOT_NAME) then [n] else [])
        ++ filter (fun x => name (a !!! x) <> ROOT_NAME) (item_nodes l)).
Proof.
  induction fuel as [|fuel IH]; intros n incl l Hl; [discriminate |].
  simpl in Hl. cbn [_iter_nodes_fuel].
  rewrite (iter_children_items a (items_fuel fuel a)
             (fun c => _iter_nodes_fuel fuel a c true) _ l Hl); [reflexivity |].
  intros c lc _ Hlc. rewrite (IH c true lc Hlc). simpl.
  rewrite filter_cons. unfold str_eqb.
  destruct (decide (name (a !!! c) = ROOT_NAME)) as [Heq | Hne].
  - rewrite bool_decide_eq_true_2 by exact Heq.
    rewrite decide_False by tauto. reflexivity.
  - rewrite bool_decide_eq_false_2 by exact Hne.
    rewrite decide_True by exact Hne. reflexivity.
Qed.

Section Documents.

Context `{Runtime}.

Lemma history_nodes (es : list event) : forall next,
  item_nodes (history next es) = seq next (length (created es)).
Proof.
  unfold created.
  induction es as [|e es IH]; intros next; [reflexivity |]. simpl.
  destruct (event_node e); simpl.
  - rewrite IH. reflexivity.
  - rewrite item_nodes_app, IH.
    destruct (truthy (event_text e)); reflexivity.
Qed.

Lemma history_texts (es : list event) : forall next,
  concat (item_texts (history next es)) = concat (map event_text es).
Proof.
  induction es as [|e es IH]; intros next; [reflexivity |]. simpl.
  destruct (event_node e) eqn:Hn; simpl.
  - rewrite IH. destruct e; try discriminate; reflexivity.
  - rewrite item_texts_app, concat_app, IH.
    destruct (event_text e); simpl; rewrite ?app_nil_r; reflexivity.
Qed.

(** X7. A markup without character references always builds a
    document, however its tags are nested or left open. *)
Theorem build_returns (es : list event) :
  (forall nm, Charref nm ∉ es) -> exists a, build es = Ok a /\ tree_ok a.
Proof.
  intros Hno.
  destruct (feed_returns es init_builder init_builder_ok Hno) as [b Hb].
  exists (nodes b). assert (build es = Ok (nodes b)) as Hbuild.
  { unfold build. rewrite Hb. reflexivity. }
  split; [exact Hbuild | eapply build_tree_ok; exact Hbuild].
Qed.

(** X8. [get_text] of a document is the text of its markup in source
    order: the text runs, the characters of the references, and each
    comment as [<!--body-->], with nothing added between them. *)
Theorem get_text_of_document (es : list event) (a : arena) :
  build es = Ok a ->
  get_text a (BeautifulSoup ROOT) false = Ok (concat (map event_text es)).
Proof.
  intros Hbuild. destruct (build_items es a Hbuild) as [Hitems _].
  unfold get_text, text_content. simpl.
  rewrite (text_content_items a (length a) ROOT _ Hitems). simpl.
  rewrite history_texts. reflexivity.
Qed.

(** X9. [find_all] without a filter returns the elements of a document
    in the order of their start tags, the [k]-th start tag having made
    node [k]; an element named like the root is left out. *)
Theorem find_all_of_document (es : list event) (a : arena) :
  build es = Ok a ->
  find_all a (BeautifulSoup ROOT) NameNone None
  = Ok (filter (fun n => name (a !!! n) <> ROOT_NAME)
          (seq 1 (length (created es)))).
Proof.
  intros Hbuild. destruct (build_items es a Hbuild) as [Hitems _].
  unfold find_all, _iter_nodes. simpl.
  rewrite (_iter_nodes_items a (length a) ROOT false _ Hitems). simpl.
  rewrite history_nodes.
  generalize (filter (fun n => name (a !!! n) <> ROOT_NAME)
                (seq 1 (length (created es)))).
  intros l. induction l as [|n l IH]; [reflexivity |].
  simpl. simpl in IH. rewrite IH. reflexivity.
Qed.

(** X10. [get_text] and [decode_contents] return for the document and
    for every tag of it, however deep the elements are nested. *)
Theorem text_and_markup_return (es : list event) (a : arena)
    (self : _SoupMixin) (strip_it : bool) :
  build es = Ok a ->
  exists text markup,
    get_text a self strip_it = Ok text /\ decode_contents a self = Ok markup.
Proof.
  intros Hbuild. pose proof (build_tree_ok es a Hbuild) as Hok.
  destruct (get_text_returns a self strip_it Hok) as [text Ht].
  destruct (render_contents_returns a (_node self) Hok) as [markup Hm].
  exists text, markup. split; assumption.
Qed.

End Documents.

(** ** The nodes of a document *)

Lemma append_child_records (a : arena) n c :
  map (fun nd => (name nd, attrs nd)) (append_child a n c)
  = map (fun nd => (name nd, attrs nd)) a.
Proof.
  unfold append_child. revert n.
  induction a as [|nd a IH]; intros [|n]; simpl; try reflexivity.
  f_equal. apply IH.
Qed.

Lemma listed_grows (a a' : arena) cur c :
  tree_ok a -> grows a a' cur c ->
  (forall j, (j < length a)%nat -> parent (a' !!! j) = parent (a !!! j)) ->
  listed a ->
  forall n : nat, (0 < n < length a)%nat ->
    exists p, parent (a' !!! n) = Some p /\ n ∈ child_ids (children (a' !!! p)).
Proof.
  intros Hok Hgrows Hpar Hlisted n Hn.
  destruct (Hlisted n Hn) as (p & Hp & Hin).
  pose proof (parent_lt a n p Hok Hp) as Hlt.
  exists p. split; [rewrite Hpar by lia; exact Hp |].
  rewrite Hgrows by lia. case_decide; [| exact Hin].
  rewrite child_ids_app. apply elem_of_app. left. exact Hin.
Qed.

Section Nodes.

Context `{Runtime}.

Lemma handle_records (b b' : Builder) (e : event) :
  builder_ok b -> handle b e = Ok b' ->
  map (fun nd => (name nd, attrs nd)) (nodes b')
  = map (fun nd => (name nd, attrs nd)) (nodes b) ++ created [e].
Proof.
  intros Hb He. unfold created.
  destruct (handle_cases b b' e Hb He)
    as [(Hn & _ & -> & _) | [(Hn & _ & -> & _) | (tag & ats & Hn & -> & _)]];
    simpl; rewrite Hn; rewrite ?append_child_records, ?app_nil_r; try reflexivity.
  rewrite map_app. reflexivity.
Qed.

Lemma feed_records (es : list event) : forall b b',
  builder_ok b -> feed b es = Ok b' ->
  map (fun nd => (name nd, attrs nd)) (nodes b')
  = map (fun nd => (name nd, attrs nd)) (nodes b) ++ created es.
Proof.
  induction es as [|e es IH]; intros b b' Hb Hfeed.
  - injection Hfeed as <-. unfold created. simpl. rewrite app_nil_r. reflexivity.
  - simpl in Hfeed. apply bind_Ok in Hfeed as (b1 & He & Hfeed).
    rewrite (IH b1 b' (handle_ok b e b1 Hb He) Hfeed).
    rewrite (handle_records b b1 e Hb He), <- app_assoc. unfold created.
    change (e :: es) with ([e] ++ es). rewrite omap_app. reflexivity.
Qed.

(** X11. A document holds the root and one node for each start tag of
    its markup, in order, self-closed and void tags included; each node
    keeps the tag as written and the attributes of its start tag, and
    nothing later in the markup changes them. *)
Theorem build_nodes (es : list event) (a : arena) :
  build es = Ok a ->
  map (fun nd => (name nd, attrs nd)) a = (ROOT_NAME, []) :: created es.
Proof.
  unfold build. intros Hb. apply bind_Ok in Hb as (b & Hfeed & Hb).
  injection Hb as <-.
  apply (feed_records es init_builder b init_builder_ok Hfeed).
Qed.

Lemma build_root_name (es : list event) (a : arena) :
  build es = Ok a -> name (a !!! ROOT) = ROOT_NAME.
Proof.
  unfold build. intros Hb. apply bind_Ok in Hb as (b & Hfeed & Hb).
  injection Hb as <-.
  pose proof (feed_records es init_builder b init_builder_ok Hfeed) as Hrec.
  destruct (nodes b) as [|nd a']; [discriminate |].
  injection Hrec as Hname _. exact Hname.
Qed.

Lemma handle_listed (b b' : Builder) (e : event) :
  builder_ok b -> listed (nodes b) -> handle b e = Ok b' -> listed (nodes b').
Proof.
  intros Hb Hlisted He. pose proof Hb as [Hok Hcur].
  destruct (handle_cases b b' e Hb He)
    as [(_ & _ & Ha & _) | [(_ & _ & Ha & _) | (tag & ats & _ & Ha & _)]].
  - rewrite Ha. intros n Hn. rewrite append_child_length in Hn.
    eapply listed_grows; eauto using grows_text.
    intros j _. apply append_child_parent.
  - rewrite Ha. exact Hlisted.
  - rewrite Ha. intros n Hn.
    rewrite append_child_length, length_app in Hn. simpl in Hn.
    destruct (decide (n = length (nodes b))) as [-> | Hne].
    + exists (current b). rewrite new_node_lookup by exact Hcur.
      split; [reflexivity |].
      rewrite (grows_node (nodes b) (current b) _ Hcur) by exact Hcur.
      rewrite decide_True by reflexivity.
      rewrite child_ids_app. apply elem_of_app. right. simpl. left.
    + eapply listed_grows; eauto using grows_node; [| lia].
      intros j Hj. apply old_node_parent, Hj.
Qed.

Lemma feed_listed (es : list event) : forall b b',
  builder_ok b -> listed (nodes b) -> feed b es = Ok b' -> listed (nodes b').
Proof.
  induction es as [|e es IH]; intros b b' Hb Hl Hfeed.
  - injection Hfeed as <-. exact Hl.
  - simpl in Hfeed. apply bind_Ok in Hfeed as (b1 & He & Hfeed).
    apply (IH b1 b' (handle_ok b e b1 Hb He) (handle_listed b b1 e Hb Hl He) Hfeed).
Qed.

Lemma build_listed (es : list event) (a : arena) : build es = Ok a -> listed a.
Proof.
  unfold build. intros Hb. apply bind_Ok in Hb as (b & Hfeed & Hb).
  injection Hb as <-.
  apply (feed_listed es init_builder b init_builder_ok); [| exact Hfeed].
  intros n Hn. simpl in Hn. lia.
Qed.

(** The void nodes have no children, and the cursor is on none. *)
Lemma handle_void (b b' : Builder) (e : event) :
  builder_ok b -> listed (nodes b) ->
  (forall n, void_node (nodes b) n -> children (nodes b !!! n) = []) ->
  ~ void_node (nodes b) (current b) ->
  handle b e = Ok b' ->
  (forall n, void_node (nodes b') n -> children (nodes b' !!! n) = [])
  /\ ~ void_node (nodes b') (current b').
Proof.
  intros Hb Hlisted Hvoid Hopen He. pose proof Hb as [Hok Hcur].
  destruct (handle_cases b b' e Hb He)
    as [(_ & _ & Ha & Hc) | [(_ & _ & Ha & _ & Hc) | (tag & ats & _ & Ha & Hc)]].
  - rewrite Ha, Hc. unfold void_node.
    setoid_rewrite append_child_name. split; [| exact Hopen].
    intros n Hn. rewrite append_child_children.
    rewrite decide_False; [apply Hvoid, Hn |].
    intros [<- _]. apply Hopen, Hn.
  - rewrite Ha. split; [exact Hvoid |].
    destruct Hc as [-> | [-> | (m & Hm & Hp)]]; [exact Hopen | |].
    + intros [Hne _]. congruence.
    + intros Hv. specialize (Hvoid _ Hv).
      assert (0 < m < length (nodes b))%nat as Hm'.
      { split; [| exact Hm]. destruct (decide (m = 0%nat)) as [-> | ?]; [| lia].
        destruct Hok as (_ & Hroot & _). unfold ROOT in Hroot. congruence. }
      destruct (Hlisted m Hm') as (p & Hp' & Hin).
      rewrite Hp in Hp'. injection Hp' as <-.
      rewrite Hvoid in Hin. apply elem_of_nil in Hin. exact Hin.
  - set (nd := new_node tag ats (Some (current b))) in *.
    assert (forall j, (j <> length (nodes b))%nat ->
              name (nodes b' !!! j) = name (nodes b !!! j)
              /\ (j <> current b -> children (nodes b' !!! j) = children (nodes b !!! j)))
      as Hold.
    { intros j Hj. rewrite Ha, append_child_name, append_child_children.
      destruct (decide (j < length (nodes b))%nat) as [Hlt | Hge].
      - rewrite lookup_total_app_l by exact Hlt. split; [reflexivity |].
        intros Hne. rewrite decide_False by (intros [? _]; congruence).
        reflexivity.
      - rewrite !lookup_total_outside by (rewrite ?length_app; simpl; lia).
        split; [reflexivity |]. intros Hne.
        rewrite decide_False by (intros [? _]; congruence). reflexivity. }
    assert (nodes b' !!! length (nodes b) = nd) as Hnew.
    { rewrite Ha. apply new_node_lookup, Hcur. }
    split.
    + intros n [Hne Hv].
      destruct (decide (n = length (nodes b))) as [-> | Hn].
      * rewrite Hnew. reflexivity.
      * destruct (Hold n Hn) as [Hname Hch]. rewrite Hname in Hv.
        rewrite Hch; [apply Hvoid; split; assumption |].
        intros ->. apply Hopen. split; assumption.
    + destruct Hc as [-> | [-> Hv]].
      * intros [Hne Hv]. destruct (Hold (current b) ltac:(lia)) as [Hname _].
        rewrite Hname in Hv. apply Hopen. split; assumption.
      * intros [_ Hv']. rewrite Hnew in Hv'. simpl in Hv'. congruence.
Qed.

Lemma feed_void (es : list event) : forall b b',
  builder_ok b -> listed (nodes b) ->
  (forall n, void_node (nodes b) n -> children (nodes b !!! n) = []) ->
  ~ void_node (nodes b) (current b) ->
  feed b es = Ok b' ->
  forall n, void_node (nodes b') n -> children (nodes b' !!! n) = [].
Proof.
  induction es as [|e es IH]; intros b b' Hb Hl Hv Hc Hfeed.
  - injection Hfeed as <-. exact Hv.
  - simpl in Hfeed. apply bind_Ok in Hfeed as (b1 & He & Hfeed).
    destruct (handle_void b b1 e Hb Hl Hv Hc He) as [Hv1 Hc1].
    apply (IH b1 b' (handle_ok b e b1 Hb He) (handle_listed b b1 e Hb Hl He)
             Hv1 Hc1 Hfeed).
Qed.

(** X12. In a document no void element has a child: whatever follows
    the start tag of a void element goes to the element that was open
    before it. *)
Theorem void_elements_have_no_children (es : list event) (a : arena) (n : node_id) :
  build es = Ok a -> void_node a n -> children (a !!! n) = [].
Proof.
  unfold build. intros Hb. apply bind_Ok in Hb as (b & Hfeed & Hb).
  injection Hb as <-.
  apply (feed_void es init_builder b init_builder_ok); [| | | exact Hfeed].
  - intros m Hm. simpl in Hm. lia.
  - intros m [Hne Hv]. destruct m as [|m]; [exfalso; apply Hne; reflexivity |].
    reflexivity.
  - intros [Hne _]. apply Hne. reflexivity.
Qed.

End Nodes.

(** ** Siblings *)

Lemma index_of_split (cs : list child) (n : node_id) :
  n ∈ child_ids cs ->
  exists pre post,
    cs = pre ++ ChildNode n :: post
    /\ (n ∉ child_ids pre)
    /\ index_of cs n = Some (length pre).
Proof.
  induction cs as [|[c | s] cs IH]; intros Hin.
  - apply elem_of_nil in Hin. contradiction.
  - simpl. destruct (decide (c = n)) as [-> | Hne].
    + exists [], cs. rewrite bool_decide_eq_true_2 by reflexivity.
      split; [reflexivity |]. split; [apply not_elem_of_nil | reflexivity].
    + rewrite bool_decide_eq_false_2 by exact Hne.
      rewrite child_ids_cons_node in Hin.
      apply elem_of_cons in Hin as [-> | Hin]; [congruence |].
      destruct (IH Hin) as (pre & post & -> & Hpre & ->).
      exists (ChildNode c :: pre), post. split; [reflexivity |].
      split; [| reflexivity]. rewrite child_ids_cons_node.
      intros Hx. apply elem_of_cons in Hx as [-> | Hx]; [congruence | tauto].
  - simpl. rewrite child_ids_cons_text in Hin.
    destruct (IH Hin) as (pre & post & -> & Hpre & ->).
    exists (ChildText s :: pre), post. split; [reflexivity |].
    split; [| reflexivity]. rewrite child_ids_cons_text. exact Hpre.
Qed.

Lemma first_sibling_spec (post : list child) :
  match first_sibling post with
  | None => Forall blank_text post
  | Some (SiblingTag m) =>
      exists ws rest, post = ws ++ ChildNode m :: rest /\ Forall blank_text ws
  | Some (SiblingText s) =>
      exists ws rest,
        post = ws ++ ChildText s :: rest /\ Forall blank_text ws /\ strip s <> []
  end.
Proof.
  induction post as [|[c | s] post IH]; simpl.
  - constructor.
  - exists [], post. split; [reflexivity | constructor].
  - destruct (strip s) as [|ch t] eqn:Hs; simpl.
    + assert (blank_text (ChildText s)) as Hb by (exists s; split; [reflexivity | exact Hs]).
      destruct (first_sibling post) as [[m | s'] |].
      * destruct IH as (ws & rest & -> & Hws).
        exists (ChildText s :: ws), rest. split; [reflexivity |].
        constructor; assumption.
      * destruct IH as (ws & rest & -> & Hws & Hne).
        exists (ChildText s :: ws), rest. split; [reflexivity |].
        split; [constructor; assumption | exact Hne].
      * constructor; assumption.
    + exists [], post. split; [reflexivity |]. split; [constructor |].
      rewrite Hs. discriminate.
Qed.

Section Siblings.

Context `{Runtime}.

(** X13. In a document [next_sibling] finds every element in the
    children of its parent, and answers from what follows it there:
    the first child that is an element or a text with a character
    that is not whitespace, the texts before it being blank, and
    [None] when only blank texts follow; the root has no sibling. *)
Theorem next_sibling_of_document (es : list event) (a : arena) (n : node_id) :
  build es = Ok a -> (0 < n < length a)%nat ->
  next_sibling a ROOT = None
  /\ exists p pre post,
       parent (a !!! n) = Some p
       /\ children (a !!! p) = pre ++ ChildNode n :: post
       /\ (n ∉ child_ids pre)
       /\ match next_sibling a n with
          | None => Forall blank_text post
          | Some (SiblingTag m) =>
              exists ws rest,
                post = ws ++ ChildNode m :: rest /\ Forall blank_text ws
          | Some (SiblingText s) =>
              exists ws rest,
                post = ws ++ ChildText s :: rest /\ Forall blank_text ws
                /\ strip s <> []
          end.
Proof.
  intros Hbuild Hn.
  pose proof (build_tree_ok es a Hbuild) as Hok.
  pose proof (build_listed es a Hbuild) as Hlisted.
  split.
  - unfold next_sibling. destruct Hok as (_ & -> & _). reflexivity.
  - destruct (Hlisted n Hn) as (p & Hp & Hin).
    destruct (index_of_split _ n Hin) as (pre & post & Hcs & Hpre & Hidx).
    exists p, pre, post. split; [exact Hp |]. split; [exact Hcs |].
    split; [exact Hpre |].
    unfold next_sibling. rewrite Hp. cbn zeta. rewrite Hidx, Hcs.
    replace (drop (length pre + 1) (pre ++ ChildNode n :: post)) with post.
    + apply first_sibling_spec.
    + rewrite Nat.add_1_r. change (ChildNode n :: post) with ([ChildNode n] ++ post).
      rewrite app_assoc, drop_app_length'; [reflexivity |].
      rewrite length_app. simpl. lia.
Qed.

End Siblings.

(** ** The shape of a document *)

Section Shape.

Context `{Runtime}.

(** The nodes that exist keep their name and their parent. *)
Lemma handle_keeps (b b' : Builder) (e : event) :
  builder_ok b -> handle b e = Ok b' ->
  (length (nodes b) <= length (nodes b'))%nat
  /\ forall j, (j < length (nodes b))%nat ->
       name (nodes b' !!! j) = name (nodes b !!! j)
       /\ parent (nodes b' !!! j) = parent (nodes b !!! j).
Proof.
  intros Hb He.
  destruct (handle_cases b b' e Hb He)
    as [(_ & _ & -> & _) | [(_ & _ & -> & _) | (tag & ats & _ & -> & _)]].
  - rewrite append_child_length. split; [lia |]. intros j _.
    rewrite append_child_name, append_child_parent. auto.
  - split; [lia | auto].
  - rewrite append_child_length, length_app. split; [lia |]. intros j Hj.
    rewrite append_child_name, append_child_parent.
    rewrite lookup_total_app_l by exact Hj. auto.
Qed.

Lemma feed_keeps (es : list event) : forall b b',
  builder_ok b -> feed b es = Ok b' ->
  (length (nodes b) <= length (nodes b'))%nat
  /\ forall j, (j < length (nodes b))%nat ->
       name (nodes b' !!! j) = name (nodes b !!! j)
       /\ parent (nodes b' !!! j) = parent (nodes b !!! j).
Proof.
  induction es as [|e es IH]; intros b b' Hb Hfeed.
  - injection Hfeed as <-. split; [lia | auto].
  - simpl in Hfeed. apply bind_Ok in Hfeed as (b1 & He & Hfeed).
    destruct (handle_keeps b b1 e Hb He) as [Hlen1 Hk1].
    destruct (IH b1 b' (handle_ok b e b1 Hb He) Hfeed) as [Hlen2 Hk2].
    split; [lia |]. intros j Hj.
    destruct (Hk1 j Hj) as [<- <-]. apply Hk2. lia.
Qed.

(** An end tag at an element of its name moves the cursor to the
    parent of the element. *)
Lemma handle_endtag_at (b : Builder) (tag : str) (p : node_id) :
  builder_ok b -> current b <> ROOT ->
  parent (nodes b !!! current b) = Some p ->
  lower (name (nodes b !!! current b)) = lower tag ->
  exists b', handle_endtag b tag = Ok b'
             /\ nodes b' = nodes b /\ current b' = p.
Proof.
  intros Hb Hne Hp Hname. pose proof Hb as [Hok Hcur].
  destruct (open_elements_exist (nodes b) Hok (current b) Hcur) as (l & Hl & _).
  destruct (handle_endtag_closes b tag l Hb Hl) as (b' & Hb' & Hnodes & _ & Hfind).
  exists b'. split; [exact Hb' |]. split; [exact Hnodes |].
  inversion Hl as [Hroot | n q l' _ Hq Hl' Hn]; [congruence |]. subst.
  simpl in Hfind. rewrite decide_True in Hfind by exact Hname. simpl in Hfind.
  congruence.
Qed.

Lemma handle_text_event (b : Builder) (e : event) :
  text_event e -> exists b', handle b e = Ok b' /\ current b' = current b.
Proof.
  destruct e as [tag ats | tag ats | tag | data | nm | nm | data]; simpl;
    try contradiction; intros He.
  - eexists. split; [reflexivity |]. unfold handle_data.
    destruct (truthy data); reflexivity.
  - eexists. split; [reflexivity |]. reflexivity.
  - destruct He as [c Hc].
    change (handle_charref b nm)
      with (c ← charref_char nm; Ok (handle_data b [c])).
    rewrite Hc. eexists. split; [reflexivity |]. reflexivity.
  - eexists. split; [reflexivity |]. reflexivity.
Qed.

Lemma balanced_feed (es : list event) :
  balanced es -> forall b, builder_ok b ->
  exists b', feed b es = Ok b' /\ current b' = current b.
Proof.
  induction 1 as [| e es He _ IH | tag ats es Hv _ IH | tag ats es _ IH
                  | tag ats inner tag' es Hv Htag _ IHin _ IH]; intros b Hb.
  - exists b. split; reflexivity.
  - destruct (handle_text_event b e He) as (b1 & Hb1 & Hc1).
    destruct (IH b1 (handle_ok b e b1 Hb Hb1)) as (b' & Hb' & Hc').
    exists b'. simpl. rewrite Hb1. split; [exact Hb' | congruence].
  - assert (handle b (Starttag tag ats) = Ok (handle_starttag b tag ats)) as Hb1
      by reflexivity.
    destruct (IH _ (handle_ok b _ _ Hb Hb1)) as (b' & Hb' & Hc').
    exists b'. simpl. split; [exact Hb' |]. rewrite Hc'.
    unfold handle_starttag. rewrite Hv. reflexivity.
  - assert (handle b (Startendtag tag ats) = Ok (handle_startendtag b tag ats))
      as Hb1 by reflexivity.
    destruct (IH _ (handle_ok b _ _ Hb Hb1)) as (b' & Hb' & Hc').
    exists b'. simpl. split; [exact Hb' |]. rewrite Hc'. reflexivity.
  - pose proof Hb as [Hok Hcur].
    set (b1 := handle_starttag b tag ats).
    assert (handle b (Starttag tag ats) = Ok b1) as Hb1 by reflexivity.
    pose proof (handle_ok b _ _ Hb Hb1) as Hok1.
    assert (current b1 = length (nodes b)) as Hc1.
    { unfold b1, handle_starttag. rewrite Hv. reflexivity. }
    assert (nodes b1 !!! length (nodes b) = new_node tag ats (Some (current b)))
      as Hnew.
    { unfold b1, handle_starttag. rewrite Hv. simpl.
      apply new_node_lookup, Hcur. }
    destruct (IHin b1 Hok1) as (b2 & Hb2 & Hc2).
    pose proof (feed_ok inner b1 b2 Hok1 Hb2) as Hok2.
    destruct (feed_keeps inner b1 b2 Hok1 Hb2) as [_ Hkeep].
    destruct (Hkeep (length (nodes b))) as [Hname Hpar].
    { destruct Hok1 as [_ Hlt]. rewrite Hc1 in Hlt. exact Hlt. }
    rewrite Hnew in Hname, Hpar. simpl in Hname, Hpar.
    destruct (handle_endtag_at b2 tag' (current b) Hok2) as (b3 & Hb3 & _ & Hc3).
    { rewrite Hc2, Hc1. unfold ROOT. destruct Hok as [Hlen _]. lia. }
    { rewrite Hc2, Hc1. exact Hpar. }
    { rewrite Hc2, Hc1, Hname. symmetry. exact Htag. }
    assert (handle b2 (Endtag tag') = Ok b3) as Hb3' by exact Hb3.
    destruct (IH b3 (handle_ok b2 _ _ Hok2 Hb3')) as (b' & Hb' & Hc').
    exists b'. split; [| congruence].
    change (feed b (Starttag tag ats :: inner ++ Endtag tag' :: es))
      with (feed b1 (inner ++ Endtag tag' :: es)).
    rewrite feed_app, Hb2. simpl. rewrite Hb3. exact Hb'.
Qed.

(** X14. After well-nested markup the cursor is where it was: each end
    tag closes the element its start tag opened, so what follows the
    markup is appended to the same parent as the markup itself; and
    the builder returns. *)
Theorem balanced_keeps_cursor (es es' : list event) (b : Builder) :
  feed init_builder es' = Ok b -> balanced es ->
  exists b', feed b es = Ok b' /\ current b' = current b.
Proof.
  intros Hfeed Hbal. apply (balanced_feed es Hbal).
  apply (feed_ok es' init_builder b init_builder_ok Hfeed).
Qed.

(** X15. A document is a tree: the root has no parent; every other node
    has one parent, made before it, and is listed once among the
    children of this parent and among the children of no other node. *)
Theorem document_is_a_tree (es : list event) (a : arena) (n : node_id) :
  build es = Ok a -> (0 < n < length a)%nat ->
  parent (a !!! ROOT) = None
  /\ exists p,
       parent (a !!! n) = Some p
       /\ (p < n)%nat
       /\ (forall q, n ∈ child_ids (children (a !!! q)) <-> q = p)
       /\ NoDup (child_ids (children (a !!! p))).
Proof.
  intros Hbuild Hn.
  pose proof (build_tree_ok es a Hbuild) as Hok.
  pose proof (build_listed es a Hbuild) as Hlisted.
  split; [apply Hok |].
  destruct (Hlisted n Hn) as (p & Hp & Hin).
  pose proof (parent_lt a n p Hok Hp) as Hlt.
  exists p. split; [exact Hp |]. split; [lia |]. split.
  - intros q. split; [| intros ->; exact Hin].
    intros Hq. destruct (decide (q < length a)%nat) as [Hql | Hql].
    + destruct (child_in_range a q n Hok Hql Hq) as [_ Hpq]. congruence.
    + rewrite lookup_total_outside in Hq by lia. simpl in Hq.
      apply elem_of_nil in Hq. contradiction.
  - destruct Hok as (_ & _ & _ & _ & Hnd). apply Hnd. lia.
Qed.

End Shape.

(** ** bs4: what a selector text selects *)

Lemma lstrip_by_rest (p : char -> bool) (s : str) :
  exists w, s = w ++ lstrip_by p s.
Proof.
  induction s as [|c s [w IH]]; [exists []; reflexivity |]. simpl.
  destruct (p c); [| exists []; reflexivity].
  exists (c :: w). simpl. f_equal. exact IH.
Qed.

Lemma lstrip_by_starts (p : char -> bool) (s : str) c :
  head (lstrip_by p s) = Some c -> p c = false.
Proof.
  induction s as [|d s IH]; [discriminate |]. simpl.
  destruct (p d) eqn:Hd; [exact IH |]. simpl. intros [= <-]. exact Hd.
Qed.

Lemma strip_fixed (s : str) :
  (forall c, head s = Some c -> is_space c = false) ->
  (forall c, last s = Some c -> is_space c = false) ->
  strip s = s.
Proof.
  intros Hh Hl. unfold strip, strip_by, rstrip_by.
  rewrite (lstrip_by_head is_space s) by exact Hh.
  rewrite lstrip_by_head; [apply rev_involutive |].
  intros c Hc. rewrite head_rev_last in Hc. apply Hl, Hc.
Qed.

Lemma strip_idempotent (s : str) : strip (strip s) = strip s.
Proof.
  apply strip_fixed; unfold strip, strip_by, rstrip_by.
  - intros c Hc.
    destruct (lstrip_by_rest is_space (rev (lstrip_by is_space s))) as [w Hw].
    apply (f_equal (@rev N)) in Hw. rewrite rev_involutive, rev_app_distr in Hw.
    destruct (rev (lstrip_by is_space (rev (lstrip_by is_space s)))) as [|d t];
      [discriminate |].
    injection Hc as ->. apply (lstrip_by_starts is_space s c).
    rewrite Hw. reflexivity.
  - intros c Hc. rewrite <- head_rev_last, rev_involutive in Hc.
    apply (lstrip_by_starts _ _ _ Hc).
Qed.

Lemma split_on_absent (sep : char) (s : str) : sep ∉ s -> split_on sep s = [s].
Proof.
  induction s as [|c s IH]; intros Hno; [reflexivity |]. simpl.
  destruct (N.eqb_spec c sep) as [-> | Hne].
  - exfalso. apply Hno. left.
  - rewrite IH; [reflexivity |]. intros Hin. apply Hno. right. exact Hin.
Qed.

Lemma span_all (p : char -> bool) (s r : str) :
  Forall (fun c => p c = true) s ->
  (forall c, head r = Some c -> p c = false) ->
  span p (s ++ r) = (s, r).
Proof.
  intros Hs Hr. induction Hs as [|c s Hc Hs IH]; simpl.
  - destruct r as [|d r]; [reflexivity |]. simpl. rewrite (Hr d eq_refl). reflexivity.
  - rewrite Hc, IH. reflexivity.
Qed.

Lemma tag_char_plain (c : char) :
  is_tag_char c = true ->
  is_space c = false /\ c <> 35%N /\ c <> 46%N /\ c <> 91%N /\ c <> 44%N.
Proof.
  unfold is_tag_char, is_space. intros Ht.
  repeat (rewrite ?orb_true_iff, ?andb_true_iff, ?N.leb_le, ?N.eqb_eq in Ht).
  split; [| lia].
  apply not_true_iff_false. intros Hs.
  repeat (rewrite ?orb_true_iff, ?andb_true_iff, ?N.leb_le, ?N.eqb_eq in Hs).
  lia.
Qed.

Section SelectorTexts.

Context `{Runtime}.

(** The nodes [_iter_nodes] yields are not named like the root. *)
Lemma _iter_nodes_fuel_named (a : arena) fuel : forall n incl l x,
  _iter_nodes_fuel fuel a n incl = Ok l -> x ∈ l -> name (a !!! x) <> ROOT_NAME.
Proof.
  induction fuel as [|fuel IH]; intros n incl l x Hl Hx; [discriminate |].
  cbn [_iter_nodes_fuel] in Hl. apply bind_Ok in Hl as (below & Hb & Hl).
  injection Hl as <-. apply elem_of_app in Hx as [Hx | Hx].
  - destruct incl; simpl in Hx; [| apply elem_of_nil in Hx; contradiction].
    unfold str_eqb in Hx. case_bool_decide as Hname; simpl in Hx.
    + apply elem_of_nil in Hx. contradiction.
    + apply list_elem_of_singleton in Hx. subst x. exact Hname.
  - destruct (iter_children_elem _ _ _ _ Hb Hx) as (c & lc & _ & Hc & Hin).
    apply (IH c true lc x Hc Hin).
Qed.

(** On the root, with or without [include_self]. *)
Lemma _iter_nodes_root (a : arena) n incl :
  name (a !!! n) = ROOT_NAME -> _iter_nodes a n incl = _iter_nodes a n false.
Proof.
  intros Hname. unfold _iter_nodes. destruct (length a) as [|fuel]; [reflexivity |].
  cbn [_iter_nodes_fuel]. unfold str_eqb.
  rewrite bool_decide_eq_true_2 by exact Hname. rewrite andb_false_r. reflexivity.
Qed.

(** One compound selector without a comma: [select] gives what the
    selector matches, [find_all] what passes its filter. *)
Lemma select_one_part (a : arena) (self : _SoupMixin) (selector : str)
    (sel : _Selector) (it : list node_id) :
  selector_parts selector = [strip selector] ->
  _parse_selector (strip selector) = Ok sel ->
  _iter_nodes a (_node self) (is_BeautifulSoup self) = Ok it -> NoDup it ->
  select a self selector = Ok (filter (fun n => matches sel (a !!! n) = true) it).
Proof.
  intros Hparts Hsel Hit Hnd. unfold select. rewrite Hit, Hparts.
  change (select_loop a [strip selector] it ∅ []
          = Ok (filter (fun n => matches sel (a !!! n) = true) it)).
  rewrite (select_loop_unions a it Hnd [strip selector] [sel] [] ∅ []).
  - simpl. rewrite app_nil_r. f_equal. unfold matched_first_by.
    apply filter_agree. intros n _. split; [tauto |].
    intros Hm. split; [exact Hm | constructor].
  - constructor; [exact Hsel | constructor].
  - intros n _. rewrite Exists_nil. set_solver.
Qed.

Lemma selector_parts_one (selector : str) :
  44%N ∉ selector -> strip selector <> [] ->
  selector_parts selector = [strip selector].
Proof.
  intros Hno Hne. unfold selector_parts. rewrite split_on_absent by exact Hno.
  simpl. destruct (strip selector); [congruence | reflexivity].
Qed.

(** A selector that starts with a character no branch of the parser
    takes is read as the selector without constraints. *)
Lemma _parse_selector_unsupported (selector : str) (c : char) (rest : str) :
  strip selector = c :: rest ->
  is_tag_char c = false -> c ∉ py "#.[" ->
  _parse_selector selector = Ok no_constraint.
Proof.
  intros Hs Htag Hmark. unfold _parse_selector. rewrite Hs.
  change (py "#.[") with [35%N; 46%N; 91%N] in Hmark.
  assert (startswith (c :: rest) (py "#") = false) as H1.
  { change (py "#") with [35%N]. cbn [startswith].
    rewrite andb_true_r. apply N.eqb_neq. intros <-. set_solver. }
  assert (startswith (c :: rest) (py ".") = false) as H2.
  { change (py ".") with [46%N]. cbn [startswith].
    rewrite andb_true_r. apply N.eqb_neq. intros <-. set_solver. }
  assert (startswith (c :: rest) (py "[") = false) as H3.
  { change (py "[") with [91%N]. cbn [startswith].
    rewrite andb_true_r. apply N.eqb_neq. intros <-. set_solver. }
  cbn [length parse_loop truthy negb]. rewrite H1, H2, H3.
  unfold match_tag. simpl. rewrite Htag. reflexivity.
Qed.


Lemma parse_loop_done fuel st : parse_loop fuel [] st = Ok st.
Proof. destruct fuel; reflexivity. Qed.

Lemma tag_token_plain (tag : str) :
  tag_token tag ->
  Forall (fun c => is_space c = false /\ c <> 35%N /\ c <> 46%N /\ c <> 91%N
                   /\ c <> 44%N) tag.
Proof.
  intros [_ Htag]. eapply Forall_impl; [exact Htag |].
  intros c Hc. apply tag_char_plain, Hc.
Qed.

Lemma last_elem {A} (l : list A) x : last l = Some x -> x ∈ l.
Proof.
  intros Hl. apply last_Some in Hl as [l' ->]. apply elem_of_app. right. left.
Qed.

Lemma head_elem {A} (l : list A) x : head l = Some x -> x ∈ l.
Proof. destruct l; [discriminate |]. intros [= ->]. left. Qed.

(** A type selector is read as the tag clause alone. *)
Lemma _parse_selector_tag (tag : str) :
  tag_token tag ->
  strip tag = tag
  /\ (44%N ∉ tag)
  /\ _parse_selector tag = Ok (mkSelector (Some tag) None None None None None).
Proof.
  intros Htok. pose proof (tag_token_plain tag Htok) as Hplain.
  destruct Htok as [Hne Htag]. rewrite Forall_forall in Hplain.
  assert (strip tag = tag) as Hstrip.
  { apply strip_fixed; intros c Hc.
    - apply Hplain, head_elem, Hc.
    - apply Hplain, last_elem, Hc. }
  split; [exact Hstrip |]. split.
  { intros Hin. apply Hplain in Hin. tauto. }
  unfold _parse_selector. rewrite Hstrip.
  destruct tag as [|c t]; [congruence |].
  destruct (Hplain c ltac:(left)) as (_ & H35 & H46 & H91 & _).
  assert (startswith (c :: t) (py "#") = false) as H1.
  { change (py "#") with [35%N]. cbn [startswith].
    rewrite andb_true_r. apply N.eqb_neq. congruence. }
  assert (startswith (c :: t) (py ".") = false) as H2.
  { change (py ".") with [46%N]. cbn [startswith].
    rewrite andb_true_r. apply N.eqb_neq. congruence. }
  assert (startswith (c :: t) (py "[") = false) as H3.
  { change (py "[") with [91%N]. cbn [startswith].
    rewrite andb_true_r. apply N.eqb_neq. congruence. }
  cbn [length parse_loop truthy negb]. rewrite H1, H2, H3.
  unfold match_tag. rewrite <- (app_nil_r (c :: t)) at 1.
  rewrite (span_all is_tag_char (c :: t) []) by (exact Htag || discriminate).
  rewrite parse_loop_done. reflexivity.
Qed.

(** A type selector with one class is read as these two clauses. *)
Lemma _parse_selector_tag_class (tag cls : str) :
  tag_token tag -> class_token cls ->
  strip (tag ++ py "." ++ cls) = tag ++ py "." ++ cls
  /\ (44%N ∉ tag ++ py "." ++ cls)
  /\ _parse_selector (tag ++ py "." ++ cls)
     = Ok (mkSelector (Some tag) None (Some [cls]) None None None).
Proof.
  intros Htok [Hcne Hcls]. pose proof (tag_token_plain tag Htok) as Hplain.
  destruct Htok as [Hne Htag]. rewrite Forall_forall in Hplain, Hcls.
  change (py ".") with [46%N].
  assert (strip (tag ++ [46%N] ++ cls) = tag ++ [46%N] ++ cls) as Hstrip.
  { apply strip_fixed; intros c Hc.
    - destruct tag as [|c0 t]; [congruence |]. injection Hc as <-.
      apply (Hplain c0). left.
    - rewrite !last_app in Hc. destruct (last cls) as [d |] eqn:Hl.
      + injection Hc as <-. apply Hcls, last_elem, Hl.
      + destruct cls; [congruence |].
        rewrite last_cons in Hl. destruct (last cls); discriminate. }
  split; [exact Hstrip |]. split.
  { intros Hin. apply elem_of_app in Hin as [Hin | Hin].
    - apply Hplain in Hin. tauto.
    - apply elem_of_cons in Hin as [Hin | Hin]; [discriminate |].
      apply Hcls in Hin. tauto. }
  unfold _parse_selector. rewrite Hstrip.
  destruct tag as [|c t]; [congruence |]. destruct cls as [|d u]; [congruence |].
  destruct (Hplain c ltac:(left)) as (_ & H35 & H46 & H91 & _).
  assert (forall r, startswith (c :: r) (py "#") = false) as H1.
  { intros r. change (py "#") with [35%N]. cbn [startswith].
    rewrite andb_true_r. apply N.eqb_neq. congruence. }
  assert (forall r, startswith (c :: r) (py ".") = false) as H2.
  { intros r. change (py ".") with [46%N]. cbn [startswith].
    rewrite andb_true_r. apply N.eqb_neq. congruence. }
  assert (forall r, startswith (c :: r) (py "[") = false) as H3.
  { intros r. change (py "[") with [91%N]. cbn [startswith].
    rewrite andb_true_r. apply N.eqb_neq. congruence. }
  assert (length ((c :: t) ++ [46%N] ++ d :: u)
          = S (S (S (length t + length u)))) as ->.
  { simpl. rewrite length_app. simpl. lia. }
  change ((c :: t) ++ [46%N] ++ d :: u) with (c :: (t ++ [46%N] ++ d :: u)) at 1.
  cbn [parse_loop truthy negb]. rewrite H1, H2, H3.
  unfold match_tag.
  change (c :: t ++ [46%N] ++ d :: u) with ((c :: t) ++ 46%N :: d :: u).
  rewrite (span_all is_tag_char (c :: t) (46%N :: d :: u));
    [| exact Htag | intros ? [= <-]; reflexivity].
  cbn [parse_loop truthy negb].
  change (startswith (46%N :: d :: u) (py "#")) with false.
  change (startswith (46%N :: d :: u) (py ".")) with true.
  cbn iota. unfold match_ident.
  rewrite <- (app_nil_r (d :: u)) at 1.
  rewrite (span_all is_ident_char (d :: u) []);
    [| | discriminate].
  - reflexivity.
  - rewrite Forall_forall. intros x Hx. apply Hcls in Hx. tauto.
Qed.

(** What a facade of a document iterates over. *)
Lemma facade_iter (es : list event) (a : arena) (self : _SoupMixin) :
  build es = Ok a -> facade_of a self ->
  exists it,
    _iter_nodes a (_node self) (is_BeautifulSoup self) = Ok it
    /\ _iter_nodes a (_node self) false = Ok it
    /\ NoDup it
    /\ forall x, x ∈ it -> name (a !!! x) <> ROOT_NAME.
Proof.
  intros Hbuild Hself.
  pose proof (build_tree_ok es a Hbuild) as Hok.
  assert (_node self < length a)%nat as Hlt.
  { destruct self as [n | n]; simpl in Hself |- *; [| exact Hself].
    subst n. destruct Hok as [Hlen _]. exact Hlen. }
  assert (_iter_nodes a (_node self) (is_BeautifulSoup self)
          = _iter_nodes a (_node self) false) as Heq.
  { destruct self as [n | n]; [| reflexivity]. simpl in Hself |- *. subst n.
    apply _iter_nodes_root. eapply build_root_name, Hbuild. }
  destruct (_iter_nodes_total a (_node self) false Hok Hlt) as [it Hit].
  exists it. rewrite Heq. split; [exact Hit |]. split; [exact Hit |].
  split; [eapply _iter_nodes_NoDup; eassumption |].
  intros x Hx. eapply _iter_nodes_fuel_named; eassumption.
Qed.

(** [select] with one selector against [find_all] with a filter that
    agrees with it on the elements. *)
Lemma select_as_find_all (es : list event) (a : arena) (self : _SoupMixin)
    (selector : str) (sel : _Selector) (nm : NameArg) (ats : AttrsArg) :
  build es = Ok a -> facade_of a self ->
  strip selector <> [] -> 44%N ∉ selector ->
  _parse_selector (strip selector) = Ok sel ->
  callbacks_come_back nm ats ->
  (forall n, name (a !!! n) <> ROOT_NAME ->
     matches sel (a !!! n) = name_passes a nm n && attrs_pass a ats n) ->
  select a self selector = find_all a self nm ats.
Proof.
  intros Hbuild Hself Hne Hno Hsel Hcb Hagree.
  destruct (facade_iter es a self Hbuild Hself) as (it & Hit & Hit' & Hnd & Hnamed).
  rewrite (select_one_part a self selector sel it
             (selector_parts_one selector Hno Hne) Hsel Hit Hnd).
  unfold find_all. rewrite Hit'.
  change (Ok (filter (fun n => matches sel (a !!! n) = true) it)
          = find_all_loop a it nm ats).
  rewrite (find_all_loop_filters a nm ats it Hcb). f_equal.
  apply filter_agree. intros n Hn. rewrite (Hagree n (Hnamed n Hn)). tauto.
Qed.

(** X16. A selector that starts, after its leading whitespace, with a
    character the parser does not know, a combinator or the asterisk
    for one, is read as no constraint at all: [select] returns every
    element below the facade. *)
Theorem select_unsupported_selects_all (es : list event) (a : arena)
    (self : _SoupMixin) (selector : str) (c : char) (rest : str) :
  build es = Ok a -> facade_of a self ->
  strip selector = c :: rest -> 44%N ∉ selector ->
  is_tag_char c = false -> c ∉ py "#.[" ->
  _parse_selector selector = Ok no_constraint
  /\ select a self selector = find_all a self NameNone None.
Proof.
  intros Hbuild Hself Hs Hno Htag Hmark.
  split; [eapply _parse_selector_unsupported; eassumption |].
  apply (select_as_find_all es a self selector no_constraint); try assumption.
  - rewrite Hs. discriminate.
  - apply (_parse_selector_unsupported _ c rest); [| assumption ..].
    rewrite strip_idempotent. exact Hs.
  - split; [discriminate |]. discriminate.
  - intros n Hn. unfold matches, str_eqb.
    rewrite bool_decide_eq_false_2 by exact Hn. reflexivity.
Qed.

(** X17. [select] with a type selector returns what [find_all] returns
    for the tag name. *)
Theorem select_tag_is_find_all (es : list event) (a : arena)
    (self : _SoupMixin) (tag : str) :
  build es = Ok a -> facade_of a self -> tag_token tag ->
  select a self tag = find_all a self (NameStr tag) None.
Proof.
  intros Hbuild Hself Htok.
  destruct (_parse_selector_tag tag Htok) as (Hstrip & Hno & Hsel).
  apply (select_as_find_all es a self tag
           (mkSelector (Some tag) None None None None None) _ _ Hbuild Hself);
    try assumption.
  - rewrite Hstrip. apply Htok.
  - rewrite Hstrip. exact Hsel.
  - apply name_filter_comes_back.
  - intros n Hn. unfold matches, str_eqb.
    rewrite bool_decide_eq_false_2 by exact Hn. simpl.
    destruct tag as [|c t]; [destruct Htok; congruence |]. simpl.
    unfold str_eqb. destruct (bool_decide _); reflexivity.
Qed.

(** X18. [select] with a type selector and a class returns what
    [find_all] returns for the tag name and the test that the class is
    among the words of the [class] attribute. *)
Theorem select_tag_class_is_find_all (es : list event) (a : arena)
    (self : _SoupMixin) (tag cls : str) :
  build es = Ok a -> facade_of a self -> tag_token tag -> class_token cls ->
  select a self (tag ++ py "." ++ cls)
  = find_all a self (NameStr tag)
      (Some [(py "class", ExpectedCallable (has_class cls))]).
Proof.
  intros Hbuild Hself Htok Hcls.
  destruct (_parse_selector_tag_class tag cls Htok Hcls) as (Hstrip & Hno & Hsel).
  apply (select_as_find_all es a self _
           (mkSelector (Some tag) None (Some [cls]) None None None) _ _
           Hbuild Hself); try assumption.
  - rewrite Hstrip. destruct tag; [destruct Htok; congruence | discriminate].
  - rewrite Hstrip. exact Hsel.
  - apply single_clause_comes_back. intros f [= <-] v. discriminate.
  - intros n Hn. unfold matches, str_eqb.
    rewrite bool_decide_eq_false_2 by exact Hn. simpl.
    destruct tag as [|c t]; [destruct Htok; congruence |]. simpl.
    unfold str_eqb.
    destruct (bool_decide (lower (name (a !!! n)) = lower (c :: t))); simpl;
      [| reflexivity].
    destruct (bool_decide (cls ∈ _)); reflexivity.
Qed.

(** X19. Every selector text is read to its end or to the first
    character the parser does not know: [_parse_selector] returns a
    selector for every text, and raises nothing. *)
Theorem _parse_selector_returns (selector : str) :
  exists sel, _parse_selector selector = Ok sel.
Proof. apply _parse_selector_total. Qed.

(** X20. No selector text is read as a test of containment: the name
    of an attribute clause, matched as far as it goes, takes the
    asterisk of [[name*=value]], and the clause is read as the
    attribute [name*] equal to the value. *)
Theorem _parse_selector_never_contains (selector : str) (sel : _Selector) :
  _parse_selector selector = Ok sel -> sel_attr_op sel <> Some (py "*=").
Proof. apply _parse_selector_op. Qed.

End SelectorTexts.

(** ** kpi3_title_generate.py: the title is a cleaned text *)

Lemma spaced_suffix (r s : str) : spaced r -> Forall nonspace s -> spaced (r ++ s).
Proof.
  intros Hr Hs. induction Hr as [t [Hne Ht] | t r Ht Hr IH].
  - apply spaced_one. split.
    + destruct t; [congruence | discriminate].
    + apply Forall_app. split; assumption.
  - rewrite <- !app_assoc. apply spaced_more; assumption.
Qed.

Lemma spaced_prefix (r s : str) : spaced r -> Forall nonspace s -> spaced (s ++ r).
Proof.
  intros Hr Hs.
  assert (forall t, token t -> token (s ++ t)) as Htok.
  { intros t [Hne Ht]. split.
    - destruct s; [exact Hne | discriminate].
    - apply Forall_app. split; assumption. }
  destruct Hr as [t Ht | t r Ht Hr].
  - apply spaced_one, Htok, Ht.
  - rewrite app_assoc. apply spaced_more; [apply Htok, Ht | exact Hr].
Qed.

Lemma spaced_then (x y : str) : spaced x -> spaced y -> spaced (x ++ py " " ++ y).
Proof.
  intros Hx Hy. induction Hx as [t Ht | t r Ht Hr IH].
  - apply spaced_more; assumption.
  - rewrite <- !app_assoc. apply spaced_more; [exact Ht | exact IH].
Qed.

Lemma spaced_joined (parts : list str) :
  parts <> [] -> Forall spaced parts -> spaced (join (py " ") parts).
Proof.
  intros Hne Hall. induction Hall as [|x parts Hx Hparts IH]; [congruence |].
  destruct parts as [|y parts]; [exact Hx |].
  change (join (py " ") (x :: y :: parts))
    with (x ++ py " " ++ join (py " ") (y :: parts)).
  apply spaced_then; [exact Hx | apply IH; discriminate].
Qed.

Lemma kept_components_spaced (pairs : list (str * str)) :
  Forall (fun vp => fst vp <> UNKNOWN -> spaced (snd vp)) pairs ->
  Forall spaced
    (omap (fun vp : str * str => if is_unknown (fst vp) then None else Some (snd vp))
       pairs).
Proof.
  induction 1 as [|vp pairs Hvp Hpairs IH]; [constructor |]. simpl.
  destruct (is_unknown (fst vp)) eqn:Hu; [exact IH |].
  constructor; [| exact IH]. apply Hvp. apply is_unknown_false, Hu.
Qed.

Lemma clean_field_spaced (v : option str) :
  clean_text v <> UNKNOWN -> spaced (clean_text v).
Proof. destruct (clean_text_cases v) as [-> | Hs]; [congruence | tauto]. Qed.

(** X21. The title [generate_title] returns is itself a cleaned text,
    whatever the fields hold: the placeholder, or words joined by single
    spaces with no whitespace around them, so that [clean_text] leaves it
    as it is. *)
Theorem generate_title_is_cleaned (specs : specs_arg) :
  exists t,
    generate_title specs = [(py "title", t)]
    /\ cleaned t
    /\ clean_text (Some t) = t.
Proof.
  rewrite generate_title_components.
  eexists. split; [reflexivity |].
  assert (Forall spaced (title_components specs [])) as Hall.
  { unfold title_components. cbv zeta. apply kept_components_spaced.
    repeat (apply Forall_cons_2; [cbn [fst snd]; intros Hne;
                                  pose proof (clean_field_spaced _ Hne) as Hs |]);
      try apply Forall_nil_2.
    - exact Hs.
    - exact Hs.
    - exact Hs.
    - rewrite app_nil_r. exact Hs.
    - apply spaced_suffix; [exact Hs |]. repeat constructor.
    - apply spaced_prefix; [exact Hs |]. repeat constructor.
    - apply spaced_prefix; [exact Hs |]. repeat constructor. }
  destruct (title_components specs []) as [|p r] eqn:Hparts.
  - split; [left; reflexivity | reflexivity].
  - assert (spaced (join (py " ") (p :: r))) as Hs
      by (apply spaced_joined; [discriminate | exact Hall]).
    split; [right; apply spaced_normalized, Hs | apply clean_text_spaced, Hs].
Qed.

(** ** kpi1_extract.py: photo URLs *)

Lemma endswith_slash (base : str) : endswith (base ++ py "/") (py "/") = true.
Proof.
  unfold endswith. rewrite rev_app_distr. simpl. reflexivity.
Qed.

Section Photos.

Context `{Runtime}.

(** X22. [_ensure_absolute_url] returns on every tree, the index of
    [href] being guarded by [has_attr]. It returns a source that
    starts with [http] as it is; otherwise the source as it is, or a
    base that ends with a slash followed by the source without its
    leading dots and slashes. *)
Theorem _ensure_absolute_url_shape (a : arena) (src : str) (soup : _SoupMixin) :
  tree_ok a ->
  exists r,
    _ensure_absolute_url a src soup = Ok r
    /\ (startswith src (py "http") = true -> r = src)
    /\ (r = src
        \/ exists base,
             endswith base (py "/") = true
             /\ r = base ++ lstrip_by (one_of (py "./")) src).
Proof.
  intros Hok. unfold _ensure_absolute_url.
  destruct (startswith src (py "http")) eqn:Hhttp.
  { exists src. split; [reflexivity |]. split; [reflexivity | left; reflexivity]. }
  destruct (find_returns a soup (NameStr (py "base")) None Hok
              (name_filter_comes_back (py "base"))) as [base_tag ->].
  cbn [mbind outcome_bind].
  assert (exists base_url,
            match base_tag with
            | Some b => if has_attr a b (py "href")
                        then Tag_getitem a b (py "href") else Ok []
            | None => Ok []
            end = Ok base_url) as [base_url ->].
  { destruct base_tag as [b |]; [| eauto].
    unfold has_attr, dict_has, Tag_getitem.
    destruct (dict_get (attrs (a !!! b)) (py "href")); eauto. }
  cbn [mbind outcome_bind]. eexists. split; [reflexivity |].
  split; [discriminate |].
  destruct base_url as [|c base]; [left; reflexivity |].
  cbn [truthy andb].
  destruct (negb (endswith (c :: base) (py "/"))) eqn:Hend.
  - right. exists ((c :: base) ++ py "/"). split; [apply endswith_slash |].
    reflexivity.
  - right. exists (c :: base). split; [| reflexivity].
    apply negb_false_iff, Hend.
Qed.

(** The source of an image in the fallback loop, and its URL. *)
Lemma fallback_photos_takes (a : arena) (soup : _SoupMixin) (imgs : list node_id) :
  forall photos r,
  (length photos < 3)%nat ->
  fallback_photos a soup imgs photos = Ok r ->
  exists new,
    r = photos ++ new
    /\ Forall2
         (fun img url =>
            _ensure_absolute_url a (or_empty (Tag_get a img (py "src"))) soup
            = Ok url)
         (take (3 - length photos)
            (filter (fun img => truthy_opt (Tag_get a img (py "src")) = true) imgs))
         new.
Proof.
  induction imgs as [|img imgs IH]; intros photos r Hlen Hr.
  - injection Hr as <-. exists []. rewrite app_nil_r, filter_nil, take_nil.
    split; [reflexivity | constructor].
  - cbn [fallback_photos] in Hr. rewrite filter_cons.
    destruct (truthy_opt (Tag_get a img (py "src"))) eqn:Hsrc.
    + rewrite decide_True by reflexivity.
      apply bind_Ok in Hr as (photos' & Hurl & Hr).
      apply bind_Ok in Hurl as (url & Hurl & Hp). injection Hp as <-.
      assert (3 - length photos = S (3 - length (photos ++ [url])))%nat as Hsub.
      { rewrite length_app. simpl. lia. }
      rewrite Hsub. cbn [take].
      case_bool_decide as Hfull.
      * injection Hr as <-. exists [url]. split; [reflexivity |].
        rewrite length_app in Hfull |- *. simpl in Hfull |- *.
        replace (3 - (length photos + 1))%nat with 0%nat by lia.
        rewrite take_0. repeat constructor. exact Hurl.
      * destruct (IH (photos ++ [url]) r ltac:(lia) Hr) as (new & -> & Hall).
        exists (url :: new). rewrite <- app_assoc. split; [reflexivity |].
        constructor; assumption.
    + rewrite decide_False by discriminate.
      cbn [mbind outcome_bind] in Hr.
      rewrite bool_decide_eq_false_2 in Hr by lia.
      apply (IH photos r Hlen Hr).
Qed.

(** X23. When no gallery gave a photo, the fallback returns the URLs
    of the first three images of the document that have a [src], in
    document order, and never more than three. *)
Theorem fallback_photos_first_three (a : arena) (soup : _SoupMixin)
    (imgs : list node_id) (r : list str) :
  fallback_photos a soup imgs [] = Ok r ->
  (length r <= 3)%nat
  /\ Forall2
       (fun img url =>
          _ensure_absolute_url a (or_empty (Tag_get a img (py "src"))) soup = Ok url)
       (take 3 (filter (fun img => truthy_opt (Tag_get a img (py "src")) = true) imgs))
       r.
Proof.
  intros Hr.
  destruct (fallback_photos_takes a soup imgs [] r ltac:(simpl; lia) Hr)
    as (new & -> & Hall).
  simpl in Hall |- *. split; [| exact Hall].
  apply Forall2_length in Hall. rewrite <- Hall, length_take. lia.
Qed.

End Photos.

(** ** More properties at sample documents *)

Ltac not_listed :=
  let Hin := fresh "Hin" in
  intros Hin;
  repeat (apply elem_of_cons in Hin as [Hin | Hin]; [discriminate |]);
  apply elem_of_nil in Hin; exact Hin.

Section MoreExamples.

Local Existing Instance ascii_runtime.

Lemma Tag_reads_the_start_tag_witness :
  Tag_get sample_arena 2 (py "class") = Some (py "a")
  /\ has_attr sample_arena 2 (py "class") = true
  /\ Tag_getitem sample_arena 2 (py "class") = Ok (py "a")
  /\ NoDup (map fst (attrs (sample_arena !!! 2%nat))).
Proof.
  apply (Tag_reads_the_start_tag sample_arena 2 [(py "class", Some (py "a"))]
           (py "class")).
  reflexivity.
Defined.

Lemma build_returns_witness :
  exists a, build sample_events = Ok a /\ tree_ok a.
Proof. apply build_returns. intros nm. unfold sample_events. not_listed. Defined.

Lemma get_text_of_document_witness :
  get_text sample_arena (BeautifulSoup ROOT) false
  = Ok (concat (map event_text sample_events)).
Proof. apply get_text_of_document. reflexivity. Defined.

Lemma find_all_of_document_witness :
  find_all sample_arena (BeautifulSoup ROOT) NameNone None
  = Ok (filter (fun n => name (sample_arena !!! n) <> ROOT_NAME)
          (seq 1 (length (created sample_events)))).
Proof. apply find_all_of_document. reflexivity. Defined.

Lemma text_and_markup_return_witness :
  exists text markup,
    get_text sample_arena (Tag 1) true = Ok text
    /\ decode_contents sample_arena (Tag 1) = Ok markup.
Proof. apply (text_and_markup_return sample_events). reflexivity. Defined.

Lemma build_nodes_witness :
  map (fun nd => (name nd, attrs nd)) sample_arena
  = (ROOT_NAME, []) :: created sample_events.
Proof. apply build_nodes. reflexivity. Defined.

Lemma void_elements_have_no_children_witness :
  build void_events = Ok void_arena
  /\ void_node void_arena 1
  /\ children (void_arena !!! 1%nat) = [].
Proof.
  assert (void_node void_arena 1) as Hvoid by (split; [discriminate | reflexivity]).
  split; [reflexivity |]. split; [exact Hvoid |].
  apply (void_elements_have_no_children void_events void_arena 1);
    [reflexivity | exact Hvoid].
Defined.

Lemma next_sibling_of_document_witness :
  next_sibling sample_arena ROOT = None
  /\ exists p pre post,
       parent (sample_arena !!! 2%nat) = Some p
       /\ children (sample_arena !!! p) = pre ++ ChildNode 2 :: post
       /\ (2%nat ∉ child_ids pre)
       /\ match next_sibling sample_arena 2 with
          | None => Forall blank_text post
          | Some (SiblingTag m) =>
              exists ws rest,
                post = ws ++ ChildNode m :: rest /\ Forall blank_text ws
          | Some (SiblingText s) =>
              exists ws rest,
                post = ws ++ ChildText s :: rest /\ Forall blank_text ws
                /\ strip s <> []
          end.
Proof.
  apply (next_sibling_of_document sample_events sample_arena 2).
  - reflexivity.
  - vm_compute. lia.
Defined.

Lemma select_unsupported_selects_all_witness :
  _parse_selector (py "*") = Ok no_constraint
  /\ select sample_arena (BeautifulSoup ROOT) (py "*")
     = find_all sample_arena (BeautifulSoup ROOT) NameNone None.
Proof.
  apply (select_unsupported_selects_all sample_events sample_arena
           (BeautifulSoup ROOT) (py "*") 42%N []).
  - reflexivity.
  - reflexivity.
  - reflexivity.
  - not_listed.
  - reflexivity.
  - not_listed.
Defined.

Lemma select_tag_is_find_all_witness :
  select sample_arena (BeautifulSoup ROOT) (py "p")
  = find_all sample_arena (BeautifulSoup ROOT) (NameStr (py "p")) None.
Proof.
  apply (select_tag_is_find_all sample_events).
  - reflexivity.
  - reflexivity.
  - split; [discriminate | repeat constructor].
Defined.

Lemma select_tag_class_is_find_all_witness :
  select sample_arena (Tag 1) (py "p" ++ py "." ++ py "a")
  = find_all sample_arena (Tag 1) (NameStr (py "p"))
      (Some [(py "class", ExpectedCallable (has_class (py "a")))]).
Proof.
  apply (select_tag_class_is_find_all sample_events).
  - reflexivity.
  - vm_compute. lia.
  - split; [discriminate | repeat constructor].
  - split; [discriminate |].
    apply Forall_cons_2; [| apply Forall_nil_2].
    split; [reflexivity |]. split; [reflexivity | discriminate].
Defined.

Lemma _parse_selector_never_contains_witness :
  _parse_selector (py "div[class*='Description']")
  = Ok (mkSelector (Some (py "div")) None None
          (Some (py "class*")) (Some (py "Description")) (Some (py "=")))
  /\ Some (py "=") <> Some (py "*=").
Proof.
  split; [reflexivity |].
  apply (_parse_selector_never_contains (py "div[class*='Description']")
           (mkSelector (Some (py "div")) None None
              (Some (py "class*")) (Some (py "Description")) (Some (py "=")))).
  reflexivity.
Defined.

Lemma _ensure_absolute_url_shape_witness :
  exists r,
    _ensure_absolute_url sample_arena (py "./a.jpg") (BeautifulSoup ROOT) = Ok r
    /\ (startswith (py "./a.jpg") (py "http") = true -> r = py "./a.jpg")
    /\ (r = py "./a.jpg"
        \/ exists base,
             endswith base (py "/") = true
             /\ r = base ++ lstrip_by (one_of (py "./")) (py "./a.jpg")).
Proof.
  apply _ensure_absolute_url_shape.
  apply (build_tree_ok sample_events). reflexivity.
Defined.

Lemma fallback_photos_first_three_witness :
  fallback_photos photo_arena (BeautifulSoup ROOT) [1; 2; 3]%nat []
  = Ok [py "a.jpg"; py "http://x/b.jpg"]
  /\ (length [py "a.jpg"; py "http://x/b.jpg"] <= 3)%nat
  /\ Forall2
       (fun img url =>
          _ensure_absolute_url photo_arena
            (or_empty (Tag_get photo_arena img (py "src"))) (BeautifulSoup ROOT)
          = Ok url)
       (take 3
          (filter (fun img => truthy_opt (Tag_get photo_arena img (py "src")) = true)
             [1; 2; 3]%nat))
       [py "a.jpg"; py "http://x/b.jpg"].
Proof.
  split; [reflexivity |].
  apply (fallback_photos_first_three photo_arena (BeautifulSoup ROOT) [1; 2; 3]%nat).
  reflexivity.
Defined.

Lemma balanced_keeps_cursor_witness :
  exists b',
    feed div_builder [Starttag (py "p") []; Data (py "x"); Endtag (py "P")] = Ok b'
    /\ current b' = current div_builder.
Proof.
  apply (balanced_keeps_cursor
           [Starttag (py "p") []; Data (py "x"); Endtag (py "P")]
           [Starttag (py "div") []] div_builder).
  - reflexivity.
  - apply (balanced_element (py "p") [] [Data (py "x")] (py "P") []).
    + reflexivity.
    + reflexivity.
    + apply balanced_text; [exact I | apply balanced_nil].
    + apply balanced_nil.
Defined.

Lemma document_is_a_tree_witness :
  parent (sample_arena !!! ROOT) = None
  /\ exists p,
       parent (sample_arena !!! 2%nat) = Some p
       /\ (p < 2)%nat
       /\ (forall q, 2%nat ∈ child_ids (children (sample_arena !!! q)) <-> q = p)
       /\ NoDup (child_ids (children (sample_arena !!! p))).
Proof.
  apply (document_is_a_tree sample_events sample_arena 2).
  - reflexivity.
  - vm_compute. lia.
Defined.

End MoreExamples.
